(** * Dictation trainer: scheduling, text matching and transcript parsing

    A shallow embedding of the core of the dictation trainer
    (services/storageService.ts, services/geminiService.ts,
    components/StepPractice.tsx, components/StepMiniStory.tsx,
    components/Dashboard.tsx, components/StepReview.tsx,
    components/VocabularyList.tsx, App.tsx), the properties its
    specification states about it, and further properties of the code.

    Conventions of the embedding.
    - A JavaScript string is a [string]; its characters are the code units
      below 256 (Latin-1), which is where the character classes used by the
      program ([\s], [\d], [\w], the punctuation set, line terminators) and
      [toLowerCase] have all their ASCII behaviour.  The algorithms run on the
      list of characters of the string.
    - Instants (milliseconds since the epoch), stages and cursors are JavaScript
      numbers that only ever hold integers; they are [Z] and [nat], exact as
      long as they stay within the safe-integer range of a double.
    - Seconds are doubles: a finite number is the rational it stands for,
      and reading a decimal literal, adding and multiplying round the exact
      result to the nearest double, to an infinity when it is too large.
    - [Date.now()], the persistent store and the calls to outside services are
      threaded through an explicit world. *)

From Stdlib Require Import ZArith QArith Lqa Ascii String DecimalString DecimalNat.
From stdpp Require Import gmap strings list fin_maps sorting.

Local Open Scope string_scope.
Local Open Scope list_scope.
Local Open Scope Z_scope.

(** ** JavaScript strings *)

Module JS.

(** Characters of a string and back. *)
Definition chars (s : string) : list ascii := list_ascii_of_string s.
Definition str (l : list ascii) : string := string_of_list_ascii l.

Definition code (c : ascii) : N := N_of_ascii c.

(** [\s], and the characters [String.prototype.trim] strips: TAB, LF, VT,
    FF, CR, SPACE and NO-BREAK SPACE. *)
Definition isWhiteSpace (c : ascii) : bool :=
  let n := code c in
  ((9 <=? n) && (n <=? 13) || (n =? 32) || (n =? 160))%N.

(** Line terminators, which [.] does not match: LF and CR. *)
Definition isLineTerminator (c : ascii) : bool :=
  let n := code c in ((n =? 10) || (n =? 13))%N.

(** [\d] *)
Definition isDigit (c : ascii) : bool :=
  let n := code c in ((48 <=? n) && (n <=? 57))%N.

(** [\w]: letters, digits and the underscore. *)
Definition isWordChar (c : ascii) : bool :=
  let n := code c in
  ((65 <=? n) && (n <=? 90) || (97 <=? n) && (n <=? 122)
   || (48 <=? n) && (n <=? 57) || (n =? 95))%N.

Definition isUpper (c : ascii) : bool :=
  let n := code c in
  ((65 <=? n) && (n <=? 90)
   || (192 <=? n) && (n <=? 222) && negb (n =? 215))%N.

Definition toLowerCaseChar (c : ascii) : ascii :=
  if isUpper c then ascii_of_N (code c + 32) else c.

Definition toLowerCase (l : list ascii) : list ascii := map toLowerCaseChar l.

Fixpoint trimStart (l : list ascii) : list ascii :=
  match l with
  | [] => []
  | c :: l' => if isWhiteSpace c then trimStart l' else l
  end.

Definition trimEnd (l : list ascii) : list ascii :=
  reverse (trimStart (reverse l)).

Definition trim (l : list ascii) : list ascii := trimEnd (trimStart l).

(** [s.split(sep)] for a one-character separator. *)
Fixpoint splitChar (sep : ascii) (l : list ascii) : list (list ascii) :=
  match l with
  | [] => [[]]
  | c :: l' =>
      if Ascii.eqb c sep then [] :: splitChar sep l'
      else match splitChar sep l' with
           | p :: ps => (c :: p) :: ps
           | [] => [[c]]
           end
  end.

(** [s.split(/\s+/)]: the pieces between the maximal runs of white space;
    a leading or trailing run leaves an empty piece, and the empty string
    splits into one empty piece. *)
Fixpoint splitWhiteSpace (l : list ascii) : list (list ascii) :=
  match l with
  | [] => [[]]
  | c :: l' =>
      if isWhiteSpace c then
        match l' with
        | c' :: _ => if isWhiteSpace c' then splitWhiteSpace l'
                     else [] :: splitWhiteSpace l'
        | [] => [] :: splitWhiteSpace l'
        end
      else match splitWhiteSpace l' with
           | p :: ps => (c :: p) :: ps
           | [] => [[c]]
           end
  end.

(** [s.includes(needle)] *)
Fixpoint startsWith (p l : list ascii) : bool :=
  match p, l with
  | [], _ => true
  | _ :: _, [] => false
  | a :: p', b :: l' => Ascii.eqb a b && startsWith p' l'
  end.

Fixpoint includes (needle l : list ascii) : bool :=
  startsWith needle l ||
  match l with
  | [] => false
  | _ :: l' => includes needle l'
  end.

(** *** Numbers that carry fractions

    [NaN], the two infinities, and the finite values: a finite number is the
    rational that the double stands for.  The two zeros are one. *)
Inductive number :=
| NaN
| Inf (negative : bool)
| Fin (q : Q).

(** *** Rounding to a double

    What a decimal literal or the exact result of an operation becomes as a
    number: the nearest value with a significand of 53 bits, a tie going to
    the even significand; below the smallest normal number the spacing stays
    that of the subnormals, and from the middle between the largest double
    and the next power of two on the result is an infinity. *)

(** The integer nearest to [num / den], a tie going to the even one. *)
Definition roundHalfEven (num den : Z) : Z :=
  let q := num / den in
  match 2 * (num mod den) ?= den with
  | Lt => q
  | Gt => q + 1
  | Eq => if Z.even q then q else q + 1
  end.

(** The exponent of the power of two at or below [n / d], for positive [n]
    and [d]. *)
Definition binade (n d : Z) : Z :=
  let e := Z.log2 n - Z.log2 d in
  if n * 2 ^ Z.max 0 (- e) <? d * 2 ^ Z.max 0 e then e - 1 else e.

Definition double (x : Q) : number :=
  let q := Qred x in
  let n := Z.abs (Qnum q) in
  let d := Z.pos (Qden q) in
  let negative := Qnum q <? 0 in
  if n =? 0 then Fin 0
  else
    let u := Z.max (binade n d - 52) (-1074) in
    let m := roundHalfEven (n * 2 ^ Z.max 0 (- u)) (d * 2 ^ Z.max 0 u) in
    let v := (inject_Z (m * 2 ^ Z.max 0 u) / inject_Z (2 ^ Z.max 0 (- u)))%Q in
    if Qle_bool (inject_Z (2 ^ 1024)) v then Inf negative
    else Fin (Qred (if negative then - v else v)%Q).

Definition num_eq (a b : number) : Prop :=
  match a, b with
  | NaN, NaN => True
  | Inf s, Inf s' => s = s'
  | Fin p, Fin q => (p == q)%Q
  | _, _ => False
  end.

Definition num_add (a b : number) : number :=
  match a, b with
  | NaN, _ | _, NaN => NaN
  | Inf s, Inf s' => if Bool.eqb s s' then Inf s else NaN
  | Inf s, Fin _ | Fin _, Inf s => Inf s
  | Fin p, Fin q => double (p + q)
  end.

Definition isNegative (q : Q) : bool := (Qnum q <? 0)%Z.

Definition num_mul (a b : number) : number :=
  match a, b with
  | NaN, _ | _, NaN => NaN
  | Inf s, Inf s' => Inf (xorb s s')
  | Inf s, Fin q | Fin q, Inf s =>
      if Qeq_bool q 0 then NaN else Inf (xorb s (isNegative q))
  | Fin p, Fin q => double (p * q)
  end.

(** [x || 0]: [NaN] and zero are falsy. *)
Definition orZero (x : number) : number :=
  match x with
  | NaN => Fin 0
  | Inf _ => x
  | Fin q => if Qeq_bool q 0 then Fin 0 else x
  end.

(** [a >= b] *)
Definition num_geb (a b : number) : bool :=
  match a, b with
  | NaN, _ | _, NaN => false
  | Inf s, Inf s' => implb s s'
  | Inf s, Fin _ => negb s
  | Fin _, Inf s => s
  | Fin p, Fin q => Qle_bool q p
  end.

(** The longest prefix of decimal digits, and what follows it. *)
Fixpoint spanDigits (l : list ascii) : list ascii * list ascii :=
  match l with
  | c :: l' =>
      if isDigit c then let '(ds, r) := spanDigits l' in (c :: ds, r)
      else ([], l)
  | [] => ([], [])
  end.

Definition digitValue (c : ascii) : N := (code c - 48)%N.

Definition digitsValue (ds : list ascii) : N :=
  fold_left (λ acc d, (10 * acc + digitValue d)%N) ds 0%N.

Definition parseSign (l : list ascii) : bool * list ascii :=
  match l with
  | c :: l' =>
      if Ascii.eqb c "-" then (true, l')
      else if Ascii.eqb c "+" then (false, l')
      else (false, l)
  | [] => (false, l)
  end.

Definition signed (negative : bool) (q : Q) : Q := if negative then (- q)%Q else q.

Definition natural (ds : list ascii) : Q := inject_Z (Z.of_N (digitsValue ds)).

(** [parseInt(s, 10)]: leading white space, a sign, then the longest run of
    digits, read as the nearest double; [NaN] when there is no digit. *)
Definition parseInt (s : list ascii) : number :=
  let '(negative, r) := parseSign (trimStart s) in
  let '(ds, _) := spanDigits r in
  match ds with
  | [] => NaN
  | _ => double (signed negative (natural ds))
  end.

(** The exponent part [[eE][+-]?\d+] at the head of [l]; 0 when there is none. *)
Definition parseExponent (l : list ascii) : Z :=
  match l with
  | c :: l' =>
      if Ascii.eqb c "e" || Ascii.eqb c "E" then
        let '(negative, r) := parseSign l' in
        let '(ds, _) := spanDigits r in
        match ds with
        | [] => 0
        | _ => if negative then - Z.of_N (digitsValue ds) else Z.of_N (digitsValue ds)
        end
      else 0
  | [] => 0
  end.

(** The fraction [0.ds] *)
Definition fraction (ds : list ascii) : Q :=
  (natural ds / inject_Z (10 ^ Z.of_nat (length ds)))%Q.

Definition scale (q : Q) (e : Z) : Q := (q * Qpower (10 # 1) e)%Q.

(** [parseFloat(s)]: leading white space, a sign, then the longest prefix
    that is a decimal literal ([Infinity], digits with an optional fraction,
    or a fraction alone, and an optional exponent), read as the nearest
    double; [NaN] when there is none. *)
Definition parseFloat (s : list ascii) : number :=
  let '(negative, r) := parseSign (trimStart s) in
  if startsWith (chars "Infinity") r then Inf negative
  else
    let '(ip, r1) := spanDigits r in
    match r1 with
    | c :: r2 =>
        if Ascii.eqb c "." then
          let '(fp, r3) := spanDigits r2 in
          match ip, fp with
          | [], [] => NaN
          | _, _ =>
              double (signed negative
                        (scale (natural ip + fraction fp) (parseExponent r3)))
          end
        else
          match ip with
          | [] => NaN
          | _ => double (signed negative (scale (natural ip) (parseExponent r1)))
          end
    | [] =>
        match ip with
        | [] => NaN
        | _ => double (signed negative (natural ip))
        end
    end.

(** A non-negative integer in a template literal. *)
Definition showNat (n : nat) : string :=
  DecimalString.NilZero.string_of_uint (Nat.to_uint n).

Definition showZ (z : Z) : string :=
  DecimalString.NilZero.string_of_int (Z.to_int z).

End JS.

(** ** components/StepPractice.tsx: text comparison *)

Module Text.
Import JS.

(** The punctuation class that [cleanText] removes: the characters of the
    literal below and the double quote (code 34). *)
Definition punctuation : list ascii :=
  chars ".,/#!$%^&*;:{}=-_`~()?'" ++ [ascii_of_N 34].

Definition isPunctuation (c : ascii) : bool := bool_decide (c ∈ punctuation).

Definition stripPunctuation (l : list ascii) : list ascii :=
  filter (λ c, isPunctuation c = false) l.

(** [replace(/\s{2,}/g, " ")].  The scan remembers the white space seen
    since the last other character: none, one character (kept as it is),
    or a run of two or more (replaced by one space). *)
Inductive run := NoRun | One (c : ascii) | Many.

Definition flush (r : run) : list ascii :=
  match r with
  | NoRun => []
  | One c => [c]
  | Many => [" "%char]
  end.

Fixpoint collapseFrom (r : run) (l : list ascii) : list ascii :=
  match l with
  | [] => flush r
  | c :: l' =>
      if isWhiteSpace c then
        collapseFrom (match r with NoRun => One c | _ => Many end) l'
      else flush r ++ c :: collapseFrom NoRun l'
  end.

Definition collapseSpaces (l : list ascii) : list ascii := collapseFrom NoRun l.

Definition cleanChars (l : list ascii) : list ascii :=
  trim (collapseSpaces (stripPunctuation (toLowerCase l))).

Definition cleanText (text : string) : string := str (cleanChars (chars text)).


(** What follows does not start with white space. *)
Definition noSpaceAhead (rest : list ascii) : Prop :=
  match rest with
  | c :: _ => isWhiteSpace c = false
  | [] => True
  end.

(** No white space at either end. *)
Definition trimmed (l : list ascii) : bool :=
  match l with
  | c :: _ => negb (isWhiteSpace c)
  | [] => true
  end
  && match reverse l with
     | c :: _ => negb (isWhiteSpace c)
     | [] => true
     end.

End Text.

(** ** types.ts *)

Module Types.
Import JS.

Record Segment := mkSegment {
  s_id : string;
  s_text : string;
  s_translation : option string;
  s_start : number;
  s_end : number
}.

Record MiniStoryInteraction := mkInteraction {
  i_id : string;
  question : string;
  answer : string;
  questionStart : number;
  questionEnd : number;
  answerStart : number;
  answerEnd : number
}.

(** A [File] or [Blob]: its name and its bytes. *)
Record File := mkFile {
  f_name : string;
  f_type : string;
  f_bytes : list Byte.byte
}.

Record Article := mkArticle {
  a_id : string;
  title : string;
  createdAt : Z;
  lastPracticed : option Z;
  nextReview : Z;
  stage : nat;
  segments : list Segment;
  miniStoryInteractions : option (list MiniStoryInteraction);
  currentSegmentIndex : nat;
  audioBlob : option File
}.

Inductive AppTab := DASHBOARD | PRACTICE_NEW | PRACTICE_SESSION | VOCABULARY.
Inductive AppStep := UPLOAD | REVIEW | PRACTICE | COMPLETED.

(** The assignments the program makes to the fields of an article. *)
Definition set_currentSegmentIndex (i : nat) (a : Article) : Article :=
  mkArticle (a_id a) (title a) (createdAt a) (lastPracticed a) (nextReview a)
    (stage a) (segments a) (miniStoryInteractions a) i (audioBlob a).

Definition set_lastPracticed (t : option Z) (a : Article) : Article :=
  mkArticle (a_id a) (title a) (createdAt a) t (nextReview a)
    (stage a) (segments a) (miniStoryInteractions a) (currentSegmentIndex a)
    (audioBlob a).

Definition set_nextReview (t : Z) (a : Article) : Article :=
  mkArticle (a_id a) (title a) (createdAt a) (lastPracticed a) t
    (stage a) (segments a) (miniStoryInteractions a) (currentSegmentIndex a)
    (audioBlob a).

Definition set_stage (n : nat) (a : Article) : Article :=
  mkArticle (a_id a) (title a) (createdAt a) (lastPracticed a) (nextReview a)
    n (segments a) (miniStoryInteractions a) (currentSegmentIndex a)
    (audioBlob a).

End Types.

(** ** The world the program runs in *)

Module World.
Import Types.

(** The state of the [App] component (App.tsx). *)
Record AppState := mkApp {
  activeTab : AppTab;
  currentStep : AppStep;
  app_segments : list Segment;
  audioFile : option File;
  audioUrl : option string;
  currentArticleId : option string;
  resumeIndex : nat;
  isProcessing : bool;
  errorMsg : option string;
  showSettings : bool
}.

(** The calls whose number the specification speaks of. *)
Inductive event :=
| CalculateNextReview (currentStage : nat)
| UpdateArticleProgress (id : string)
| Put (a : Article)
| LookupWord (word contextSentence : string)
| OnComplete.

(** [store] is the object store of articles, keyed by id; [clock k] is the
    value of the k-th call of [Date.now()], [reads] the number of calls made
    so far; [log] lists the events, latest first. *)
Record world := mkWorld {
  store : gmap string Article;
  app : AppState;
  clock : nat → Z;
  reads : nat;
  log : list event
}.

Definition M (A : Type) : Type := world → A * world.

Definition ret {A} (x : A) : M A := λ w, (x, w).

Definition bind {A B} (m : M A) (f : A → M B) : M B :=
  λ w, let '(x, w') := m w in f x w'.

Definition Date_now : M Z :=
  λ w, (clock w (reads w),
        mkWorld (store w) (app w) (clock w) (S (reads w)) (log w)).

Definition emit (e : event) : M unit :=
  λ w, (tt, mkWorld (store w) (app w) (clock w) (reads w) (e :: log w)).

Definition getApp : M AppState := λ w, (app w, w).

Definition setApp (s : AppState) : M unit :=
  λ w, (tt, mkWorld (store w) s (clock w) (reads w) (log w)).

Definition count (P : event → bool) (w : world) : nat :=
  length (filter (λ e, P e = true) (log w)).

Definition isSchedulerCall (e : event) : bool :=
  match e with CalculateNextReview _ => true | _ => false end.

Definition isProgressUpdate (e : event) : bool :=
  match e with UpdateArticleProgress _ => true | _ => false end.

Definition isLookup (word : string) (e : event) : bool :=
  match e with LookupWord w _ => bool_decide (w = word) | _ => false end.

Definition isPut (e : event) : bool :=
  match e with Put _ => true | _ => false end.

End World.

#[global] Instance M_ret : MRet World.M := @World.ret.
#[global] Instance M_bind : MBind World.M := λ A B f m, World.bind m f.

(** ** services/storageService.ts *)

Module storageService.
Import Types World.

Definition SRS_INTERVALS : list Z := [1; 3; 5; 7; 14; 30; 60; 90; 120; 150].

Definition saveArticle (article : Article) : M unit :=
  λ w, (tt, mkWorld (<[a_id article := article]> (store w)) (app w)
              (clock w) (reads w) (Put article :: log w)).

Definition getArticleById (id : string) : M (option Article) :=
  λ w, (store w !! id, w).

Record Review := mkReview {
  nextDate : Z;
  nextStage : nat;
  isFinished : bool
}.

Definition oneDay : Z := 24 * 60 * 60 * 1000.

(** [calculateNextReview] run at instant [now]. *)
Definition calculateNextReviewAt (now : Z) (currentStage : nat) : Review :=
  let nextStage := (currentStage + 1)%nat in
  let daysToAdd :=
    if (currentStage <? length SRS_INTERVALS)%nat
    then default 0 (SRS_INTERVALS !! currentStage)
    else 30 in
  let nextDate := now + daysToAdd * oneDay in
  let isFinished := (length SRS_INTERVALS + 12 <=? currentStage)%nat in
  mkReview nextDate nextStage isFinished.

Definition calculateNextReview (currentStage : nat) : M Review :=
  emit (CalculateNextReview currentStage) ;;
  now ← Date_now ;
  ret (calculateNextReviewAt now currentStage).

Definition oneYear : Z := 365 * 24 * 60 * 60 * 1000.

Definition updateArticleProgress (id : string) : M unit :=
  emit (UpdateArticleProgress id) ;;
  article ← getArticleById id ;
  match article with
  | None => ret tt
  | Some article =>
      t ← Date_now ;
      if oneYear <? t - createdAt article then
        t1 ← Date_now ;
        let article := set_lastPracticed (Some t1) article in
        t2 ← Date_now ;
        let article := set_nextReview (t2 + oneYear * 10) article in
        saveArticle article
      else
        r ← calculateNextReview (stage article) ;
        t1 ← Date_now ;
        let article := set_lastPracticed (Some t1) article in
        let article := set_nextReview (nextDate r) article in
        let article := set_stage (nextStage r) article in
        saveArticle article
  end.

End storageService.

(** ** services/geminiService.ts *)

Module geminiService.
Import JS Types World.

Definition parseTimestamp (timeStr : string) : number :=
  match chars timeStr with
  | [] => Fin 0
  | s =>
      match splitChar ":" (trim s) with
      | [minutes; seconds] =>
          num_add (num_mul (parseInt minutes) (Fin 60)) (parseFloat seconds)
      | [hours; minutes; seconds] =>
          num_add
            (num_add (num_mul (parseInt hours) (Fin 3600))
                     (num_mul (parseInt minutes) (Fin 60)))
            (parseFloat seconds)
      | _ => orZero (parseFloat s)
      end
  end.

(** *** The line pattern

    [lineRegex] reads: an opening bracket; a time, captured; the literal
    space-arrow-space; a second time, captured; a closing bracket and a
    space; the text, a lazy run of any characters but line terminators,
    captured; optionally space-bar-space and the translation, a greedy run of
    any characters but line terminators, captured; the end of the input.  A
    time is one or two digits, a colon, two digits, and optionally a dot with
    one to three digits.  Each piece below takes the input left and a continuation for the rest of
    the pattern, and tries its alternatives in the order of a backtracking
    matcher: the longer one first for a greedy quantifier, the shorter one
    first for the lazy one. *)

Definition orElse {A} (x y : option A) : option A :=
  match x with
  | Some _ => x
  | None => y
  end.

Fixpoint literal {R} (p l : list ascii) (k : list ascii → option R) : option R :=
  match p with
  | [] => k l
  | a :: p' =>
      match l with
      | b :: l' => if Ascii.eqb a b then literal p' l' k else None
      | [] => None
      end
  end.

(** [\d{n}] *)
Fixpoint digitsExactly {R} (n : nat) (l : list ascii)
    (k : list ascii → list ascii → option R) : option R :=
  match n with
  | O => k [] l
  | S n' =>
      match l with
      | c :: l' =>
          if isDigit c then digitsExactly n' l' (λ ds r, k (c :: ds) r)
          else None
      | [] => None
      end
  end.

(** [\d{0,n}], greedy *)
Fixpoint digitsAtMost {R} (n : nat) (l : list ascii)
    (k : list ascii → list ascii → option R) : option R :=
  match n with
  | O => k [] l
  | S n' =>
      orElse
        match l with
        | c :: l' =>
            if isDigit c then digitsAtMost n' l' (λ ds r, k (c :: ds) r)
            else None
        | [] => None
        end
        (k [] l)
  end.

(** [\d{lo,lo+more}], greedy *)
Definition digitsBetween {R} (lo more : nat) (l : list ascii)
    (k : list ascii → list ascii → option R) : option R :=
  digitsExactly lo l (λ ds r, digitsAtMost more r (λ ds' r', k (ds ++ ds') r')).

(** [\d{1,2}:\d{2}(?:\.\d{1,3})?] *)
Definition timePattern {R} (l : list ascii)
    (k : list ascii → list ascii → option R) : option R :=
  digitsBetween 1 1 l (λ mm r,
  literal (chars ":") r (λ r,
  digitsExactly 2 r (λ ss r,
  orElse
    (literal (chars ".") r (λ r',
     digitsBetween 1 2 r' (λ ms r'', k (mm ++ chars ":" ++ ss ++ chars "." ++ ms) r'')))
    (k (mm ++ chars ":" ++ ss) r)))).

(** The optional translation group and the end of the input, right after
    the text: the group when it takes part (its greedy run has to reach the
    end of the line, so the rest must be free of line terminators), or the
    end of the line at once. *)
Definition translationPattern (l : list ascii) : option (option (list ascii)) :=
  orElse
    (literal (chars " | ") l (λ r,
       if forallb (λ c, negb (isLineTerminator c)) r then Some (Some r) else None))
    match l with
    | [] => Some None
    | _ :: _ => None
    end.

(** The lazy text followed by the rest of the pattern: the text grows one
    character at a time until the rest matches. *)
Fixpoint bodyPattern (l : list ascii) : option (list ascii * option (list ascii)) :=
  orElse
    (tr ← translationPattern l; Some ([], tr))
    match l with
    | c :: l' =>
        if isLineTerminator c then None
        else '(text, tr) ← bodyPattern l'; Some (c :: text, tr)
    | [] => None
    end.

(** The capture groups 1 to 4 of a match. *)
Record Match := mkMatch {
  startStr : list ascii;
  endStr : list ascii;
  textGroup : list ascii;
  translationGroup : option (list ascii)
}.

Definition matchAt (l : list ascii) : option Match :=
  literal (chars "[") l (λ r,
  timePattern r (λ startStr r,
  literal (chars " -> ") r (λ r,
  timePattern r (λ endStr r,
  literal (chars "] ") r (λ r,
  '(text, tr) ← bodyPattern r; Some (mkMatch startStr endStr text tr)))))).

(** [line.match(lineRegex)]: the pattern is not anchored at the start, so the
    match is looked for from every position, the leftmost first. *)
Fixpoint lineRegex (l : list ascii) : option Match :=
  orElse (matchAt l)
    match l with
    | _ :: l' => lineRegex l'
    | [] => None
    end.

(** *** transcribeAudio *)

Definition segmentId (index : nat) (now : Z) : string :=
  "seg-" +:+ showNat index +:+ "-" +:+ showZ now.

(** The body of the [forEach] callback. *)
Definition parseLine (segments : list Segment) (line : list ascii) (index : nat)
    : M (list Segment) :=
  match lineRegex (trim line) with
  | Some m =>
      let textContent := trim (textGroup m) in
      let translationContent :=
        match translationGroup m with
        | Some t => trim t
        | None => []
        end in
      match textContent with
      | [] => mret segments
      | _ =>
          now ← Date_now;
          mret (segments ++
                [mkSegment (segmentId index now) (str textContent)
                   (Some (str translationContent))
                   (parseTimestamp (str (startStr m)))
                   (parseTimestamp (str (endStr m)))])
      end
  | None => mret segments
  end.

Fixpoint forEachLine (segments : list Segment) (lines : list (list ascii))
    (index : nat) : M (list Segment) :=
  match lines with
  | [] => mret segments
  | line :: lines' =>
      segments' ← parseLine segments line index;
      forEachLine segments' lines' (S index)
  end.

(** What a call returns or throws. *)
Inductive result (A : Type) :=
| Returns (x : A)
| Throws (message : string).
Arguments Returns {A} x.
Arguments Throws {A} message.

Definition isQuotaMessage (message : string) : bool :=
  includes (chars "429") (chars message)
  || includes (chars "quota") (toLowerCase (chars message))
  || includes (chars "RESOURCE_EXHAUSTED") (chars message).

(** [handleApiError] for a thrown [Error] with the given message: the message
    of the error it throws in turn. *)
Definition handleApiError (message context : string) : string :=
  if isQuotaMessage message then
    "API Quota Exceeded (429). The free plan limit has been reached. Please wait a moment or update your API Key in Settings."
  else "Failed to " +:+ context +:+ ": " +:+ message.

Definition emptyTranscript : string :=
  "Could not parse audio. The AI response was empty or malformed.".

(** [transcribeAudio] given what the oracle call produced: [inl message] when
    creating the client or the request threw [Error(message)], [inr rawText]
    for a response with text [rawText] (the empty string when it has none). *)
Definition transcribeAudio (oracle : string + string) : M (result (list Segment)) :=
  match oracle with
  | inl message => mret (Throws (handleApiError message "transcribe audio"))
  | inr rawText =>
      let lines := splitChar (ascii_of_N 10) (chars rawText) in
      segments ← forEachLine [] lines 0%nat;
      match segments with
      | [] => mret (Throws (handleApiError emptyTranscript "transcribe audio"))
      | _ => mret (Returns segments)
      end
  end.

End geminiService.

(** ** The audio element *)

Module Audio.
Import JS.

Section Element.
(** The closures registered as [timeupdate] listeners. *)
Context {H : Type}.

(** Each registered closure is a function object of its own: [fresh]
    numbers them. *)
Record element := mkElement {
  currentTime : number;
  paused : bool;
  listeners : list (nat * H);
  fresh : nat
}.

Definition setCurrentTime (t : number) (a : element) : element :=
  mkElement t (paused a) (listeners a) (fresh a).

Definition play (a : element) : element :=
  mkElement (currentTime a) false (listeners a) (fresh a).

Definition pause (a : element) : element :=
  mkElement (currentTime a) true (listeners a) (fresh a).

Definition addEventListener (h : H) (a : element) : nat * element :=
  (fresh a,
   mkElement (currentTime a) (paused a) (listeners a ++ [(fresh a, h)])
     (S (fresh a))).

Definition removeEventListener (id : nat) (a : element) : element :=
  mkElement (currentTime a) (paused a)
    (filter (λ l, l.1 ≠ id) (listeners a)) (fresh a).

Definition registered (id : nat) (a : element) : bool :=
  bool_decide (id ∈ (listeners a).*1).

(** The number of stop-watches armed on the element. *)
Definition armed (a : element) : nat := length (listeners a).
End Element.

Arguments element H : clear implicits.

End Audio.

(** ** components/StepPractice.tsx *)

Module StepPractice.
Import JS Text Types World storageService.

Record Props := mkProps {
  articleId : option string;
  segments : list Segment;
  initialIndex : nat;
  onComplete : M unit
}.

Inductive Feedback := neutral | correct | incorrect.

(** What [lookupWord] resolves to. *)
Record Lookup := mkLookup {
  l_translation : string;
  l_ipa : string;
  l_definition : string;
  l_examples : list string
}.

Record LookupData := mkLookupData {
  word : string;
  originalSentence : string;
  data : Lookup
}.

(** The state of the component.  [audio] is the audio element, when it is
    rendered; a listener on it is the [handleTimeUpdate] closure of one run of
    the stop-watch effect, that is the segment it captured; [cleanup] is the
    listener that the cleanup of the last run of that effect removes. *)
Record State := mkState {
  currentIndex : nat;
  userInput : string;
  feedback : Feedback;
  isPlaying : bool;
  selectedWord : option string;
  lookupData : option LookupData;
  isLookingUp : bool;
  savedWords : gset string;
  audio : option (Audio.element (option Segment));
  cleanup : option nat
}.

Definition currentSegment (p : Props) (st : State) : option Segment :=
  segments p !! currentIndex st.

Definition getTargetWords (currentSegment : Segment) : list string :=
  map str (splitWhiteSpace (trim (chars (s_text currentSegment)))).

(** The loop of [calculateMatchIndex]: it walks both word lists from the
    start and stops at the end of either or at the first pair of words that
    differ once cleaned. *)
Fixpoint matchLoop (targetWords userWords : list string) : nat :=
  match targetWords, userWords with
  | t :: targetWords', u :: userWords' =>
      if String.eqb (cleanText t) (cleanText u)
      then S (matchLoop targetWords' userWords')
      else 0%nat
  | _, _ => 0%nat
  end.

Definition calculateMatchIndex (currentSegment : Segment) (st : State) : nat :=
  let targetWords := getTargetWords currentSegment in
  let userWords := map str (splitWhiteSpace (trim (chars (userInput st)))) in
  matchLoop targetWords userWords.

Definition setFeedback (v : Feedback) (st : State) : State :=
  mkState (currentIndex st) (userInput st) v (isPlaying st) (selectedWord st)
    (lookupData st) (isLookingUp st) (savedWords st) (audio st) (cleanup st).

Definition checkAnswer (currentSegment : Segment) (st : State) : State :=
  let expected := cleanText (s_text currentSegment) in
  let actual := cleanText (userInput st) in
  if String.eqb expected actual then setFeedback correct st
  else setFeedback incorrect st.

(** The [onChange] handler of the text box. *)
Definition onChange (value : string) (st : State) : State :=
  mkState (currentIndex st) value neutral (isPlaying st) (selectedWord st)
    (lookupData st) (isLookingUp st) (savedWords st) (audio st) (cleanup st).




Definition saveProgress (p : Props) (nextIndex : nat) : M unit :=
  match articleId p with
  | None => mret tt
  | Some articleId =>
      article ← getArticleById articleId;
      match article with
      | Some article =>
          let article := set_currentSegmentIndex nextIndex article in
          now ← Date_now;
          let article := set_lastPracticed (Some now) article in
          saveArticle article
      | None => mret tt
      end
  end.

(** The stop-watch effect, run for the segment [seg]: the cleanup of its
    previous run first, then the registration of a new listener. *)
Definition stopWatchEffect (seg : option Segment) (st : State) : State :=
  let audio1 :=
    match cleanup st, audio st with
    | Some id, Some a => Some (Audio.removeEventListener id a)
    | _, a => a
    end in
  match audio1 with
  | None =>
      mkState (currentIndex st) (userInput st) (feedback st) (isPlaying st)
        (selectedWord st) (lookupData st) (isLookingUp st) (savedWords st)
        None None
  | Some a =>
      let '(id, a') := Audio.addEventListener seg a in
      mkState (currentIndex st) (userInput st) (feedback st) (isPlaying st)
        (selectedWord st) (lookupData st) (isLookingUp st) (savedWords st)
        (Some a') (Some id)
  end.

(** The effect that resets the state when the index changes. *)
Definition resetEffect (st : State) : State :=
  mkState (currentIndex st) "" neutral (isPlaying st) None None
    (isLookingUp st) ∅ (audio st) (cleanup st).

(** [setCurrentIndex(nextIndex)] and the effects of the render it causes. *)
Definition setCurrentIndex (p : Props) (nextIndex : nat) (st : State) : State :=
  let st1 :=
    mkState nextIndex (userInput st) (feedback st) (isPlaying st)
      (selectedWord st) (lookupData st) (isLookingUp st) (savedWords st)
      (audio st) (cleanup st) in
  resetEffect (stopWatchEffect (segments p !! nextIndex) st1).

Definition handleNext (p : Props) (st : State) : M State :=
  let nextIndex := (currentIndex st + 1)%nat in
  if (nextIndex <? length (segments p))%nat then
    saveProgress p nextIndex;;
    mret (setCurrentIndex p nextIndex st)
  else
    saveProgress p 0%nat;;
    emit OnComplete;;
    onComplete p;;
    mret st.

(** The Enter key in the text box. *)
Definition handleKeyDown (p : Props) (currentSegment : Segment) (st : State)
    : M State :=
  match feedback st with
  | correct => handleNext p st
  | _ => mret (checkAnswer currentSegment st)
  end.

(** [handleTimeUpdate] of a listener that captured [seg]. *)
Definition handleTimeUpdate (seg : option Segment) (st : State) : State :=
  match seg, audio st with
  | Some seg, Some a =>
      if num_geb (Audio.currentTime a) (s_end seg) then
        mkState (currentIndex st) (userInput st) (feedback st) false
          (selectedWord st) (lookupData st) (isLookingUp st) (savedWords st)
          (Some (Audio.pause a)) (cleanup st)
      else st
  | _, _ => st
  end.

(** The element reaches position [t] and fires [timeupdate]: every
    listener registered at that moment runs. *)
Definition timeupdate (t : number) (st : State) : State :=
  match audio st with
  | None => st
  | Some a =>
      let st1 :=
        mkState (currentIndex st) (userInput st) (feedback st) (isPlaying st)
          (selectedWord st) (lookupData st) (isLookingUp st) (savedWords st)
          (Some (Audio.setCurrentTime t a)) (cleanup st) in
      foldl (λ s l, handleTimeUpdate l.2 s) st1 (Audio.listeners a)
  end.

Definition setPlayback (playing : bool) (a : Audio.element (option Segment))
    (st : State) : State :=
  mkState (currentIndex st) (userInput st) (feedback st) playing
    (selectedWord st) (lookupData st) (isLookingUp st) (savedWords st)
    (Some a) (cleanup st).

(** The play button: a toggle. *)
Definition playSegment (p : Props) (st : State) : State :=
  match audio st, currentSegment p st with
  | Some a, Some seg =>
      if isPlaying st then setPlayback false (Audio.pause a) st
      else setPlayback true (Audio.play (Audio.setCurrentTime (s_start seg) a)) st
  | _, _ => st
  end.

Definition forcePlay (p : Props) (st : State) : State :=
  match audio st, currentSegment p st with
  | Some a, Some seg =>
      setPlayback true (Audio.play (Audio.setCurrentTime (s_start seg) a)) st
  | _, _ => st
  end.

(** The listeners on the audio element are those that the cleanup of the
    stop-watch effect will remove: none before the effect has run, one
    after. *)
Definition oneWatch (st : State) : Prop :=
  match audio st with
  | Some a =>
      (Audio.listeners a).*1
      = match cleanup st with
        | Some id => [id]
        | None => []
        end
  | None => True
  end.

(** The number of stop-watches armed. *)
Definition armed (st : State) : nat :=
  match audio st with
  | Some a => Audio.armed a
  | None => 0
  end.

(** *** Word lookup *)

(** The clean form of a tapped word keeps its word characters, white space
    and apostrophes. *)
Definition cleanWord (word : string) : string :=
  str (filter (λ c, isWordChar c || isWhiteSpace c || Ascii.eqb c "'" = true)
         (chars word)).

(** [handleWordClick] up to the point where it waits for [lookupWord]. *)
Definition handleWordClick (currentSegment : Segment) (word : string) (st : State)
    : M State :=
  let cleanWord := cleanWord word in
  if String.eqb cleanWord "" then mret st
  else
    emit (LookupWord cleanWord (s_text currentSegment));;
    mret (mkState (currentIndex st) (userInput st) (feedback st) (isPlaying st)
            (Some cleanWord) None true (savedWords st) (audio st) (cleanup st)).

(** The rest of [handleWordClick], once [lookupWord] has resolved to [data]. *)
Definition lookupResolved (currentSegment : Segment) (word : string) (data : Lookup)
    (st : State) : State :=
  mkState (currentIndex st) (userInput st) (feedback st) (isPlaying st)
    (selectedWord st)
    (Some (mkLookupData (cleanWord word) (s_text currentSegment) data))
    false (savedWords st) (audio st) (cleanup st).

(** The close button of the popover. *)
Definition closePopover (st : State) : State :=
  mkState (currentIndex st) (userInput st) (feedback st) (isPlaying st)
    None (lookupData st) (isLookingUp st) (savedWords st) (audio st)
    (cleanup st).

(** [confirmSaveWord]; the write to the vocabulary store is left out. *)
Definition confirmSaveWord (st : State) : State :=
  match lookupData st with
  | None => st
  | Some d =>
      mkState (currentIndex st) (userInput st) (feedback st) (isPlaying st)
        None (lookupData st) (isLookingUp st) ({[ word d ]} ∪ savedWords st)
        (audio st) (cleanup st)
  end.

End StepPractice.

(** ** components/StepMiniStory.tsx *)

Module StepMiniStory.
Import JS Types World storageService.

Inductive InteractionState :=
| IDLE | PLAYING_QUESTION | WAITING_FOR_USER | PLAYING_ANSWER | REVIEW.

(** The two [onEnd] closures that [playAudio] is given: the one that moves to
    [WAITING_FOR_USER] and starts listening, and the one that moves to
    [REVIEW]. *)
Inductive Callback := toWaitingForUser | toReview.

(** A [handleTimeUpdate] closure of [playAudio]: the end of its window and
    its [onEnd]. *)
Record Watch := mkWatch {
  w_end : number;
  w_onEnd : option Callback
}.

Record State := mkState {
  currentIndex : nat;
  state : InteractionState;
  userTranscript : string;
  isListening : bool;
  recognition : bool;
  permissionError : bool;
  audio : option (Audio.element Watch)
}.

Definition setAudio (a : Audio.element Watch) (st : State) : State :=
  mkState (currentIndex st) (state st) (userTranscript st) (isListening st)
    (recognition st) (permissionError st) (Some a).

Definition setState (v : InteractionState) (st : State) : State :=
  mkState (currentIndex st) v (userTranscript st) (isListening st)
    (recognition st) (permissionError st) (audio st).

Definition startListening (st : State) : State :=
  if recognition st && negb (isListening st) then
    mkState (currentIndex st) (state st) "" true (recognition st)
      (permissionError st) (audio st)
  else st.

Definition stopListening (st : State) : State :=
  if recognition st && isListening st then
    mkState (currentIndex st) (state st) (userTranscript st) false
      (recognition st) (permissionError st) (audio st)
  else st.

Definition playAudio (start end_ : number) (onEnd : option Callback) (st : State)
    : State :=
  match audio st with
  | None => st
  | Some a =>
      let a := Audio.setCurrentTime start a in
      let '(_, a) := Audio.addEventListener (mkWatch end_ onEnd) a in
      setAudio (Audio.play a) st
  end.

Definition runCallback (c : Callback) (st : State) : State :=
  match c with
  | toWaitingForUser => startListening (setState WAITING_FOR_USER st)
  | toReview => setState REVIEW st
  end.

(** [handleTimeUpdate] of the listener [id]. *)
Definition handleTimeUpdate (id : nat) (w : Watch) (st : State) : State :=
  match audio st with
  | None => st
  | Some a =>
      if num_geb (Audio.currentTime a) (w_end w) then
        let st := setAudio (Audio.removeEventListener id (Audio.pause a)) st in
        match w_onEnd w with
        | Some c => runCallback c st
        | None => st
        end
      else st
  end.

(** The element reaches position [t] and fires [timeupdate]: the listeners
    registered at that moment run in the order of their registration. *)
Definition timeupdate (t : number) (st : State) : State :=
  match audio st with
  | None => st
  | Some a =>
      foldl (λ s l, handleTimeUpdate l.1 l.2 s)
        (setAudio (Audio.setCurrentTime t a) st) (Audio.listeners a)
  end.

(** The timer callback of [startSession]. *)
Definition startSession (currentItem : MiniStoryInteraction) (st : State) : State :=
  playAudio (questionStart currentItem) (questionEnd currentItem)
    (Some toWaitingForUser) (setState PLAYING_QUESTION st).

Definition playAnswer (currentItem : MiniStoryInteraction) (st : State) : State :=
  playAudio (answerStart currentItem) (answerEnd currentItem) (Some toReview)
    (setState PLAYING_ANSWER (stopListening st)).

Definition replayQuestion (currentItem : MiniStoryInteraction) (st : State) : State :=
  playAudio (questionStart currentItem) (questionEnd currentItem) None st.

Definition replayAnswer (currentItem : MiniStoryInteraction) (st : State) : State :=
  playAudio (answerStart currentItem) (answerEnd currentItem) None st.

(** The number of stop-watches armed. *)
Definition armed (st : State) : nat :=
  match audio st with
  | Some a => Audio.armed a
  | None => 0
  end.

Definition isPaused (st : State) : bool :=
  match audio st with
  | Some a => Audio.paused a
  | None => true
  end.

End StepMiniStory.

(** ** App.tsx *)

Module App.
Import JS Types World storageService geminiService.

Definition update (f : AppState → AppState) : M unit :=
  s ← getApp; setApp (f s).

Definition setActiveTab (v : AppTab) (s : AppState) : AppState :=
  mkApp v (currentStep s) (app_segments s) (audioFile s) (audioUrl s)
    (currentArticleId s) (resumeIndex s) (isProcessing s) (errorMsg s)
    (showSettings s).
Definition setCurrentStep (v : AppStep) (s : AppState) : AppState :=
  mkApp (activeTab s) v (app_segments s) (audioFile s) (audioUrl s)
    (currentArticleId s) (resumeIndex s) (isProcessing s) (errorMsg s)
    (showSettings s).
Definition setSegments (v : list Segment) (s : AppState) : AppState :=
  mkApp (activeTab s) (currentStep s) v (audioFile s) (audioUrl s)
    (currentArticleId s) (resumeIndex s) (isProcessing s) (errorMsg s)
    (showSettings s).
Definition setAudioFile (v : option File) (s : AppState) : AppState :=
  mkApp (activeTab s) (currentStep s) (app_segments s) v (audioUrl s)
    (currentArticleId s) (resumeIndex s) (isProcessing s) (errorMsg s)
    (showSettings s).
Definition setAudioUrl (v : option string) (s : AppState) : AppState :=
  mkApp (activeTab s) (currentStep s) (app_segments s) (audioFile s) v
    (currentArticleId s) (resumeIndex s) (isProcessing s) (errorMsg s)
    (showSettings s).
Definition setCurrentArticleId (v : option string) (s : AppState) : AppState :=
  mkApp (activeTab s) (currentStep s) (app_segments s) (audioFile s)
    (audioUrl s) v (resumeIndex s) (isProcessing s) (errorMsg s)
    (showSettings s).
Definition setResumeIndex (v : nat) (s : AppState) : AppState :=
  mkApp (activeTab s) (currentStep s) (app_segments s) (audioFile s)
    (audioUrl s) (currentArticleId s) v (isProcessing s) (errorMsg s)
    (showSettings s).
Definition setIsProcessing (v : bool) (s : AppState) : AppState :=
  mkApp (activeTab s) (currentStep s) (app_segments s) (audioFile s)
    (audioUrl s) (currentArticleId s) (resumeIndex s) v (errorMsg s)
    (showSettings s).
Definition setErrorMsg (v : option string) (s : AppState) : AppState :=
  mkApp (activeTab s) (currentStep s) (app_segments s) (audioFile s)
    (audioUrl s) (currentArticleId s) (resumeIndex s) (isProcessing s) v
    (showSettings s).
Definition setShowSettings (v : bool) (s : AppState) : AppState :=
  mkApp (activeTab s) (currentStep s) (app_segments s) (audioFile s)
    (audioUrl s) (currentArticleId s) (resumeIndex s) (isProcessing s)
    (errorMsg s) v.

(** [handleFileSelect]; [url] is the object URL made for the file and
    [oracle] what the transcription call produces. *)
Definition handleFileSelect (file : File) (url : string) (oracle : string + string)
    : M unit :=
  update (setAudioFile (Some file));;
  update (setAudioUrl (Some url));;
  update (setIsProcessing true);;
  update (setErrorMsg None);;
  r ← transcribeAudio oracle;
  match r with
  | Returns result =>
      update (setSegments result);;
      update (setCurrentStep REVIEW)
  | Throws message =>
      let msg := if String.eqb message "" then "An unexpected error occurred."
                 else message in
      update (setErrorMsg (Some msg));;
      (if includes (chars "API Key") (chars msg)
          || includes (chars "429") (chars msg)
          || includes (chars "Quota") (chars msg)
       then update (setShowSettings true) else mret tt);;
      update (setAudioFile None)
  end;;
  update (setIsProcessing false).

(** The file name without its extension: the leftmost dot that is followed,
    up to the end, by one or more characters other than dot and slash. *)
Fixpoint removeExtension (l : list ascii) : list ascii :=
  match l with
  | [] => []
  | c :: l' =>
      if Ascii.eqb c "." && negb (bool_decide (l' = []))
         && forallb (λ d, negb (Ascii.eqb d "." || Ascii.eqb d "/")) l'
      then []
      else c :: removeExtension l'
  end.

(** [handleReviewConfirm]; [uuid] is what [crypto.randomUUID()] returns. *)
Definition handleReviewConfirm (updatedSegments : list Segment) (uuid : string)
    : M unit :=
  s ← getApp;
  update (setSegments updatedSegments);;
  match audioFile s with
  | Some file =>
      created ← Date_now;
      due ← Date_now;
      saveArticle
        (mkArticle uuid (str (removeExtension (chars (f_name file)))) created
           None due 0%nat updatedSegments None 0%nat (Some file));;
      update (setCurrentArticleId (Some uuid));;
      update (setResumeIndex 0%nat)
  | None => mret tt
  end;;
  update (setCurrentStep PRACTICE).

Definition handlePracticeComplete : M unit :=
  s ← getApp;
  match currentArticleId s with
  | Some id => updateArticleProgress id
  | None => mret tt
  end;;
  update (setCurrentStep COMPLETED).

(** The props that [App] gives to [StepPractice]. *)
Definition practiceProps (s : AppState) : StepPractice.Props :=
  StepPractice.mkProps (currentArticleId s) (app_segments s) (resumeIndex s)
    handlePracticeComplete.

End App.


(** ** The line grammar of the transcript

    What the specification calls a well-formed line: a bracketed pair of
    times with an arrow between them, a space, the text, and optionally the
    delimiter space-bar-space and a translation. *)

Module Grammar.
Import JS Types geminiService.

Definition allDigits (l : list ascii) : Prop := Forall (λ c, isDigit c = true) l.

(** A time: one or two digits, a colon, two digits, and optionally a dot and
    one to three digits. *)
Inductive Time : list ascii → Prop :=
| Time_plain (mm ss : list ascii) :
    allDigits mm → (1 ≤ length mm ≤ 2)%nat →
    allDigits ss → length ss = 2%nat →
    Time (mm ++ chars ":" ++ ss)
| Time_millis (mm ss ms : list ascii) :
    allDigits mm → (1 ≤ length mm ≤ 2)%nat →
    allDigits ss → length ss = 2%nat →
    allDigits ms → (1 ≤ length ms ≤ 3)%nat →
    Time (mm ++ chars ":" ++ ss ++ chars "." ++ ms).

Definition delimiter : list ascii := chars " | ".

(** What follows the text: nothing, or the delimiter and the translation. *)
Definition tail (translation : option (list ascii)) : list ascii :=
  match translation with
  | Some t => delimiter ++ t
  | None => []
  end.

(** No delimiter starts inside [text] when [rest] follows it. *)
Fixpoint delimiterFree (text rest : list ascii) : bool :=
  match text with
  | [] => true
  | _ :: text' =>
      negb (startsWith delimiter (text ++ rest)) && delimiterFree text' rest
  end.

(** [line] reads as the times [start] and [end_], the text [text], which is
    not blank and stops at the first delimiter, and the translation
    [translation]. *)
Record Line (line start end_ text : list ascii)
    (translation : option (list ascii)) : Prop := {
  line_shape :
    trim line
    = chars "[" ++ start ++ chars " -> " ++ end_ ++ chars "] " ++ text
      ++ tail translation;
  line_start : Time start;
  line_end : Time end_;
  line_text : trim text ≠ [];
  line_delimiter : delimiterFree text (tail translation) = true;
  line_single :
    Forall (λ c, isLineTerminator c = false) (text ++ tail translation)
}.

Definition WellFormed (line : list ascii) : Prop :=
  ∃ start end_ text translation, Line line start end_ text translation.

(** The three formats of a timestamp: seconds alone, minutes and seconds,
    or hours, minutes and seconds, each a run of digits, the seconds with an
    optional fraction. *)
Definition isDigits (l : list ascii) : bool :=
  negb (bool_decide (l = [])) && forallb isDigit l.

Definition isSeconds (l : list ascii) : bool :=
  match splitChar "." l with
  | [whole] => isDigits whole
  | [whole; millis] => isDigits whole && isDigits millis
  | _ => false
  end.

Definition accepted (l : list ascii) : bool :=
  match splitChar ":" l with
  | [seconds] => isSeconds seconds
  | [minutes; seconds] => isDigits minutes && isSeconds seconds
  | [hours; minutes; seconds] =>
      isDigits hours && isDigits minutes && isSeconds seconds
  | _ => false
  end.

(** A non-empty run of digits. *)
Definition Digits (l : list ascii) : Prop := l ≠ [] ∧ allDigits l.

(** The optional fraction of the seconds, as written and as a number. *)
Definition written (millis : option (list ascii)) : list ascii :=
  match millis with
  | Some ms => chars "." ++ ms
  | None => []
  end.

Definition Millis (millis : option (list ascii)) : Prop :=
  match millis with
  | Some ms => Digits ms
  | None => True
  end.

Definition millisValue (millis : option (list ascii)) : Q :=
  match millis with
  | Some ms => fraction ms
  | None => 0
  end.

(** A continuation of the matcher that fails on what starts with a digit,
    and one that fails on what starts with a dot. *)
Definition rejectsDigit {R} (k : list ascii → list ascii → option R) : Prop :=
  ∀ t c r, isDigit c = true → k t (c :: r) = None.

Definition rejectsDot {R} (k : list ascii → list ascii → option R) : Prop :=
  ∀ t r, k t ("."%char :: r) = None.

Definition noDigitAhead (rest : list ascii) : Prop :=
  match rest with
  | c :: _ => isDigit c = false
  | [] => True
  end.

(** Minutes and seconds as a number of seconds: sixty times the minutes plus
    the seconds, the minutes, the seconds with their fraction, the product
    and the sum each the nearest double. *)
Definition seconds (mm ss : list ascii) (millis : option (list ascii)) : number :=
  num_add (num_mul (double (natural mm)) (Fin 60))
    (double (natural ss + millisValue millis)).

(** A time and the number of seconds it stands for. *)
Inductive Reads : list ascii → number → Prop :=
| Reads_plain (mm ss : list ascii) :
    allDigits mm → (1 ≤ length mm ≤ 2)%nat →
    allDigits ss → length ss = 2%nat →
    Reads (mm ++ chars ":" ++ ss) (seconds mm ss None)
| Reads_millis (mm ss ms : list ascii) :
    allDigits mm → (1 ≤ length mm ≤ 2)%nat →
    allDigits ss → length ss = 2%nat →
    allDigits ms → (1 ≤ length ms ≤ 3)%nat →
    Reads (mm ++ chars ":" ++ ss ++ chars "." ++ ms) (seconds mm ss (Some ms)).

(** Nowhere in [l] does a bracketed pair of times with its arrow, closing
    bracket and space start. *)
Definition PatternFree (l : list ascii) : Prop :=
  ∀ before start end_ rest,
    Time start → Time end_ →
    l ≠ before ++ chars "[" ++ start ++ chars " -> " ++ end_ ++ chars "] "
        ++ rest.

(** The segments of a response whose lines are lines of the grammar or free
    of the pattern: one segment for each line of the grammar, in the order of
    the lines, with the index of its line and the reading of the clock in its
    id, and none for a line free of the pattern.  [index] is the index of the
    first line and [reads] the number of readings of the clock before it. *)
Inductive Parsed (clock : nat → Z)
    : nat → nat → list (list ascii) → list Segment → Prop :=
| Parsed_nil (index reads : nat) : Parsed clock index reads [] []
| Parsed_line (index reads : nat) (line : list ascii) (lines : list (list ascii))
    (segments : list Segment) (start end_ text : list ascii)
    (translation : option (list ascii)) (a b : number) :
    Line line start end_ text translation →
    Reads start a → Reads end_ b →
    Parsed clock (S index) (S reads) lines segments →
    Parsed clock index reads (line :: lines)
      (mkSegment (segmentId index (clock reads)) (str (trim text))
         (Some (str (trim (default [] translation)))) a b :: segments)
| Parsed_skip (index reads : nat) (line : list ascii) (lines : list (list ascii))
    (segments : list Segment) :
    PatternFree (trim line) →
    Parsed clock (S index) reads lines segments →
    Parsed clock index reads (line :: lines) segments.

End Grammar.

(** ** A sample session

    An article of two segments under the id a1, in its third review cycle, and
    a world whose clock starts at a given instant and advances by one
    millisecond at every reading. *)

Module Sample.
Import JS Types World.

Definition segments : list Segment :=
  [ mkSegment "seg-0-1700000000000" "The quick brown fox" (Some "")
      (Fin 0) (Fin (5 # 2));
    mkSegment "seg-1-1700000000001" "jumps over the lazy dog." (Some "")
      (Fin (5 # 2)) (Fin 6) ].

Definition article : Article :=
  mkArticle "a1" "lesson" 1700000000000 None 1700000000000 3 segments None
    1 None.

Definition appState : AppState :=
  mkApp PRACTICE_SESSION UPLOAD segments None (Some "blob:1") (Some "a1") 1
    false None false.

Definition world (start : Z) : World.world :=
  mkWorld {[ "a1" := article ]} appState (λ k, start + Z.of_nat k) 0 [].

(** A response of two lines in the format asked of the oracle. *)
Definition response : string :=
  str (chars "[00:00.000 -> 00:02.500] Hello everyone. | Xin chao."
       ++ [ascii_of_N 10]
       ++ chars "[00:02.500 -> 00:05.100] Welcome to the lesson.").

Definition audio : File := mkFile "lesson.mp3" "audio/mp3" [].

Definition fox : Segment :=
  mkSegment "seg-0-1700000000000" "the quick brown fox" (Some "") (Fin 0)
    (Fin (5 # 2)).

(** The practice session on the last segment of the article, after the
    submission of [input] was found incorrect. *)
Definition practice (input : string) : StepPractice.State :=
  StepPractice.mkState 1 input StepPractice.incorrect false None None false ∅
    None None.

(** The session on the first segment after a correct submission, where the
    words of the target can be tapped. *)
Definition checked : StepPractice.State :=
  StepPractice.mkState 0 "the quick brown fox" StepPractice.correct false
    None None false ∅ None None.

Definition entry : StepPractice.Lookup :=
  StepPractice.mkLookup "nhanh" "kwik" "moving fast" [].

(** A mini-story item whose question plays from 0 to 2 seconds and whose
    answer plays from 2 to 5 seconds, and a session in review of it with
    the audio element at rest. *)
Definition item : MiniStoryInteraction :=
  mkInteraction "q1" "Where is the fox?" "The fox is in the forest."
    (Fin 0) (Fin 2) (Fin 2) (Fin 5).

Definition review : StepMiniStory.State :=
  StepMiniStory.mkState 0 StepMiniStory.REVIEW "" false true false
    (Some (Audio.mkElement (Fin 5) true [] 0)).

End Sample.

(** ** Array.prototype.sort

    The sort of an array is stable, so for a comparator that orders the
    elements consistently its result is the one list that holds the elements
    in ascending order with equal elements in their original order.
    [leb a b] says that the comparator does not put [a] after [b]: its value
    on [a] and [b] is not positive. *)

Module JSArray.

Section Sort.
Context {A : Type} (leb : A → A → bool).

Fixpoint insert (x : A) (l : list A) : list A :=
  match l with
  | [] => [x]
  | y :: l' => if leb x y then x :: l else y :: insert x l'
  end.

Definition sort (l : list A) : list A := foldr insert [] l.

End Sort.

End JSArray.

(** ** The rest of services/storageService.ts and types.ts *)

Module Library.
Import Types World storageService.

Record VocabularyItem := mkVocabularyItem {
  v_id : string;
  v_word : string;
  v_originalSentence : string;
  v_translation : string;
  v_definition : string;
  v_ipa : string;
  v_examples : list string;
  v_topic : option string;
  v_savedAt : Z
}.

(** The [onsuccess] callback of [getAllArticles]: [results] is what the
    object store returns. *)
Definition getAllArticles (results : list Article) : list Article :=
  JSArray.sort (λ a b, nextReview a - nextReview b <=? 0) results.

(** The [onsuccess] callback of [getVocabulary]. *)
Definition getVocabulary (results : list VocabularyItem) : list VocabularyItem :=
  JSArray.sort (λ a b, v_savedAt b - v_savedAt a <=? 0) results.

(** Every article of the store sits under its own id, the key path of the
    store. *)
Definition wellKeyed (m : gmap string Article) : Prop :=
  ∀ id a, m !! id = Some a → a_id a = id.

(** A step of the program that keeps the store keyed by id. *)
Definition keepsKeys {A} (m : M A) : Prop :=
  ∀ w, wellKeyed (store w) → wellKeyed (store (m w).2).

End Library.

(** ** The rest of App.tsx, the dashboard and the oracle client *)

Module Session.
Import JS Types World storageService geminiService.

Definition apiKeyMissing : string :=
  "API Key is missing. Please click the Settings icon and enter your Google Gemini API Key.".

(** [a || b] on strings that may be absent: the first that is present and not
    empty. *)
Definition orString (a b : option string) : option string :=
  match a with
  | Some s => if String.eqb s "" then b else a
  | None => b
  end.

(** [getAiInstance]; [localKey] is the key kept in the local storage and
    [envKey] the one of the environment, each absent or a string.  The client
    it returns is the key it was made with. *)
Definition getAiInstance (localKey envKey : option string) : result string :=
  match orString (orString localKey envKey) (Some "") with
  | Some apiKey =>
      if String.eqb apiKey "" then Throws apiKeyMissing else Returns apiKey
  | None => Throws apiKeyMissing
  end.

(** What the oracle call of [transcribeAudio] produces: the error of
    [getAiInstance], or else what the request gives. *)
Definition oracleCall (localKey envKey : option string)
    (request : string + string) : string + string :=
  match getAiInstance localKey envKey with
  | Throws message => inl message
  | Returns _ => request
  end.

(** [handleSelectArticle]; [url] is the object URL made for the audio. *)
Definition handleSelectArticle (article : Article) (url : string) : M unit :=
  match audioBlob article with
  | Some _ =>
      App.update (App.setAudioUrl (Some url));;
      App.update (App.setCurrentArticleId (Some (a_id article)));;
      App.update (App.setResumeIndex (currentSegmentIndex article));;
      App.update (App.setSegments (segments article));;
      App.update (App.setActiveTab PRACTICE_SESSION)
  | None => mret tt
  end.

Definition handleTabChange (tab : AppTab) : M unit :=
  (match tab with
   | DASHBOARD | VOCABULARY =>
       App.update (App.setAudioFile None);;
       App.update (App.setSegments []);;
       App.update (App.setCurrentArticleId None);;
       App.update (App.setResumeIndex 0%nat);;
       App.update (App.setCurrentStep UPLOAD)
   | _ => mret tt
   end : M unit);;
  App.update (App.setActiveTab tab).

Definition resetPractice : M unit :=
  App.update (App.setActiveTab DASHBOARD);;
  App.update (App.setAudioFile None);;
  App.update (App.setSegments []);;
  App.update (App.setCurrentStep UPLOAD);;
  App.update (App.setResumeIndex 0%nat);;
  App.update (App.setErrorMsg None).

(** *** components/Dashboard.tsx *)

Definition isDue (timestamp : Z) : M bool :=
  now ← Date_now; mret (timestamp <=? now).

(** [articles.filter(a => test(a))] for a test that reads the clock. *)
Fixpoint filterM (test : Article → M bool) (articles : list Article)
    : M (list Article) :=
  match articles with
  | [] => mret []
  | a :: articles' =>
      keep ← test a;
      rest ← filterM test articles';
      mret (if keep : bool then a :: rest else rest)
  end.

Definition dueArticles (articles : list Article) : M (list Article) :=
  filterM (λ a, isDue (nextReview a)) articles.

Definition upcomingArticles (articles : list Article) : M (list Article) :=
  filterM (λ a, due ← isDue (nextReview a); mret (negb due)) articles.

(** The two lists of a render of the dashboard. *)
Definition lists (articles : list Article) : M (list Article * list Article) :=
  due ← dueArticles articles;
  upcoming ← upcomingArticles articles;
  mret (due, upcoming).

(** [Math.min(article.stage * 10, 100)] *)
Definition mastery (article : Article) : nat := (stage article * 10) `min` 100.

End Session.

(** ** More sample data *)

Module Cases.
Import JS Types World.

(** The upload flow after the transcript came back, before the review is
    confirmed. *)
Definition uploaded : World.world :=
  mkWorld ∅
    (mkApp PRACTICE_NEW REVIEW Sample.segments (Some Sample.audio)
       (Some "blob:2") None 0 false None false)
    (λ k, 1700000000000 + Z.of_nat k) 0 [].

(** The sample article with its audio. *)
Definition stored : Article :=
  mkArticle "a1" "lesson" 1700000000000 None 1700000000000 3 Sample.segments
    None 0 (Some Sample.audio).

Definition library : World.world :=
  mkWorld {[ "a1" := stored ]}
    (mkApp PRACTICE_SESSION UPLOAD Sample.segments None (Some "blob:1")
       (Some "a1") 0 false None false)
    (λ k, 1700000500000 + Z.of_nat k) 0 [].

(** A response with a line of introduction before the two lines of the
    transcript and a line break after them. *)
Definition mixed : string :=
  str (chars "Here is the transcript:" ++ [ascii_of_N 10]
       ++ chars "[00:00.000 -> 00:02.500] Hello everyone. | Xin chao."
       ++ [ascii_of_N 10]
       ++ chars "[00:02.500 -> 00:05.100] Welcome to the lesson."
       ++ [ascii_of_N 10]).

(** A target of two words with a space between them, and a session in which
    the same two words were typed with a tab between them. *)
Definition tabbed : string := str [ "a"%char; ascii_of_N 9; "b"%char ].

Definition spaced : Segment :=
  mkSegment "seg-0-1700000000000" "a b" (Some "") (Fin 0) (Fin 1).

Definition typed : StepPractice.State :=
  StepPractice.mkState 0 tabbed StepPractice.neutral false None None false ∅
    None None.

(** A practice session on the first segment of the sample, with the audio
    element at rest and the stop-watch effect not yet run. *)
Definition first : Segment :=
  mkSegment "seg-0-1700000000000" "The quick brown fox" (Some "")
    (Fin 0) (Fin (5 # 2)).

Definition player : Audio.element (option Segment) :=
  Audio.mkElement (Fin 0) true [] 0.

Definition props : StepPractice.Props :=
  StepPractice.mkProps (Some "a1") Sample.segments 0 (mret tt).

Definition ready : StepPractice.State :=
  StepPractice.mkState 0 "" StepPractice.neutral false None None false ∅
    (Some player) None.

End Cases.

(** ** The world with another state of [App] *)

Module Frame.
Import Types World.

Definition withApp (s : AppState) (w : world) : world :=
  mkWorld (store w) s (clock w) (reads w) (log w).

(** The clock never goes back. *)
Definition monotone (clock : nat → Z) : Prop :=
  ∀ i j : nat, (i ≤ j)%nat → clock i ≤ clock j.

End Frame.

(** ** What every segment of a transcript satisfies *)

Module Transcript.
Import JS Types.

(** A finite number of seconds from 0 up to, and not including, 6040: what a
    time of at most two digits of minutes, two digits of seconds and a
    fraction can amount to. *)
Definition inRange (x : number) : Prop :=
  ∃ q : Q, num_eq x (Fin q) ∧ (0 <= q)%Q ∧ (q < 6040)%Q.

Definition isTrimmed (s : string) : Prop := trim (chars s) = chars s.

Definition plausible (seg : Segment) : Prop :=
  s_text seg ≠ ""
  ∧ isTrimmed (s_text seg)
  ∧ (∃ t, s_translation seg = Some t ∧ isTrimmed t)
  ∧ inRange (s_start seg)
  ∧ inRange (s_end seg).

End Transcript.

(** ** components/StepReview.tsx *)

Module StepReview.
Import JS Types.

Inductive TextField := text | translation.
Inductive TimeField := start | end_.

Definition setText (field : TextField) (v : string) (s : Segment) : Segment :=
  match field with
  | text => mkSegment (s_id s) v (s_translation s) (s_start s) (s_end s)
  | translation => mkSegment (s_id s) (s_text s) (Some v) (s_start s) (s_end s)
  end.

Definition setTime (field : TimeField) (v : number) (s : Segment) : Segment :=
  match field with
  | start => mkSegment (s_id s) (s_text s) (s_translation s) v (s_end s)
  | end_ => mkSegment (s_id s) (s_text s) (s_translation s) (s_start s) v
  end.

Definition handleTextChange (id : string) (field : TextField) (newValue : string)
    (localSegments : list Segment) : list Segment :=
  map (λ s, if String.eqb (s_id s) id then setText field newValue s else s)
    localSegments.

Definition isNaN (x : number) : bool :=
  match x with
  | NaN => true
  | _ => false
  end.

Definition handleTimeChange (id : string) (field : TimeField) (newValue : string)
    (localSegments : list Segment) : list Segment :=
  let numValue := parseFloat (chars newValue) in
  if isNaN numValue then localSegments
  else map (λ s, if String.eqb (s_id s) id then setTime field numValue s else s)
         localSegments.

Definition handleDelete (id : string) (localSegments : list Segment)
    : list Segment :=
  filter (λ s, s_id s ≠ id) localSegments.

(** [a - b] *)
Definition num_sub (a b : number) : number :=
  match a, b with
  | NaN, _ | _, NaN => NaN
  | Inf s, Inf s' => if Bool.eqb s s' then NaN else Inf s
  | Inf s, Fin _ => Inf s
  | Fin _, Inf s => Inf (negb s)
  | Fin p, Fin q => Fin (p - q)
  end.

(** What [sort] makes of the value of a comparator: not positive, with [NaN]
    taken as 0. *)
Definition notPositive (x : number) : bool :=
  match x with
  | NaN => true
  | Inf negative => negative
  | Fin q => Qle_bool q 0
  end.

(** [handleConfirm]: what it hands to [onConfirm]. *)
Definition handleConfirm (localSegments : list Segment) : list Segment :=
  JSArray.sort (λ a b, notPositive (num_sub (s_start a) (s_start b)))
    localSegments.

(** Both times of the segment are numbers. *)
Definition timed (s : Segment) : Prop := s_start s ≠ NaN ∧ s_end s ≠ NaN.

(** [a <= b] on numbers. *)
Definition num_le (a b : number) : Prop := num_geb b a = true.

End StepReview.

(** ** components/VocabularyList.tsx *)

Module VocabularyList.
Import JS Types Library.

(** The callback of the filter of [filteredList]. *)
Definition matches (searchTerm : string) (item : VocabularyItem) : bool :=
  let term := toLowerCase (chars searchTerm) in
  includes term (toLowerCase (chars (v_word item)))
  || includes term (toLowerCase (chars (v_originalSentence item)))
  || match v_topic item with
     | Some topic =>
         negb (String.eqb topic "")
         && includes term (toLowerCase (chars topic))
     | None => false
     end.

Definition filteredList (searchTerm : string) (vocabList : list VocabularyItem)
    : list VocabularyItem :=
  List.filter (matches searchTerm) vocabList.

(** The list after [handleDelete] was confirmed. *)
Definition handleDelete (id : string) (vocabList : list VocabularyItem)
    : list VocabularyItem :=
  filter (λ item, v_id item ≠ id) vocabList.

(** The index of the card after [handleNextCard] and [handlePrevCard];
    [length] is the length of [filteredList]. *)
Definition handleNextCard (length prev : Z) : Z := Z.rem (prev + 1) length.

Definition handlePrevCard (length prev : Z) : Z :=
  Z.rem (prev - 1 + length) length.

(** The decoding of the speech in [playAudio]: the characters of the binary
    string are the bytes, two bytes are one signed 16-bit sample, low byte
    first, and a sample is scaled by 32768.  [None] is the [RangeError] of
    [Int16Array] on a buffer of odd length. *)
Definition int16 (lo hi : Z) : Z :=
  let u := lo + 256 * hi in
  if u <? 32768 then u else u - 65536.

Fixpoint dataInt16 (bytes : list Z) : option (list Z) :=
  match bytes with
  | [] => Some []
  | [_] => None
  | lo :: hi :: rest => samples ← dataInt16 rest; Some (int16 lo hi :: samples)
  end.

Definition channelData (binaryString : list ascii) : option (list Q) :=
  samples ← dataInt16 (map (λ c, Z.of_N (code c)) binaryString);
  Some (map (λ v, (inject_Z v / 32768)%Q) samples).

End VocabularyList.

(** ** The text of a response in a code fence *)

Module Responses.
Import JS.

Definition fence : list ascii := chars "```".
Definition jsonFence : list ascii := chars "```json".

(** [replace(/```json\n?|```/g, '')]: [skip] characters of a match are still
    to be dropped. *)
Fixpoint dropFences (skip : nat) (l : list ascii) : list ascii :=
  match l with
  | [] => []
  | c :: l' =>
      match skip with
      | S k => dropFences k l'
      | O =>
          if startsWith jsonFence l then
            match drop 7 l with
            | d :: _ =>
                if Ascii.eqb d (ascii_of_N 10) then dropFences 7 l'
                else dropFences 6 l'
            | [] => dropFences 6 l'
            end
          else if startsWith fence l then dropFences 2 l'
          else c :: dropFences 0 l'
      end
  end.

Definition cleanJsonString (text : string) : string :=
  if String.eqb text "" then ""
  else str (trim (dropFences 0 (chars text))).

End Responses.

(** ** The edits of the review *)

Module Review.
Import JS Types StepReview.

(** What the user can do to the list before confirming. *)
Inductive Edit :=
| TextChange (id : string) (field : TextField) (newValue : string)
| TimeChange (id : string) (field : TimeField) (newValue : string)
| Delete (id : string).

Definition edit (localSegments : list Segment) (e : Edit) : list Segment :=
  match e with
  | TextChange id field newValue =>
      handleTextChange id field newValue localSegments
  | TimeChange id field newValue =>
      handleTimeChange id field newValue localSegments
  | Delete id => handleDelete id localSegments
  end.

(** The review of [segments]: the edits in their order, then the
    confirmation. *)
Definition confirmed (segments : list Segment) (edits : list Edit)
    : list Segment :=
  handleConfirm (foldl edit segments edits).

End Review.

(** ** Proof tools *)

(** Facts about single characters hold by going through the 256 of them. *)
Ltac by_cases c :=
  destruct c as [[] [] [] [] [] [] [] []]; vm_compute; try reflexivity;
  try discriminate; auto; try (intros; repeat split; reflexivity).

(** * Properties *)

(** ** The scheduler *)

Section Scheduler.
Import Types World storageService.

Lemma SRS_INTERVALS_lookup (s : nat) :
  (if (s <? length SRS_INTERVALS)%nat
   then default 0 (SRS_INTERVALS !! s) else 30)
  = default 30 (SRS_INTERVALS !! s).
Proof.
  destruct (s <? length SRS_INTERVALS)%nat eqn:Hs.
  - apply Nat.ltb_lt in Hs.
    destruct (lookup_lt_is_Some_2 SRS_INTERVALS s Hs) as [d ->]. reflexivity.
  - apply Nat.ltb_ge in Hs. rewrite (lookup_ge_None_2 _ _ Hs). reflexivity.
Qed.

(** C1.  A call of [calculateNextReview] on stage [s], whose reading of the
    clock is [now], returns the next stage [s + 1]; the next date is [now]
    plus as many days as the entry [s] of the table
    1, 3, 5, 7, 14, 30, 60, 90, 120, 150, and 30 days when [s] is beyond the
    table; [isFinished] is true exactly from stage 22 on. *)
Theorem calculateNextReview_spec (s : nat) (w : world) :
  let now := clock w (reads w) in
  let r := (calculateNextReview s w).1 in
  nextStage r = (s + 1)%nat
  ∧ nextDate r
    = now + default 30 ([1; 3; 5; 7; 14; 30; 60; 90; 120; 150] !! s)
            * (24 * 60 * 60 * 1000)
  ∧ isFinished r = bool_decide (22 ≤ s)%nat.
Proof.
  intros now r.
  assert (Hr : r = calculateNextReviewAt now s) by reflexivity.
  rewrite Hr. unfold calculateNextReviewAt.
  cbn [nextStage nextDate isFinished].
  split; [reflexivity|]. split.
  - rewrite SRS_INTERVALS_lookup. reflexivity.
  - change (length SRS_INTERVALS + 12)%nat with 22%nat.
    destruct (22 <=? s)%nat eqn:E.
    + apply Nat.leb_le in E. symmetry. by apply bool_decide_eq_true.
    + apply Nat.leb_gt in E. symmetry. apply bool_decide_eq_false. lia.
Qed.

End Scheduler.

(** ** Progress updates *)

Section Progress.
Import Types World storageService.

Lemma updateArticleProgress_unfold (id : string) (w : world) :
  updateArticleProgress id w
  = let w0 := (emit (UpdateArticleProgress id) w).2 in
    match store w !! id with
    | None => (tt, w0)
    | Some a =>
        let t := clock w (reads w) in
        let t1 := clock w (S (reads w)) in
        let t2 := clock w (S (S (reads w))) in
        if oneYear <? t - createdAt a then
          saveArticle (set_nextReview (t2 + oneYear * 10) (set_lastPracticed (Some t1) a))
            (mkWorld (store w) (app w) (clock w) (S (S (S (reads w))))
               (UpdateArticleProgress id :: log w))
        else
          let r := calculateNextReviewAt t1 (stage a) in
          saveArticle
            (set_stage (nextStage r)
               (set_nextReview (nextDate r) (set_lastPracticed (Some t2) a)))
            (mkWorld (store w) (app w) (clock w) (S (S (S (reads w))))
               (CalculateNextReview (stage a) :: UpdateArticleProgress id :: log w))
    end.
Proof.
  unfold updateArticleProgress, mbind, M_bind, bind, getArticleById. cbn.
  destruct (store w !! id) as [a|]; [|reflexivity]. cbn.
  destruct (oneYear <? clock w (reads w) - createdAt a); reflexivity.
Qed.

(** C2.  When the clock read by [updateArticleProgress] is more than one year
    (365 days) past the creation of the article, the update writes back the
    article with [lastPracticed] set to the next reading of the clock and
    [nextReview] to the reading after that plus ten years; the stage and all
    the other fields are as they were, and the scheduler is not called. *)
Theorem updateArticleProgress_dormant (id : string) (a : Article) (w : world) :
  store w !! id = Some a →
  a_id a = id →
  clock w (reads w) - createdAt a > 365 * 24 * 60 * 60 * 1000 →
  let w' := (updateArticleProgress id w).2 in
  let a' :=
    mkArticle (a_id a) (title a) (createdAt a)
      (Some (clock w (reads w + 1)))
      (clock w (reads w + 2) + 10 * (365 * 24 * 60 * 60 * 1000))
      (stage a) (segments a) (miniStoryInteractions a)
      (currentSegmentIndex a) (audioBlob a) in
  store w' = <[id := a']> (store w)
  ∧ log w' = Put a' :: UpdateArticleProgress id :: log w
  ∧ count isSchedulerCall w' = count isSchedulerCall w.
Proof.
  intros Ha Hid Hold w' a'. subst w'.
  rewrite updateArticleProgress_unfold, Ha. cbn zeta.
  assert (Hlt : (oneYear <? clock w (reads w) - createdAt a) = true).
  { apply Z.ltb_lt. unfold oneYear. lia. }
  rewrite Hlt.
  assert (Ea : set_nextReview (clock w (S (S (reads w))) + oneYear * 10)
                 (set_lastPracticed (Some (clock w (S (reads w)))) a) = a').
  { subst a'. unfold set_nextReview, set_lastPracticed. cbn.
    rewrite !Nat.add_1_r, (Nat.add_comm (reads w) 2). reflexivity. }
  rewrite Ea. unfold saveArticle. cbn [snd store log].
  assert (Hid' : a_id a' = id) by (subst a'; exact Hid).
  rewrite Hid'. split; [reflexivity|]. split; [reflexivity|].
  unfold count. cbn. reflexivity.
Qed.

Lemma updateArticleProgress_dormant_witness :
  (store (Sample.world 1800000000000) !! "a1" = Some Sample.article
   ∧ a_id Sample.article = "a1"
   ∧ clock (Sample.world 1800000000000) 0%nat - createdAt Sample.article
     > 365 * 24 * 60 * 60 * 1000)
  ∧ store (updateArticleProgress "a1" (Sample.world 1800000000000)).2 !! "a1"
    = Some (mkArticle "a1" "lesson" 1700000000000 (Some 1800000000001)
              2115360000002 3 Sample.segments None 1 None).
Proof.
  assert (H1 : store (Sample.world 1800000000000) !! "a1" = Some Sample.article)
    by apply lookup_singleton_eq.
  assert (H2 : a_id Sample.article = "a1") by reflexivity.
  assert (H3 : clock (Sample.world 1800000000000) 0%nat
               - createdAt Sample.article > 365 * 24 * 60 * 60 * 1000)
    by reflexivity.
  split; [auto|].
  destruct (updateArticleProgress_dormant "a1" Sample.article
              (Sample.world 1800000000000) H1 H2 H3) as [Hs _].
  rewrite Hs. apply lookup_insert_eq.
Defined.

Lemma saveProgress_unfold (p : StepPractice.Props) (n : nat) (w : world) :
  StepPractice.saveProgress p n w
  = match StepPractice.articleId p with
    | Some id =>
        match store w !! id with
        | Some a =>
            saveArticle
              (set_lastPracticed (Some (clock w (reads w)))
                 (set_currentSegmentIndex n a))
              (mkWorld (store w) (app w) (clock w) (S (reads w)) (log w))
        | None => (tt, w)
        end
    | None => (tt, w)
    end.
Proof.
  unfold StepPractice.saveProgress, mbind, M_bind, bind, getArticleById.
  destruct (StepPractice.articleId p) as [id|]; [|reflexivity].
  destruct (store w !! id); reflexivity.
Qed.

(** The article after a completed cycle. *)
Lemma handleNext_last (id : string) (a : Article)
    (st : StepPractice.State) (w : world) :
  currentArticleId (app w) = Some id →
  store w !! id = Some a →
  a_id a = id →
  let p := App.practiceProps (app w) in
  (length (StepPractice.segments p) ≤ StepPractice.currentIndex st + 1)%nat →
  let t := λ k, clock w (reads w + k)%nat in
  let a1 := set_lastPracticed (Some (t 0%nat)) (set_currentSegmentIndex 0 a) in
  StepPractice.handleNext p st w
  = (st,
     if oneYear <? t 1%nat - createdAt a then
       let a2 := set_nextReview (t 3%nat + oneYear * 10)
                   (set_lastPracticed (Some (t 2%nat)) a1) in
       mkWorld (<[id := a2]> (store w)) (App.setCurrentStep COMPLETED (app w))
         (clock w) (reads w + 4)
         (Put a2 :: UpdateArticleProgress id :: OnComplete :: Put a1 :: log w)
     else
       let r := calculateNextReviewAt (t 2%nat) (stage a) in
       let a2 := set_stage (nextStage r)
                   (set_nextReview (nextDate r)
                      (set_lastPracticed (Some (t 3%nat)) a1)) in
       mkWorld (<[id := a2]> (store w)) (App.setCurrentStep COMPLETED (app w))
         (clock w) (reads w + 4)
         (Put a2 :: CalculateNextReview (stage a) :: UpdateArticleProgress id
            :: OnComplete :: Put a1 :: log w)).
Proof.
  intros Happ Ha Hid p Hnext t a1.
  assert (Hp : StepPractice.articleId p = Some id) by exact Happ.
  unfold StepPractice.handleNext.
  apply Nat.ltb_ge in Hnext. rewrite Hnext.
  unfold mbind, M_bind, bind.
  rewrite saveProgress_unfold, Hp, Ha.
  unfold saveArticle at 1. cbn [emit fst snd].
  change (StepPractice.onComplete p) with App.handlePracticeComplete.
  unfold App.handlePracticeComplete, mbind, M_bind, bind, getApp.
  cbn [app]. rewrite Happ.
  rewrite updateArticleProgress_unfold.
  cbn [store app clock reads log a_id set_lastPracticed set_currentSegmentIndex
       createdAt stage].
  rewrite Hid, lookup_insert_eq.
  subst t a1. cbn beta.
  rewrite Nat.add_0_r, Nat.add_1_r.
  replace (reads w + 2)%nat with (S (S (reads w))) by lia.
  replace (reads w + 3)%nat with (S (S (S (reads w)))) by lia.
  replace (reads w + 4)%nat with (S (S (S (S (reads w))))) by lia.
  cbn [createdAt stage set_lastPracticed set_currentSegmentIndex].
  destruct (oneYear <? clock w (S (reads w)) - createdAt a);
    unfold saveArticle, App.update, mbind, M_bind, bind, getApp, setApp, mret,
      M_ret, ret;
    cbn [store app clock reads log a_id set_lastPracticed set_currentSegmentIndex
         set_nextReview set_stage fst snd];
    rewrite Hid, insert_insert_eq; reflexivity.
Qed.

Lemma handleNext_earlier (p : StepPractice.Props) (id : string) (a : Article)
    (st : StepPractice.State) (w : world) :
  StepPractice.articleId p = Some id →
  store w !! id = Some a →
  a_id a = id →
  (StepPractice.currentIndex st + 1 < length (StepPractice.segments p))%nat →
  let next := (StepPractice.currentIndex st + 1)%nat in
  let a1 := set_lastPracticed (Some (clock w (reads w)))
              (set_currentSegmentIndex next a) in
  StepPractice.handleNext p st w
  = (StepPractice.setCurrentIndex p next st,
     mkWorld (<[id := a1]> (store w)) (app w) (clock w) (S (reads w))
       (Put a1 :: log w)).
Proof.
  intros Hp Ha Hid Hnext next a1.
  unfold StepPractice.handleNext.
  apply Nat.ltb_lt in Hnext. rewrite Hnext.
  unfold mbind, M_bind, bind.
  rewrite saveProgress_unfold, Hp, Ha.
  unfold saveArticle. cbn [a_id set_lastPracticed set_currentSegmentIndex].
  rewrite Hid. reflexivity.
Qed.

Lemma setCurrentIndex_index (p : StepPractice.Props) (n : nat)
    (st : StepPractice.State) :
  StepPractice.currentIndex (StepPractice.setCurrentIndex p n st) = n.
Proof.
  unfold StepPractice.setCurrentIndex, StepPractice.resetEffect,
    StepPractice.stopWatchEffect.
  cbn. destruct (StepPractice.cleanup st), (StepPractice.audio st); reflexivity.
Qed.

(** C3.  In a practice session on the article [a], [handleNext] on the last
    segment writes the article back with its cursor at 0 and runs one
    progress update ([updateArticleProgress] is called once, and so the
    scheduler at most once): the stage goes up by one and the next review is
    the scheduled date, or, for an article created more than a year before,
    the stage stays and the next review is ten years ahead.  On every earlier
    segment [handleNext] writes the article back with the cursor moved to
    the next segment and [lastPracticed] stamped; stage and next review are
    untouched and neither the progress update nor the scheduler is called. *)
Theorem handleNext_cycle (id : string) (a : Article)
    (st : StepPractice.State) (w : world) :
  currentArticleId (app w) = Some id →
  store w !! id = Some a →
  a_id a = id →
  let p := App.practiceProps (app w) in
  let next := (StepPractice.currentIndex st + 1)%nat in
  let st' := (StepPractice.handleNext p st w).1 in
  let w' := (StepPractice.handleNext p st w).2 in
  let t := λ k, clock w (reads w + k) in
  let dormant := bool_decide (t 1%nat - createdAt a > 365 * 24 * 60 * 60 * 1000) in
  ((length (StepPractice.segments p) ≤ next)%nat →
     store w'
     = <[id := mkArticle (a_id a) (title a) (createdAt a)
                 (Some (if dormant then t 2%nat else t 3%nat))
                 (if dormant then t 3%nat + 10 * (365 * 24 * 60 * 60 * 1000)
                  else t 2%nat
                       + default 30 ([1; 3; 5; 7; 14; 30; 60; 90; 120; 150]
                                       !! stage a)
                         * (24 * 60 * 60 * 1000))
                 (if dormant then stage a else S (stage a))
                 (segments a) (miniStoryInteractions a) 0 (audioBlob a)]>
         (store w)
     ∧ count isProgressUpdate w' = S (count isProgressUpdate w)
     ∧ count isSchedulerCall w'
       = (count isSchedulerCall w + (if dormant then 0 else 1))%nat
     ∧ count isPut w' = S (S (count isPut w))
     ∧ st' = st)
  ∧ ((next < length (StepPractice.segments p))%nat →
     store w'
     = <[id := mkArticle (a_id a) (title a) (createdAt a) (Some (t 0%nat))
                 (nextReview a) (stage a) (segments a)
                 (miniStoryInteractions a) next (audioBlob a)]>
         (store w)
     ∧ count isProgressUpdate w' = count isProgressUpdate w
     ∧ count isSchedulerCall w' = count isSchedulerCall w
     ∧ count isPut w' = S (count isPut w)
     ∧ StepPractice.currentIndex st' = next).
Proof.
  intros Happ Ha Hid p next st' w' t dormant.
  assert (Hd : dormant = (oneYear <? t 1%nat - createdAt a)).
  { subst dormant. unfold oneYear.
    destruct (365 * 24 * 60 * 60 * 1000 <? t 1%nat - createdAt a) eqn:E.
    - apply bool_decide_eq_true. apply Z.ltb_lt in E. lia.
    - apply bool_decide_eq_false. apply Z.ltb_ge in E. lia. }
  split; intros Hnext.
  - pose proof (handleNext_last id a st w Happ Ha Hid Hnext) as E.
    cbn zeta in E. fold p t in E. subst st' w'. rewrite E. clear E.
    rewrite <- Hd. cbn [fst snd].
    destruct dormant; cbn [store log]; unfold count; cbn [log filter];
      (split; [|split; [|split; [|split]]]);
      try reflexivity.
    + rewrite Nat.add_0_r. reflexivity.
    + unfold set_stage, set_nextReview, set_lastPracticed,
        set_currentSegmentIndex, calculateNextReviewAt.
      cbn [a_id title createdAt lastPracticed nextReview stage segments
           miniStoryInteractions currentSegmentIndex audioBlob nextStage
           nextDate].
      rewrite SRS_INTERVALS_lookup, Nat.add_1_r. reflexivity.
    + rewrite Nat.add_1_r. reflexivity.
  - assert (Hp : StepPractice.articleId p = Some id) by exact Happ.
    pose proof (handleNext_earlier p id a st w Hp Ha Hid Hnext) as E.
    cbn zeta in E. fold next in E. subst st' w'. rewrite E. clear E.
    cbn [fst snd store log]. unfold count. cbn [log].
    split; [|split; [|split; [|split]]]; try reflexivity.
    + unfold t. rewrite Nat.add_0_r. reflexivity.
    + apply setCurrentIndex_index.
Qed.

Lemma handleNext_cycle_witness :
  (currentArticleId (app (Sample.world 1700000500000)) = Some "a1"
   ∧ store (Sample.world 1700000500000) !! "a1" = Some Sample.article
   ∧ a_id Sample.article = "a1")
  ∧ store (StepPractice.handleNext (App.practiceProps Sample.appState)
             (Sample.practice "") (Sample.world 1700000500000)).2 !! "a1"
    = Some (mkArticle "a1" "lesson" 1700000000000 (Some 1700000500003)
              (1700000500002 + 7 * 86400000) 4 Sample.segments None 0 None).
Proof.
  assert (H1 : currentArticleId (app (Sample.world 1700000500000)) = Some "a1")
    by reflexivity.
  assert (H2 : store (Sample.world 1700000500000) !! "a1" = Some Sample.article)
    by apply lookup_singleton_eq.
  assert (H3 : a_id Sample.article = "a1") by reflexivity.
  split; [auto|].
  destruct (handleNext_cycle "a1" Sample.article (Sample.practice "")
              (Sample.world 1700000500000) H1 H2 H3) as [Hlast _].
  destruct Hlast as [Hs _].
  { cbn. lia. }
  etransitivity; [exact (f_equal (λ m, m !! "a1") Hs)|].
  apply lookup_insert_eq.
Defined.

End Progress.

(** ** Strings *)

Section Strings.
Import JS.

Lemma str_chars (s : string) : str (chars s) = s.
Proof. apply string_of_list_ascii_of_string. Qed.

Lemma chars_str (l : list ascii) : chars (str l) = l.
Proof. apply list_ascii_of_string_of_list_ascii. Qed.

Lemma str_inj (l l' : list ascii) : str l = str l' → l = l'.
Proof. intros H. rewrite <- (chars_str l), <- (chars_str l'). by rewrite H. Qed.

Lemma toLowerCaseChar_lower (c : ascii) : isUpper (toLowerCaseChar c) = false.
Proof. by_cases c. Qed.

Lemma digit_not_space (c : ascii) : isDigit c = true → isWhiteSpace c = false.
Proof. by_cases c. Qed.

Lemma lineTerminator_space (c : ascii) :
  isLineTerminator c = true → isWhiteSpace c = true.
Proof. by_cases c. Qed.

Lemma trimStart_suffix (l : list ascii) : ∃ p, l = p ++ trimStart l.
Proof.
  induction l as [|c l [p IH]]; [by exists []|]. cbn.
  destruct (isWhiteSpace c).
  - exists (c :: p). cbn. by rewrite <- IH.
  - by exists [].
Qed.

Lemma trimEnd_prefix (l : list ascii) : ∃ r, l = trimEnd l ++ r.
Proof.
  unfold trimEnd. destruct (trimStart_suffix (reverse l)) as [p Hp].
  exists (reverse p).
  rewrite <- reverse_app, <- Hp. by rewrite reverse_involutive.
Qed.

Lemma trim_infix (l : list ascii) : ∃ p r, l = p ++ trim l ++ r.
Proof.
  unfold trim. destruct (trimStart_suffix l) as [p Hp].
  destruct (trimEnd_prefix (trimStart l)) as [r Hr].
  exists p, r. by rewrite <- Hr.
Qed.

Lemma trimStart_head (l : list ascii) :
  match trimStart l with
  | c :: _ => isWhiteSpace c = false
  | [] => True
  end.
Proof.
  induction l as [|c l IH]; [done|]. cbn.
  destruct (isWhiteSpace c) eqn:E; [exact IH|exact E].
Qed.

Lemma trimStart_id (l : list ascii) :
  match l with
  | c :: _ => isWhiteSpace c = false
  | [] => True
  end → trimStart l = l.
Proof. destruct l as [|c l]; [done|]. cbn. by intros ->. Qed.

Lemma trimEnd_id (l : list ascii) :
  match reverse l with
  | c :: _ => isWhiteSpace c = false
  | [] => True
  end → trimEnd l = l.
Proof.
  intros H. unfold trimEnd. rewrite (trimStart_id _ H).
  apply reverse_involutive.
Qed.

Lemma trim_trimmed (l : list ascii) : Text.trimmed (trim l) = true.
Proof.
  unfold Text.trimmed, trim. apply andb_true_intro. split.
  - pose proof (trimStart_head l) as Hh.
    destruct (trimEnd_prefix (trimStart l)) as [r Hr].
    destruct (trimEnd (trimStart l)) as [|c t]; [done|].
    rewrite Hr in Hh. cbn in Hh. by rewrite Hh.
  - unfold trimEnd. rewrite reverse_involutive.
    pose proof (trimStart_head (reverse (trimStart l))) as Hh.
    destruct (trimStart (reverse (trimStart l))); [done|]. by rewrite Hh.
Qed.

Lemma trimmed_trim (l : list ascii) : Text.trimmed l = true → trim l = l.
Proof.
  unfold Text.trimmed. intros [H1 H2]%andb_prop. unfold trim.
  rewrite trimStart_id.
  - apply trimEnd_id. destruct (reverse l); [done|]. by apply negb_true_iff.
  - destruct l; [done|]. by apply negb_true_iff.
Qed.

End Strings.

(** ** Text comparison *)

Section Comparison.
Import JS Text Types StepPractice.










Lemma collapseSpaces_word (word rest : list ascii) :
  Forall (λ c, isWhiteSpace c = false) word →
  collapseSpaces (word ++ rest) = word ++ collapseSpaces rest.
Proof.
  unfold collapseSpaces. induction 1 as [|c word Hc Hword IH]; [done|].
  cbn [app collapseFrom]. rewrite Hc. cbn [flush app]. by rewrite IH.
Qed.

Lemma collapseSpaces_single (c : ascii) (rest : list ascii) :
  isWhiteSpace c = true → noSpaceAhead rest →
  collapseSpaces (c :: rest) = c :: collapseSpaces rest.
Proof.
  unfold collapseSpaces. intros Hc Hrest. cbn [collapseFrom]. rewrite Hc.
  destruct rest as [|d rest]; [done|]. cbn in Hrest.
  cbn [collapseFrom]. by rewrite Hrest.
Qed.

Lemma collapseFrom_Many (run rest : list ascii) :
  Forall (λ c, isWhiteSpace c = true) run → noSpaceAhead rest →
  collapseFrom Many (run ++ rest) = " "%char :: collapseFrom NoRun rest.
Proof.
  intros Hrun Hrest. induction Hrun as [|c run Hc Hrun IH].
  - destruct rest as [|d rest]; [done|]. cbn in Hrest.
    cbn [app collapseFrom]. by rewrite Hrest.
  - cbn [app collapseFrom]. by rewrite Hc.
Qed.

Lemma collapseSpaces_run (run rest : list ascii) :
  Forall (λ c, isWhiteSpace c = true) run → (2 ≤ length run)%nat →
  noSpaceAhead rest →
  collapseSpaces (run ++ rest) = " "%char :: collapseSpaces rest.
Proof.
  intros Hrun Hlen Hrest. destruct run as [|c [|d run]]; cbn in Hlen; try lia.
  apply Forall_cons in Hrun as [Hc Hrun].
  apply Forall_cons in Hrun as [Hd Hrun].
  unfold collapseSpaces. cbn [app collapseFrom]. rewrite Hc, Hd.
  by apply collapseFrom_Many.
Qed.

(** C4, where the code departs from it.  [checkAnswer] sets the feedback to
    [correct] exactly when the clean forms of the segment text and of the
    input are equal, and to [incorrect] otherwise.  The clean form of a text
    is the text in lower case, without the punctuation characters, with its
    white space collapsed, and trimmed; and the collapsing replaces a run of
    two or more white-space characters by one space but leaves a white-space
    character that stands alone as it is, a tab a tab.  So the clean form of
    Hello, World! is hello world and that of a and b with spaces around and
    between them is a b, as the claim has it; but a and b with one tab between
    them keep the tab, and the input is found incorrect against the target
    a b, although the hint beside it, which splits at any white space, counts
    both words as matched. *)
Theorem checkAnswer_spec :
  (∀ (currentSegment : Segment) (st : State),
     feedback (checkAnswer currentSegment st)
     = if bool_decide (cleanText (s_text currentSegment)
                       = cleanText (userInput st))
       then correct else incorrect)
  ∧ (∀ (currentSegment : Segment) (st : State),
       feedback (checkAnswer currentSegment st) = correct
       ↔ cleanText (s_text currentSegment) = cleanText (userInput st))
  ∧ (∀ text : string,
       chars (cleanText text)
       = trim (collapseSpaces (stripPunctuation (toLowerCase (chars text)))))
  ∧ (∀ word rest : list ascii,
       Forall (λ c, isWhiteSpace c = false) word →
       collapseSpaces (word ++ rest) = word ++ collapseSpaces rest)
  ∧ (∀ (c : ascii) (rest : list ascii),
       isWhiteSpace c = true → noSpaceAhead rest →
       collapseSpaces (c :: rest) = c :: collapseSpaces rest)
  ∧ (∀ run rest : list ascii,
       Forall (λ c, isWhiteSpace c = true) run → (2 ≤ length run)%nat →
       noSpaceAhead rest →
       collapseSpaces (run ++ rest) = " "%char :: collapseSpaces rest)
  ∧ cleanText "Hello, World!" = cleanText "hello world"
  ∧ cleanText "Hello, World!" = "hello world"
  ∧ cleanText "  a   b " = "a b"
  ∧ cleanText Cases.tabbed = Cases.tabbed
  ∧ cleanText (s_text Cases.spaced) = "a b"
  ∧ feedback (checkAnswer Cases.spaced Cases.typed) = incorrect
  ∧ calculateMatchIndex Cases.spaced Cases.typed
    = length (getTargetWords Cases.spaced).
Proof.
  assert (H1 : ∀ (currentSegment : Segment) (st : State),
     feedback (checkAnswer currentSegment st)
     = if bool_decide (cleanText (s_text currentSegment)
                       = cleanText (userInput st))
       then correct else incorrect).
  { intros seg st. unfold checkAnswer.
    destruct (String.eqb_spec (cleanText (s_text seg)) (cleanText (userInput st)))
      as [E|E].
    - by rewrite bool_decide_eq_true_2.
    - by rewrite bool_decide_eq_false_2. }
  split; [exact H1|]. split.
  { intros seg st. rewrite H1. case_bool_decide; split; done. }
  split.
  { intros text. unfold cleanText. by rewrite chars_str. }
  split; [exact collapseSpaces_word|].
  split; [exact collapseSpaces_single|].
  split; [exact collapseSpaces_run|].
  repeat split; reflexivity.
Qed.

End Comparison.

(** ** The hint after an incorrect submission *)

Section Hint.
Import JS Text Types StepPractice.






End Hint.

(** ** The transcript parser *)

Section Parser.
Import JS Types World geminiService Grammar.

Lemma spanDigits_all (ds rest : list ascii) :
  allDigits ds → noDigitAhead rest → spanDigits (ds ++ rest) = (ds, rest).
Proof.
  intros Hds Hrest. induction Hds as [|d ds Hd Hds IH].
  - destruct rest as [|c rest]; [done|]. cbn in *. by rewrite Hrest.
  - cbn. by rewrite Hd, IH.
Qed.

Lemma orElse_None_r {A} (x : option A) : orElse x None = x.
Proof. by destruct x. Qed.

Lemma literal_app {R} (p l : list ascii) (k : list ascii → option R) :
  literal p (p ++ l) k = k l.
Proof. induction p as [|a p IH]; [done|]. cbn. by rewrite Ascii.eqb_refl. Qed.

Lemma literal_startsWith {R} (p l : list ascii) (k : list ascii → option R) :
  startsWith p l = false → literal p l k = None.
Proof.
  revert l. induction p as [|a p IH]; intros [|b l]; cbn; try done.
  destruct (Ascii.eqb a b); cbn; [apply IH|done].
Qed.

Lemma digit_not_colon (c : ascii) : isDigit c = true → Ascii.eqb ":" c = false.
Proof. by_cases c. Qed.

Lemma digitsExactly_all {R} (n : nat) (ds rest : list ascii)
    (k : list ascii → list ascii → option R) :
  allDigits ds → length ds = n →
  digitsExactly n (ds ++ rest) k = k ds rest.
Proof.
  revert ds k. induction n as [|n IH]; intros [|d ds] k Hds Hn; try done.
  apply Forall_cons in Hds as [Hd Hds]. cbn. rewrite Hd.
  rewrite IH; [done|done|]. cbn in Hn. lia.
Qed.

Lemma digitsAtMost_all {R} (n : nat) (ds rest : list ascii)
    (k : list ascii → list ascii → option R) :
  allDigits ds → (length ds ≤ n)%nat → rejectsDigit k → noDigitAhead rest →
  digitsAtMost n (ds ++ rest) k = k ds rest.
Proof.
  revert ds k. induction n as [|n IH]; intros [|d ds] k Hds Hn Hk Hrest;
    cbn in Hn; try lia; try done.
  - cbn. destruct rest as [|c rest]; [done|]. cbn in Hrest. by rewrite Hrest.
  - apply Forall_cons in Hds as [Hd Hds]. cbn. rewrite Hd.
    rewrite IH; [|done|lia| |done].
    + rewrite (Hk [] d _ Hd). apply orElse_None_r.
    + intros t c r Hc. by apply Hk.
Qed.

Lemma digitsBetween_all {R} (lo more : nat) (ds rest : list ascii)
    (k : list ascii → list ascii → option R) :
  allDigits ds → (lo ≤ length ds ≤ lo + more)%nat →
  rejectsDigit k → noDigitAhead rest →
  digitsBetween lo more (ds ++ rest) k = k ds rest.
Proof.
  intros Hds Hn Hk Hrest. unfold digitsBetween.
  rewrite <- (take_drop lo ds) at 1. rewrite <- app_assoc.
  rewrite digitsExactly_all.
  - rewrite digitsAtMost_all; [by rewrite take_drop| | | |done].
    + by apply Forall_drop.
    + rewrite length_drop. lia.
    + intros t c r Hc. by apply Hk.
  - by apply Forall_take.
  - rewrite length_take. lia.
Qed.

Lemma timePattern_time {R} (s rest : list ascii)
    (k : list ascii → list ascii → option R) :
  Time s → rejectsDigit k → rejectsDot k →
  noDigitAhead rest → startsWith (chars ".") rest = false →
  timePattern (s ++ rest) k = k s rest.
Proof.
  intros Hs Hk Hdot Hrest Hnodot. unfold timePattern.
  destruct Hs as [mm ss Hmm Lmm Hss Lss|mm ss ms Hmm Lmm Hss Lss Hms Lms].
  - rewrite <- !app_assoc.
    rewrite digitsBetween_all; [|done|lia| |done].
    2:{ intros t c r Hc. apply literal_startsWith.
        cbn [chars list_ascii_of_string startsWith].
        by rewrite (digit_not_colon c Hc). }
    rewrite literal_app, digitsExactly_all by done.
    rewrite (literal_startsWith _ _ _ Hnodot). by rewrite app_assoc.
  - rewrite <- !app_assoc.
    rewrite digitsBetween_all; [|done|lia| |done].
    2:{ intros t c r Hc. apply literal_startsWith.
        cbn [chars list_ascii_of_string startsWith].
        by rewrite (digit_not_colon c Hc). }
    rewrite literal_app, digitsExactly_all by done.
    rewrite literal_app.
    rewrite digitsBetween_all; [|done|lia| |done].
    2:{ intros t c r Hc. by apply Hk. }
    change (chars "." ++ ms ++ rest) with ("."%char :: ms ++ rest).
    rewrite Hdot. apply orElse_None_r.
Qed.

Lemma bodyPattern_eq (l : list ascii) :
  bodyPattern l
  = orElse (tr ← translationPattern l; Some ([], tr))
      match l with
      | c :: l' =>
          if isLineTerminator c then None
          else '(text, tr) ← bodyPattern l'; Some (c :: text, tr)
      | [] => None
      end.
Proof. by destruct l. Qed.

Lemma bodyPattern_text (text : list ascii) (translation : option (list ascii)) :
  delimiterFree text (tail translation) = true →
  Forall (λ c, isLineTerminator c = false) (text ++ tail translation) →
  bodyPattern (text ++ tail translation) = Some (text, translation).
Proof.
  induction text as [|c text IH]; intros Hfree Hlt.
  - destruct translation as [t|]; [|reflexivity].
    cbn [tail] in *. rewrite !app_nil_l in *. rewrite bodyPattern_eq.
    unfold translationPattern, delimiter. rewrite literal_app.
    apply Forall_app in Hlt as [_ Hlt].
    assert (Hall : forallb (λ c, negb (isLineTerminator c)) t = true).
    { apply forallb_forall. intros c Hc%list_elem_of_In.
      rewrite Forall_forall in Hlt. by rewrite (Hlt c Hc). }
    rewrite Hall. reflexivity.
  - cbn [delimiterFree] in Hfree. apply andb_prop in Hfree as [Hd Hfree].
    apply negb_true_iff in Hd.
    change ((c :: text) ++ tail translation)
      with (c :: (text ++ tail translation)) in *.
    apply Forall_cons in Hlt as [Hc Hlt].
    rewrite bodyPattern_eq. unfold translationPattern at 1.
    rewrite (literal_startsWith _ _ _ Hd). cbn [orElse mbind option_bind].
    rewrite Hc, (IH Hfree Hlt). reflexivity.
Qed.

Lemma time_nonempty (s : list ascii) : Time s → ∃ c r, s = c :: r ∧ isDigit c = true.
Proof.
  intros [mm ss Hmm Lmm _ _|mm ss ms Hmm Lmm _ _ _ _];
    (destruct mm as [|c mm]; [cbn in Lmm; lia|]);
    apply Forall_cons in Hmm as [Hc _]; eauto.
Qed.

(** The pattern matches a line of the grammar from its first character, and
    its groups are the parts of the line. *)
Lemma lineRegex_line (line start end_ text : list ascii)
    (translation : option (list ascii)) :
  Line line start end_ text translation →
  lineRegex (trim line) = Some (mkMatch start end_ text translation).
Proof.
  intros [Hshape Hs He _ Hfree Hlt]. rewrite Hshape.
  assert (Hat : matchAt (chars "[" ++ start ++ chars " -> " ++ end_
                         ++ chars "] " ++ text ++ tail translation)
                = Some (mkMatch start end_ text translation)).
  { unfold matchAt. rewrite literal_app.
    rewrite timePattern_time; [|done| | |done|done].
    2:{ intros t c r Hc. apply literal_startsWith.
        cbn [chars list_ascii_of_string startsWith].
        destruct c as [[] [] [] [] [] [] [] []]; by vm_compute in Hc |- *. }
    2:{ intros t r. by apply literal_startsWith. }
    rewrite literal_app.
    rewrite timePattern_time; [|done| | |done|done].
    2:{ intros t c r Hc. apply literal_startsWith.
        cbn [chars list_ascii_of_string startsWith].
        destruct c as [[] [] [] [] [] [] [] []]; by vm_compute in Hc |- *. }
    2:{ intros t r. by apply literal_startsWith. }
    rewrite literal_app, bodyPattern_text by done. reflexivity. }
  change (chars "[" ++ start ++ chars " -> " ++ end_ ++ chars "] " ++ text
          ++ tail translation)
    with ("["%char :: (start ++ chars " -> " ++ end_ ++ chars "] " ++ text
                       ++ tail translation)) in *.
  cbn [lineRegex]. by rewrite Hat.
Qed.

Lemma parseLine_line (segments : list Segment) (line : list ascii) (index : nat)
    (start end_ text : list ascii) (translation : option (list ascii))
    (w : world) :
  Line line start end_ text translation →
  parseLine segments line index w
  = (segments ++
       [mkSegment (segmentId index (clock w (reads w))) (str (trim text))
          (Some (str (trim (default [] translation))))
          (parseTimestamp (str start)) (parseTimestamp (str end_))],
     mkWorld (store w) (app w) (clock w) (S (reads w)) (log w)).
Proof.
  intros HL. unfold parseLine. rewrite (lineRegex_line _ _ _ _ _ HL).
  cbn [textGroup translationGroup startStr endStr].
  destruct HL as [_ _ _ Htext _ _].
  destruct (trim text) as [|c t] eqn:E; [done|].
  destruct translation; reflexivity.
Qed.

Lemma parseLine_skip (segments : list Segment) (line : list ascii) (index : nat)
    (w : world) :
  lineRegex (trim line) = None → parseLine segments line index w = (segments, w).
Proof. intros H. unfold parseLine. by rewrite H. Qed.


(** The index of a line can be read back from the id of its segment. *)
Lemma showNat_read (n : nat) :
  Nat.of_uint <$> NilZero.uint_of_string (showNat n) = Some n.
Proof.
  unfold showNat. pose proof (DecimalNat.Unsigned.of_to n) as Hn.
  destruct (Nat.to_uint n) eqn:E;
    try (rewrite NilZero.usu by done; cbn [fmap option_fmap option_map];
         by rewrite Hn).
  cbn in *. by rewrite <- Hn.
Qed.

Lemma string_of_uint_digits (d : Decimal.uint) :
  Forall (λ c, isDigit c = true) (chars (NilEmpty.string_of_uint d)).
Proof. induction d; cbn; by constructor. Qed.

Lemma showNat_digits (n : nat) : allDigits (chars (showNat n)).
Proof.
  unfold showNat, NilZero.string_of_uint.
  destruct (Nat.to_uint n) eqn:E; rewrite <- ?E;
    try apply string_of_uint_digits.
  by repeat constructor.
Qed.

Lemma chars_append (a b : string) : chars (a +:+ b) = chars a ++ chars b.
Proof.
  induction a as [|c a IH]; [done|].
  change (chars (String c a +:+ b)) with (c :: chars (a +:+ b)).
  by rewrite IH.
Qed.

Lemma segmentId_index (i j : nat) (t t' : Z) :
  segmentId i t = segmentId j t' → i = j.
Proof.
  unfold segmentId. intros H. apply (f_equal chars) in H.
  rewrite !chars_append in H. apply app_inv_head in H.
  assert (Hs : ∀ n (r : list ascii),
             spanDigits (chars (showNat n) ++ chars "-" ++ r)
             = (chars (showNat n), chars "-" ++ r)).
  { intros n r. apply spanDigits_all; [apply showNat_digits|done]. }
  pose proof (Hs i (chars (showZ t))) as Hi. rewrite H, Hs in Hi.
  injection Hi as Hi. apply (f_equal str) in Hi. rewrite !str_chars in Hi.
  pose proof (showNat_read i) as Ri. rewrite <- Hi, showNat_read in Ri.
  by injection Ri.
Qed.

Lemma splitChar_nonempty (sep : ascii) (l : list ascii) :
  (0 < length (splitChar sep l))%nat.
Proof.
  induction l as [|c l IH]; cbn; [lia|].
  destruct (Ascii.eqb c sep); cbn; [lia|].
  destruct (splitChar sep l); cbn; lia.
Qed.

Lemma transcribeAudio_unfold (rawText : string) (w : world) :
  transcribeAudio (inr rawText) w
  = let r := forEachLine [] (splitChar (ascii_of_N 10) (chars rawText)) 0 w in
    match r.1 with
    | [] => (Throws (handleApiError emptyTranscript "transcribe audio"), r.2)
    | _ => (Returns r.1, r.2)
    end.
Proof.
  unfold transcribeAudio, mbind, M_bind, bind.
  destruct (forEachLine _ _ _ _) as [[|seg segs] w']; reflexivity.
Qed.

(** A line whose text is blank matches the pattern and is dropped all the
    same, by the test on the trimmed text: such a line is not a line of the
    grammar. *)
Example parseLine_blank_text (w : world) :
  lineRegex (chars "[00:00 -> 00:01]  | xin chao")
  = Some (mkMatch (chars "00:00") (chars "00:01") [] (Some (chars "xin chao")))
  ∧ parseLine [] (chars "[00:00 -> 00:01]  | xin chao") 0 w = ([], w).
Proof. split; reflexivity. Qed.

End Parser.

(** ** The upload flow *)

Section Upload.
Import JS Types World geminiService.



End Upload.

(** ** Rounding to a double *)

Section Doubles.
Import JS.

Lemma double_ext (p q : Q) : (p == q)%Q → double p = double q.
Proof. intros H. unfold double. by rewrite (Qred_complete p q H). Qed.

Lemma double_not_NaN (q : Q) : double q ≠ NaN.
Proof.
  unfold double. destruct (_ =? 0); [done|]. cbv zeta.
  by destruct (Qle_bool _ _).
Qed.

Lemma roundHalfEven_le (num den bound : Z) :
  0 < den → num ≤ bound * den → roundHalfEven num den ≤ bound.
Proof.
  intros Hden Hle. unfold roundHalfEven.
  pose proof (Z.div_mod num den ltac:(lia)) as Hdm.
  pose proof (Z.mod_pos_bound num den Hden) as Hr.
  assert (Hq : num / den ≤ bound).
  { apply Z.div_le_upper_bound; lia. }
  destruct (Z.eq_dec (num / den) bound) as [E|E].
  - assert (num mod den = 0) by nia.
    replace (2 * (num mod den) ?= den) with Lt; [lia|].
    symmetry. apply Z.compare_lt_iff. lia.
  - destruct (_ ?= _); [destruct (Z.even _)| |]; lia.
Qed.

Lemma roundHalfEven_nonneg (num den : Z) :
  0 < den → 0 ≤ num → 0 ≤ roundHalfEven num den.
Proof.
  intros Hden Hnum. unfold roundHalfEven.
  pose proof (Z.div_pos num den Hnum Hden).
  destruct (_ ?= _); [destruct (Z.even _)| |]; lia.
Qed.

(** A positive binade is at or below the quotient. *)
Lemma binade_le (n d : Z) :
  0 < n → 0 < d → 0 < binade n d → d * 2 ^ binade n d ≤ n.
Proof.
  intros Hn Hd. unfold binade.
  set (e := Z.log2 n - Z.log2 d).
  destruct (Z.ltb_spec (n * 2 ^ Z.max 0 (- e)) (d * 2 ^ Z.max 0 e)) as [H|H];
    intros He.
  - pose proof (Z.log2_spec n Hn) as [Hn1 _].
    pose proof (Z.log2_spec d Hd) as [_ Hd2].
    pose proof (Z.log2_nonneg d) as Hb.
    assert (E : 2 ^ Z.log2 n = 2 ^ Z.succ (Z.log2 d) * 2 ^ (e - 1)).
    { rewrite <- Z.pow_add_r by lia. f_equal. lia. }
    assert (0 < 2 ^ (e - 1)) by (apply Z.pow_pos_nonneg; lia).
    nia.
  - rewrite (Z.max_l 0 (- e)), (Z.max_r 0 e) in H by lia.
    rewrite Z.pow_0_r in H. lia.
Qed.

Lemma double_bound (q : Q) (K i : Z) :
  0 ≤ i ≤ 52 → 0 ≤ K < 2 ^ 53 →
  (0 <= q)%Q → (q * inject_Z (2 ^ i) <= inject_Z K)%Q →
  ∃ v, double q = Fin v ∧ (0 <= v)%Q ∧ (v * inject_Z (2 ^ i) <= inject_Z K)%Q.
Proof.
  intros Hi HK H0 Hle. unfold double.
  rewrite <- (Qred_correct q) in H0, Hle.
  destruct (Qred q) as [n d]. cbn [Qnum Qden].
  assert (Hn : 0 ≤ n) by (unfold Qle in H0; cbn in H0; lia).
  assert (Hle' : n * 2 ^ i ≤ K * Z.pos d).
  { unfold Qle in Hle. cbn in Hle. rewrite Pos.mul_1_r in Hle. lia. }
  rewrite Z.abs_eq by done.
  assert (Hpi : 0 < 2 ^ i) by (apply Z.pow_pos_nonneg; lia).
  destruct (Z.eqb_spec n 0) as [->|Hn0].
  { exists 0%Q. split; [done|]. split; [done|].
    rewrite Qmult_0_l. change 0%Q with (inject_Z 0). rewrite <- Zle_Qle. lia. }
  replace (n <? 0) with false by (symmetry; apply Z.ltb_ge; lia).
  cbv zeta.
  set (e := binade n (Z.pos d)).
  assert (He : e ≤ 52 - i).
  { destruct (Z.le_gt_cases e (52 - i)) as [|Hgt]; [done|exfalso].
    pose proof (binade_le n (Z.pos d) ltac:(lia) ltac:(lia) ltac:(fold e; lia))
      as Hb. fold e in Hb.
    assert (E : 2 ^ e * 2 ^ i = 2 ^ 53 * 2 ^ (e + i - 53)).
    { rewrite <- !Z.pow_add_r by lia. f_equal. lia. }
    assert (0 < 2 ^ (e + i - 53)) by (apply Z.pow_pos_nonneg; lia).
    nia. }
  set (u := Z.max (e - 52) (-1074)).
  assert (Hu : u ≤ - i) by lia.
  rewrite (Z.max_l 0 u), (Z.max_r 0 (- u)) by lia.
  rewrite Z.pow_0_r, !Z.mul_1_r.
  set (k := - u).
  set (m := roundHalfEven (n * 2 ^ k) (Z.pos d)).
  assert (Hpk : 0 < 2 ^ k) by (apply Z.pow_pos_nonneg; lia).
  assert (Hkk : 2 ^ k = 2 ^ i * 2 ^ (k - i)).
  { rewrite <- Z.pow_add_r by lia. f_equal. lia. }
  assert (Hpki : 0 < 2 ^ (k - i)) by (apply Z.pow_pos_nonneg; lia).
  assert (Hm0 : 0 ≤ m) by (apply roundHalfEven_nonneg; lia).
  assert (Hm : m ≤ K * 2 ^ (k - i)) by (apply roundHalfEven_le; nia).
  assert (Hv0 : (0 <= inject_Z m / inject_Z (2 ^ k))%Q).
  { apply Qle_shift_div_l; [change 0%Q with (inject_Z 0); by rewrite <- Zlt_Qlt|].
    rewrite Qmult_0_l. change 0%Q with (inject_Z 0). by rewrite <- Zle_Qle. }
  assert (Hv : (inject_Z m / inject_Z (2 ^ k) * inject_Z (2 ^ i) <= inject_Z K)%Q).
  { assert (Hk0 : ¬ (inject_Z (2 ^ k) == 0)%Q).
    { change 0%Q with (inject_Z 0). rewrite inject_Z_injective. lia. }
    assert (Heq : (inject_Z m / inject_Z (2 ^ k) * inject_Z (2 ^ i)
                   == inject_Z (m * 2 ^ i) / inject_Z (2 ^ k))%Q)
      by (rewrite inject_Z_mult; field; exact Hk0).
    rewrite Heq.
    apply Qle_shift_div_r;
      [change 0%Q with (inject_Z 0); by rewrite <- Zlt_Qlt|].
    rewrite <- inject_Z_mult, <- Zle_Qle. nia. }
  assert (Hno : Qle_bool (inject_Z (2 ^ 1024)) (inject_Z m / inject_Z (2 ^ k))
                = false).
  { destruct (Qle_bool _ _) eqn:E; [exfalso|done].
    apply Qle_bool_iff in E.
    assert (Hone : (inject_Z 1 <= inject_Z (2 ^ i))%Q) by (rewrite <- Zle_Qle; lia).
    assert (HK' : (inject_Z K < inject_Z (2 ^ 53))%Q) by (rewrite <- Zlt_Qlt; lia).
    assert (Hbig : (inject_Z (2 ^ 53) <= inject_Z (2 ^ 1024))%Q)
      by (rewrite <- Zle_Qle; by vm_compute).
    change (inject_Z 1) with 1%Q in Hone.
    set (x := (inject_Z m / inject_Z (2 ^ k))%Q) in *.
    set (P := inject_Z (2 ^ i)) in *.
    assert (x <= x * P)%Q by nra.
    lra. }
  rewrite Hno. eexists. split; [reflexivity|].
  by rewrite Qred_correct.
Qed.

Lemma num_eq_refl (x : number) : num_eq x x.
Proof. destruct x; cbn; [done|done|reflexivity]. Qed.

Lemma orZero_eq (x : number) : x ≠ NaN → num_eq (orZero x) x.
Proof.
  destruct x as [| |q]; cbn; [done|done|]. intros _.
  destruct (Qeq_bool q 0) eqn:E; cbn; [|reflexivity].
  apply Qeq_bool_eq in E. by rewrite E.
Qed.

(** The model rounds as the doubles do: 60 + 1.029 is not 61.029 but the
    double below it, a literal too large is an infinity, one too small is
    zero, and an integer beyond 53 bits goes to its even neighbour. *)
Example double_rounds :
  num_add (Fin 60) (parseFloat (chars "1.029"))
  = Fin (134204190263083 # 2199023255552)
  ∧ ¬ num_eq (num_add (Fin 60) (parseFloat (chars "1.029"))) (Fin 61.029)
  ∧ parseFloat (chars "1e400") = Inf false
  ∧ parseFloat (chars "1e-400") = Fin 0
  ∧ parseInt (chars "9007199254740993") = Fin 9007199254740992.
Proof. repeat split; try (by vm_compute). Qed.

End Doubles.

(** ** Timestamps *)

Section Timestamps.
Import JS Grammar geminiService.

Lemma digit_plain (c : ascii) :
  isDigit c = true →
  isWhiteSpace c = false ∧ Ascii.eqb c "-" = false ∧ Ascii.eqb c "+" = false
  ∧ Ascii.eqb "I" c = false ∧ Ascii.eqb c ":" = false ∧ Ascii.eqb c "." = false.
Proof. by_cases c. Qed.

Lemma digits_head (ds : list ascii) :
  Digits ds → ∃ d ds', ds = d :: ds' ∧ isDigit d = true.
Proof.
  intros [Hne Hall]. destruct ds as [|d ds']; [done|].
  apply Forall_cons in Hall as [Hd _]. eauto.
Qed.

(** What starts with a digit is read from its first character on. *)
Lemma parseSign_digits (d : ascii) (l : list ascii) :
  isDigit d = true → parseSign (trimStart (d :: l)) = (false, d :: l).
Proof.
  intros (Hws & Hm & Hp & _)%digit_plain. cbn. rewrite Hws. cbn.
  by rewrite Hm, Hp.
Qed.

Lemma parseInt_digits (ds : list ascii) :
  Digits ds → parseInt ds = double (natural ds).
Proof.
  intros Hds. destruct (digits_head ds Hds) as (d & ds' & -> & Hd).
  unfold parseInt. rewrite (parseSign_digits d ds' Hd).
  rewrite <- (app_nil_r (d :: ds')) at 1.
  rewrite spanDigits_all; [done|apply Hds|done].
Qed.

Lemma parseFloat_seconds (ss : list ascii) (millis : option (list ascii)) :
  Digits ss → Millis millis →
  parseFloat (ss ++ written millis) = double (natural ss + millisValue millis).
Proof.
  intros Hss Hms. destruct (digits_head ss Hss) as (d & ss' & -> & Hd).
  unfold parseFloat.
  change ((d :: ss') ++ written millis) with (d :: (ss' ++ written millis)).
  rewrite (parseSign_digits d _ Hd).
  assert (HI : startsWith (chars "Infinity") (d :: ss' ++ written millis) = false).
  { cbn [chars list_ascii_of_string startsWith].
    apply digit_plain in Hd as (_ & _ & _ & HI & _). by rewrite HI. }
  rewrite HI.
  change (d :: ss' ++ written millis) with ((d :: ss') ++ written millis).
  destruct millis as [ms|]; cbn [written millisValue].
  - rewrite spanDigits_all; [|apply Hss|done].
    change (chars "." ++ ms) with ("."%char :: ms). cbv beta iota.
    rewrite Ascii.eqb_refl.
    rewrite <- (app_nil_r ms) at 1.
    rewrite spanDigits_all; [|apply Hms|done].
    destruct (digits_head ms Hms) as (m & ms' & -> & _).
    cbn [parseExponent signed]. apply double_ext. unfold scale.
    cbn [Qpower]. ring.
  - rewrite app_nil_r. rewrite <- (app_nil_r (d :: ss')) at 1.
    rewrite spanDigits_all; [|apply Hss|done].
    cbn [signed]. apply double_ext. ring.
Qed.

Lemma splitChar_none (sep : ascii) (l : list ascii) :
  Forall (λ c, Ascii.eqb c sep = false) l → splitChar sep l = [l].
Proof.
  induction 1 as [|c l Hc Hl IH]; [done|]. cbn. by rewrite Hc, IH.
Qed.

Lemma splitChar_app (sep : ascii) (a b : list ascii) :
  Forall (λ c, Ascii.eqb c sep = false) a →
  splitChar sep (a ++ sep :: b) = a :: splitChar sep b.
Proof.
  induction 1 as [|c l Hc Hl IH]; cbn.
  - by rewrite Ascii.eqb_refl.
  - by rewrite Hc, IH.
Qed.

Lemma digits_no_colon (ds : list ascii) :
  allDigits ds → Forall (λ c, Ascii.eqb c ":" = false) ds.
Proof.
  intros H. eapply Forall_impl; [exact H|].
  intros c Hc. by apply digit_plain in Hc as (_&_&_&_&Hc&_).
Qed.

Lemma seconds_no_colon (ss : list ascii) (millis : option (list ascii)) :
  Digits ss → Millis millis →
  Forall (λ c, Ascii.eqb c ":" = false) (ss ++ written millis).
Proof.
  intros [_ Hss] Hms. apply Forall_app. split; [by apply digits_no_colon|].
  destruct millis as [ms|]; [|constructor].
  constructor; [done|]. apply digits_no_colon, Hms.
Qed.

Lemma seconds_trimmed (ss : list ascii) (millis : option (list ascii)) (p : list ascii) :
  Forall (λ c, isWhiteSpace c = false) p →
  Digits ss → Millis millis →
  match reverse (p ++ ss ++ written millis) with
  | c :: _ => isWhiteSpace c = false
  | [] => True
  end.
Proof.
  intros Hp [Hne Hss] Hms.
  assert (Hall : Forall (λ c, isWhiteSpace c = false) (p ++ ss ++ written millis)).
  { apply Forall_app. split; [done|]. apply Forall_app. split.
    - eapply Forall_impl; [exact Hss|].
      intros c Hc. by apply digit_plain in Hc as [Hc _].
    - destruct millis as [ms|]; [|constructor]. constructor; [done|].
      destruct Hms as [_ Hms]. eapply Forall_impl; [exact Hms|].
      intros c Hc. by apply digit_plain in Hc as [Hc _]. }
  apply Forall_reverse in Hall.
  destruct (reverse (p ++ ss ++ written millis)); [done|].
  by apply Forall_cons in Hall as [H _].
Qed.

(** A text of digits, colons and dots is not changed by [trim]. *)
Lemma trim_timestamp (p ss : list ascii) (millis : option (list ascii)) :
  Forall (λ c, isWhiteSpace c = false) p →
  Digits ss → Millis millis →
  trim (p ++ ss ++ written millis) = p ++ ss ++ written millis.
Proof.
  intros Hp Hss Hms. unfold trim. rewrite trimStart_id.
  - apply trimEnd_id. by apply seconds_trimmed.
  - destruct p as [|c p]; cbn.
    + destruct (digits_head ss Hss) as (d & ss' & -> & Hd).
      cbn. by apply digit_plain in Hd as [Hd _].
    + by apply Forall_cons in Hp as [Hc _].
Qed.

Lemma digits_no_space (ds : list ascii) :
  allDigits ds → Forall (λ c, isWhiteSpace c = false) ds.
Proof.
  intros H. eapply Forall_impl; [exact H|].
  intros c Hc. by apply digit_plain in Hc as [Hc _].
Qed.

Lemma parseTimestamp_nonempty (l : list ascii) :
  l ≠ [] →
  parseTimestamp (str l)
  = match splitChar ":" (trim l) with
    | [minutes; seconds] =>
        num_add (num_mul (parseInt minutes) (Fin 60)) (parseFloat seconds)
    | [hours; minutes; seconds] =>
        num_add
          (num_add (num_mul (parseInt hours) (Fin 3600))
                   (num_mul (parseInt minutes) (Fin 60)))
          (parseFloat seconds)
    | _ => orZero (parseFloat l)
    end.
Proof.
  intros Hl. unfold parseTimestamp. rewrite chars_str. by destruct l.
Qed.

Lemma digits_app_nonempty (ds rest : list ascii) : Digits ds → ds ++ rest ≠ [].
Proof. intros [Hne _]. by destruct ds. Qed.

Lemma parseTimestamp_seconds (ss : list ascii) (millis : option (list ascii)) :
  Digits ss → Millis millis →
  num_eq (parseTimestamp (str (ss ++ written millis)))
    (double (natural ss + millisValue millis)).
Proof.
  intros Hss Hms.
  rewrite parseTimestamp_nonempty by by apply digits_app_nonempty.
  pose proof (trim_timestamp [] ss millis (Forall_nil_2 _) Hss Hms) as Ht.
  cbn [app] in Ht. rewrite Ht.
  rewrite splitChar_none by by apply seconds_no_colon.
  rewrite (parseFloat_seconds ss millis Hss Hms).
  apply orZero_eq, double_not_NaN.
Qed.

Lemma parseTimestamp_minutes (mm ss : list ascii) (millis : option (list ascii)) :
  Digits mm → Digits ss → Millis millis →
  parseTimestamp (str (mm ++ chars ":" ++ ss ++ written millis))
  = seconds mm ss millis.
Proof.
  intros Hmm Hss Hms.
  rewrite parseTimestamp_nonempty by by apply digits_app_nonempty.
  pose proof (trim_timestamp (mm ++ chars ":") ss millis) as Ht.
  rewrite <- !app_assoc in Ht. rewrite Ht; [|apply Forall_app; split|done|done].
  2:{ apply digits_no_space, Hmm. }
  2:{ by repeat constructor. }
  change (chars ":" ++ ss ++ written millis)
    with (":"%char :: (ss ++ written millis)).
  rewrite splitChar_app by apply digits_no_colon, Hmm.
  rewrite splitChar_none by by apply seconds_no_colon.
  by rewrite (parseInt_digits _ Hmm), (parseFloat_seconds _ _ Hss Hms).
Qed.

Lemma parseTimestamp_hours (hh mm ss : list ascii) (millis : option (list ascii)) :
  Digits hh → Digits mm → Digits ss → Millis millis →
  parseTimestamp
    (str (hh ++ chars ":" ++ mm ++ chars ":" ++ ss ++ written millis))
  = num_add
      (num_add (num_mul (double (natural hh)) (Fin 3600))
         (num_mul (double (natural mm)) (Fin 60)))
      (double (natural ss + millisValue millis)).
Proof.
  intros Hhh Hmm Hss Hms.
  rewrite parseTimestamp_nonempty by by apply digits_app_nonempty.
  pose proof (trim_timestamp (hh ++ chars ":" ++ mm ++ chars ":") ss millis) as Ht.
  rewrite <- !app_assoc in Ht. rewrite Ht; [| |done|done].
  2:{ apply Forall_app; split; [apply digits_no_space, Hhh|].
      constructor; [done|].
      apply Forall_app; split; [apply digits_no_space, Hmm|].
      by repeat constructor. }
  change (chars ":" ++ mm ++ chars ":" ++ ss ++ written millis)
    with (":"%char :: (mm ++ ":"%char :: (ss ++ written millis))).
  rewrite splitChar_app by apply digits_no_colon, Hhh.
  rewrite splitChar_app by apply digits_no_colon, Hmm.
  rewrite splitChar_none by by apply seconds_no_colon.
  by rewrite (parseInt_digits _ Hhh), (parseInt_digits _ Hmm),
    (parseFloat_seconds _ _ Hss Hms).
Qed.

Lemma includes_suffix (needle p l : list ascii) :
  includes needle (p ++ l) = false → includes needle l = false.
Proof.
  induction p as [|c p IH]; [done|]. cbn [app includes].
  intros [_ H]%orb_false_elim. by apply IH.
Qed.

Lemma includes_startsWith (needle l : list ascii) :
  includes needle l = false → startsWith needle l = false.
Proof. destruct l; cbn [includes]; by intros [H _]%orb_false_elim. Qed.

Lemma spanDigits_none (r : list ascii) : noDigitAhead r → spanDigits r = ([], r).
Proof. destruct r as [|c r]; [done|]. cbn. by intros ->. Qed.

Lemma parseSign_suffix (l : list ascii) : ∃ p, l = p ++ (parseSign l).2.
Proof.
  destruct l as [|c l]; [by exists []|]. cbn.
  destruct (Ascii.eqb c "-"); [by exists [c]|].
  destruct (Ascii.eqb c "+"); [by exists [c]|by exists []].
Qed.

Lemma noDigits_ahead (l : list ascii) :
  Forall (λ c, isDigit c = false) l → noDigitAhead l.
Proof. destruct l; [done|]. by intros [H _]%Forall_cons. Qed.

(** Where there is neither a digit nor the word Infinity, [parseFloat] reads
    no number. *)
Lemma parseFloat_nothing (l : list ascii) :
  Forall (λ c, isDigit c = false) l →
  includes (chars "Infinity") l = false →
  parseFloat l = NaN.
Proof.
  intros Hd HI. unfold parseFloat.
  destruct (trimStart_suffix l) as [p0 E0].
  destruct (parseSign_suffix (trimStart l)) as [p1 E1].
  destruct (parseSign (trimStart l)) as [negative r]. cbn [snd] in E1.
  assert (E : l = (p0 ++ p1) ++ r) by (rewrite <- app_assoc, <- E1; exact E0).
  rewrite E in Hd, HI. apply Forall_app in Hd as [_ Hd].
  apply includes_suffix in HI.
  rewrite (includes_startsWith _ _ HI).
  rewrite (spanDigits_none r (noDigits_ahead r Hd)).
  destruct r as [|c r2]; [done|].
  destruct (Ascii.eqb c "."); [|done].
  apply Forall_cons in Hd as [_ Hd].
  by rewrite (spanDigits_none r2 (noDigits_ahead r2 Hd)).
Qed.

Lemma parseTimestamp_bare (s : string) :
  Forall (λ c, Ascii.eqb c ":" = false) (chars s) →
  parseTimestamp s = orZero (parseFloat (chars s)).
Proof.
  intros Hc. destruct (chars s) as [|c l] eqn:E.
  - unfold parseTimestamp. by rewrite E.
  - rewrite <- (str_chars s), E.
    rewrite parseTimestamp_nonempty by done.
    destruct (trim_infix (c :: l)) as (p & r & Ht).
    rewrite Ht in Hc. apply Forall_app in Hc as [_ [Hc _]%Forall_app].
    by rewrite (splitChar_none _ _ Hc).
Qed.

(** The times of a transcript line are read as minutes and seconds. *)
Lemma parseTimestamp_time (s : list ascii) :
  Time s → Reads s (parseTimestamp (str s)).
Proof.
  assert (Hd : ∀ l n, allDigits l → (1 ≤ length l ≤ n)%nat → Digits l).
  { intros l n Hl Hn. split; [|done]. destruct l; [cbn in Hn; lia|done]. }
  intros [mm ss Hmm Lmm Hss Lss|mm ss ms Hmm Lmm Hss Lss Hms Lms].
  - pose proof (parseTimestamp_minutes mm ss None) as H.
    cbn [written] in H. rewrite app_nil_r in H.
    rewrite H; [by constructor|by eapply Hd| |done].
    eapply (Hd ss 2%nat); [done|lia].
  - pose proof (parseTimestamp_minutes mm ss (Some ms)) as H.
    cbn [written] in H.
    rewrite H; [by constructor|by eapply Hd| |by eapply Hd].
    eapply (Hd ss 2%nat); [done|lia].
Qed.

(** The three formats as the recogniser has them. *)
Example accepted_formats :
  accepted (chars "01:05.500") = true
  ∧ accepted (chars "1:02:03.250") = true
  ∧ accepted (chars "65.5") = true
  ∧ accepted (chars "garbage") = false.
Proof. by repeat split. Qed.

(** C8, as the code has it.  [parseTimestamp] maps minutes and seconds to
    sixty times the minutes plus the seconds, hours, minutes and seconds to
    3600 times the hours plus sixty times the minutes plus the seconds, and
    seconds alone to their value, the seconds with or without a fraction;
    the numbers are doubles, so each part that is read, each product and each
    sum is the double nearest to the exact value.  On a text without a colon
    it returns the number that [parseFloat] reads at its start, and 0 when
    there is none: so it returns 0 on every text that has neither a colon,
    nor a digit, nor the word Infinity.  It is defined on every text.  The
    timestamp 01:05.500 is 65.5 seconds, 1:02:03.250 is 3723.25 seconds, and
    garbage gives 0; 01:01.029 is the double below 61.029. *)
Theorem parseTimestamp_spec :
  (∀ mm ss millis, Digits mm → Digits ss → Millis millis →
     parseTimestamp (str (mm ++ chars ":" ++ ss ++ written millis))
     = num_add (num_mul (double (natural mm)) (Fin 60))
         (double (natural ss + millisValue millis)))
  ∧ (∀ hh mm ss millis, Digits hh → Digits mm → Digits ss → Millis millis →
       parseTimestamp
         (str (hh ++ chars ":" ++ mm ++ chars ":" ++ ss ++ written millis))
       = num_add
           (num_add (num_mul (double (natural hh)) (Fin 3600))
              (num_mul (double (natural mm)) (Fin 60)))
           (double (natural ss + millisValue millis)))
  ∧ (∀ ss millis, Digits ss → Millis millis →
       num_eq (parseTimestamp (str (ss ++ written millis)))
         (double (natural ss + millisValue millis)))
  ∧ (∀ s : string,
       Forall (λ c, Ascii.eqb c ":" = false) (chars s) →
       parseTimestamp s = orZero (parseFloat (chars s)))
  ∧ (∀ s : string,
       Forall (λ c, Ascii.eqb c ":" = false ∧ isDigit c = false) (chars s) →
       includes (chars "Infinity") (chars s) = false →
       parseTimestamp s = Fin 0)
  ∧ num_eq (parseTimestamp "01:05.500") (Fin 65.5)
  ∧ num_eq (parseTimestamp "1:02:03.250") (Fin 3723.25)
  ∧ parseTimestamp "garbage" = Fin 0
  ∧ parseTimestamp "01:01.029" = Fin (134204190263083 # 2199023255552)
  ∧ ¬ num_eq (parseTimestamp "01:01.029") (Fin 61.029).
Proof.
  split; [exact parseTimestamp_minutes|].
  split; [exact parseTimestamp_hours|].
  split; [exact parseTimestamp_seconds|].
  split; [exact parseTimestamp_bare|].
  split.
  { intros s Hs HI. rewrite parseTimestamp_bare.
    - rewrite parseFloat_nothing; [done| |done].
      eapply Forall_impl; [exact Hs|]. by intros c [_ H].
    - eapply Forall_impl; [exact Hs|]. by intros c [H _]. }
  split; [by vm_compute|]. split; [by vm_compute|].
  split; [by vm_compute|]. split; by vm_compute.
Qed.

Lemma parseTimestamp_spec_witness :
  (Digits (chars "01") ∧ Digits (chars "05") ∧ Millis (Some (chars "500")))
  ∧ parseTimestamp "01:05.500"
    = num_add (num_mul (double (natural (chars "01"))) (Fin 60))
        (double (natural (chars "05") + millisValue (Some (chars "500")))).
Proof.
  assert (H1 : Digits (chars "01")) by (split; [done|by repeat constructor]).
  assert (H2 : Digits (chars "05")) by (split; [done|by repeat constructor]).
  assert (H3 : Millis (Some (chars "500")))
    by (split; [done|by repeat constructor]).
  split; [auto|].
  destruct parseTimestamp_spec as [H _].
  exact (H (chars "01") (chars "05") (Some (chars "500")) H1 H2 H3).
Defined.

(** The claim as the specification states it fails: a text that is in none
    of the three formats can give a value other than 0.  The text 12abc
    gives 12, the number at its start. *)
Lemma parseTimestamp_not_zero :
  accepted (chars "12abc") = false
  ∧ parseTimestamp "12abc" = Fin 12
  ∧ ¬ num_eq (parseTimestamp "12abc") (Fin 0).
Proof. repeat split; try reflexivity; by vm_compute. Qed.

(** With a colon and no digits the two branches that multiply and add have
    nothing to fall back on. *)
Example parseTimestamp_colon : parseTimestamp "ab:cd" = NaN.
Proof. reflexivity. Qed.

End Timestamps.

(** ** Word lookup *)

Section Lookup.
Import JS Types World StepPractice.

Lemma handleWordClick_lookup (currentSegment : Segment) (word : string)
    (st : State) (w : world) :
  cleanWord word ≠ "" →
  handleWordClick currentSegment word st w
  = (mkState (currentIndex st) (userInput st) (feedback st) (isPlaying st)
       (Some (cleanWord word)) None true (savedWords st) (audio st) (cleanup st),
     mkWorld (store w) (app w) (clock w) (reads w)
       (LookupWord (cleanWord word) (s_text currentSegment) :: log w)).
Proof.
  intros Hne. unfold handleWordClick.
  apply String.eqb_neq in Hne. by rewrite Hne.
Qed.

(** C9, as the code has it.  Every tap on a word whose clean form is not
    empty issues a lookup for that form, whatever the state of the view:
    also when a lookup of the same word is in flight or has completed.  A
    word whose clean form is empty issues none.  What the view remembers per
    word is the set of saved words, which [confirmSaveWord] extends; the
    effect of a change of the index empties it and clears the selected word
    and the lookup data. *)
Theorem handleWordClick_spec :
  (∀ (currentSegment : Segment) (word : string) (st : State) (w : world),
     cleanWord word ≠ "" →
     log (handleWordClick currentSegment word st w).2
     = LookupWord (cleanWord word) (s_text currentSegment) :: log w
     ∧ count (isLookup (cleanWord word)) (handleWordClick currentSegment word st w).2
       = S (count (isLookup (cleanWord word)) w)
     ∧ selectedWord (handleWordClick currentSegment word st w).1
       = Some (cleanWord word)
     ∧ isLookingUp (handleWordClick currentSegment word st w).1 = true
     ∧ lookupData (handleWordClick currentSegment word st w).1 = None)
  ∧ (∀ (currentSegment : Segment) (word : string) (st : State) (w : world),
       cleanWord word = "" →
       handleWordClick currentSegment word st w = (st, w))
  ∧ (∀ st d, lookupData st = Some d →
       savedWords (confirmSaveWord st) = {[ StepPractice.word d ]} ∪ savedWords st)
  ∧ (∀ (p : Props) (nextIndex : nat) (st : State),
       savedWords (setCurrentIndex p nextIndex st) = ∅
       ∧ selectedWord (setCurrentIndex p nextIndex st) = None
       ∧ lookupData (setCurrentIndex p nextIndex st) = None).
Proof.
  split; [|split; [|split]].
  - intros seg word st w Hne. rewrite handleWordClick_lookup by done.
    cbn [fst snd log selectedWord isLookingUp lookupData].
    split; [done|split; [|done]].
    unfold count. cbn [log]. rewrite filter_cons_True; [done|].
    cbn. by apply bool_decide_eq_true_2.
  - intros seg word st w He. unfold handleWordClick.
    apply String.eqb_eq in He. by rewrite He.
  - intros st d Hd. unfold confirmSaveWord. by rewrite Hd.
  - intros p n st. unfold setCurrentIndex, resetEffect. by repeat split.
Qed.

Lemma handleWordClick_spec_witness :
  cleanWord "quick," ≠ ""
  ∧ log (handleWordClick Sample.fox "quick," Sample.checked
           (Sample.world 1700000000000)).2
    = [LookupWord "quick" "the quick brown fox"].
Proof.
  assert (H : cleanWord "quick," ≠ "") by discriminate.
  split; [exact H|].
  destruct handleWordClick_spec as [Hs _].
  destruct (Hs Sample.fox "quick," Sample.checked (Sample.world 1700000000000) H)
    as [Hlog _].
  exact Hlog.
Defined.

(** The claim as the specification states it fails: after the lookup of a
    word has completed and the popover is closed, a second tap on the word
    issues a second lookup; so does a second tap while the first lookup is
    in flight. *)
Lemma handleWordClick_twice :
  count (isLookup "quick")
    (handleWordClick Sample.fox "quick"
       (closePopover
          (lookupResolved Sample.fox "quick" Sample.entry
             (handleWordClick Sample.fox "quick" Sample.checked
                (Sample.world 1700000000000)).1))
       (handleWordClick Sample.fox "quick" Sample.checked
          (Sample.world 1700000000000)).2).2
  = 2%nat
  ∧ count (isLookup "quick")
      (handleWordClick Sample.fox "quick"
         (handleWordClick Sample.fox "quick" Sample.checked
            (Sample.world 1700000000000)).1
         (handleWordClick Sample.fox "quick" Sample.checked
            (Sample.world 1700000000000)).2).2
    = 2%nat.
Proof. split; reflexivity. Qed.

End Lookup.

(** ** Bounded playback *)

Section Playback.
Import JS Types.

Lemma removeEventListener_only {H} (id : nat) (a : Audio.element H) :
  (Audio.listeners a).*1 = [id] →
  Audio.listeners (Audio.removeEventListener id a) = [].
Proof.
  unfold Audio.removeEventListener. cbn [Audio.listeners].
  destruct (Audio.listeners a) as [|[i h] [|? ?]]; try done.
  intros [= ->]. rewrite filter_cons_False; [done|]. cbn. auto.
Qed.

(** In the practice session every run of the stop-watch effect removes the
    listener of the previous run before it registers its own. *)
Lemma stopWatchEffect_oneWatch (seg : option Segment) (st : StepPractice.State) :
  StepPractice.oneWatch st →
  StepPractice.oneWatch (StepPractice.stopWatchEffect seg st)
  ∧ (StepPractice.armed (StepPractice.stopWatchEffect seg st) ≤ 1)%nat.
Proof.
  unfold StepPractice.oneWatch, StepPractice.stopWatchEffect, StepPractice.armed.
  destruct (StepPractice.audio st) as [a|] eqn:Ea.
  2:{ destruct (StepPractice.cleanup st); cbn; split; (done || lia). }
  destruct (StepPractice.cleanup st) as [id|] eqn:Ec; intros Hone.
  - unfold Audio.addEventListener, Audio.armed.
    rewrite (removeEventListener_only id a Hone). cbn. split; [done|lia].
  - apply fmap_nil_inv in Hone. unfold Audio.addEventListener, Audio.armed.
    rewrite Hone. cbn. split; [done|lia].
Qed.

Lemma handleTimeUpdate_listeners (seg : option Segment) (st : StepPractice.State) :
  StepPractice.cleanup (StepPractice.handleTimeUpdate seg st) = StepPractice.cleanup st
  ∧ (Audio.listeners <$> StepPractice.audio (StepPractice.handleTimeUpdate seg st))
    = (Audio.listeners <$> StepPractice.audio st).
Proof.
  unfold StepPractice.handleTimeUpdate.
  destruct seg as [seg|]; [|done].
  destruct (StepPractice.audio st) as [a|] eqn:Ea; [|by rewrite Ea].
  destruct (num_geb _ _); [done|by rewrite Ea].
Qed.

Lemma oneWatch_listeners (st st' : StepPractice.State) :
  StepPractice.cleanup st' = StepPractice.cleanup st →
  (Audio.listeners <$> StepPractice.audio st')
  = (Audio.listeners <$> StepPractice.audio st) →
  StepPractice.oneWatch st → StepPractice.oneWatch st'.
Proof.
  unfold StepPractice.oneWatch. intros -> Hl.
  destruct (StepPractice.audio st), (StepPractice.audio st'); try done.
  cbn in Hl. by injection Hl as ->.
Qed.

Lemma foldl_handleTimeUpdate (ls : list (nat * option Segment))
    (st : StepPractice.State) :
  let st' := foldl (λ s l, StepPractice.handleTimeUpdate l.2 s) st ls in
  StepPractice.cleanup st' = StepPractice.cleanup st
  ∧ (Audio.listeners <$> StepPractice.audio st')
    = (Audio.listeners <$> StepPractice.audio st).
Proof.
  revert st. induction ls as [|l ls IH]; intros st; [done|].
  cbn [foldl]. destruct (IH (StepPractice.handleTimeUpdate l.2 st)) as [H1 H2].
  destruct (handleTimeUpdate_listeners l.2 st) as [H3 H4].
  cbn zeta. rewrite H1, H2. done.
Qed.

Lemma timeupdate_oneWatch (t : number) (st : StepPractice.State) :
  StepPractice.oneWatch st → StepPractice.oneWatch (StepPractice.timeupdate t st).
Proof.
  unfold StepPractice.timeupdate.
  destruct (StepPractice.audio st) as [a|] eqn:Ea; [|done].
  intros Hone.
  match goal with
  | |- context [foldl _ ?s0 ?ls] =>
      destruct (foldl_handleTimeUpdate ls s0) as [H1 H2]
  end.
  apply (oneWatch_listeners st); [exact H1| |done].
  cbn zeta in H2. rewrite H2, Ea. reflexivity.
Qed.

Lemma setCurrentIndex_oneWatch (p : StepPractice.Props) (n : nat)
    (st : StepPractice.State) :
  StepPractice.oneWatch st →
  StepPractice.oneWatch (StepPractice.setCurrentIndex p n st)
  ∧ (StepPractice.armed (StepPractice.setCurrentIndex p n st) ≤ 1)%nat.
Proof.
  intros Hone. unfold StepPractice.setCurrentIndex.
  set (st1 := StepPractice.mkState n _ _ _ _ _ _ _ _ _).
  assert (H1 : StepPractice.oneWatch st1) by exact Hone.
  destruct (stopWatchEffect_oneWatch (StepPractice.segments p !! n) st1 H1)
    as [H2 H3].
  split; [exact H2|exact H3].
Qed.

Lemma playAudio_arms (start end_ : number)
    (onEnd : option StepMiniStory.Callback) (st : StepMiniStory.State)
    (a : Audio.element StepMiniStory.Watch) :
  StepMiniStory.audio st = Some a →
  StepMiniStory.armed (StepMiniStory.playAudio start end_ onEnd st)
  = S (StepMiniStory.armed st).
Proof.
  intros Ha. unfold StepMiniStory.playAudio, StepMiniStory.armed.
  rewrite Ha. cbn. unfold Audio.armed. cbn. rewrite length_app. cbn. lia.
Qed.

(** C10.  In the practice session at most one stop-watch is armed: the
    stop-watch effect removes the listener of its previous run before it
    registers the next, and a change of segment leaves one listener.  In the
    mini-story session [playAudio] arms a stop-watch without disarming any:
    every call adds one.  So after the question is replayed and then the
    answer, two are armed, and at the first position report within the
    answer window, at 2.1 seconds, the stop-watch of the question fires and
    pauses the playback, while the one of the answer, which ends at 5
    seconds, is still armed. *)
Theorem playAudio_rearm :
  (∀ (p : StepPractice.Props) (n : nat) (st : StepPractice.State),
     StepPractice.oneWatch st →
     StepPractice.oneWatch (StepPractice.setCurrentIndex p n st)
     ∧ (StepPractice.armed (StepPractice.setCurrentIndex p n st) ≤ 1)%nat)
  ∧ (∀ start end_ onEnd (st : StepMiniStory.State) a,
       StepMiniStory.audio st = Some a →
       StepMiniStory.armed (StepMiniStory.playAudio start end_ onEnd st)
       = S (StepMiniStory.armed st))
  ∧ StepMiniStory.armed
      (StepMiniStory.replayAnswer Sample.item
         (StepMiniStory.replayQuestion Sample.item Sample.review))
    = 2%nat
  ∧ StepMiniStory.isPaused
      (StepMiniStory.replayAnswer Sample.item
         (StepMiniStory.replayQuestion Sample.item Sample.review))
    = false
  ∧ StepMiniStory.audio
      (StepMiniStory.timeupdate (Fin 2.1)
         (StepMiniStory.replayAnswer Sample.item
            (StepMiniStory.replayQuestion Sample.item Sample.review)))
    = Some (Audio.mkElement (Fin 2.1) true
              [(1%nat, StepMiniStory.mkWatch (Fin 5) None)] 2).
Proof.
  split; [exact setCurrentIndex_oneWatch|].
  split; [exact playAudio_arms|].
  by repeat split.
Qed.

End Playback.

(** * Further properties *)

(** ** Sorting *)

Section Sorting.
Context {A : Type} (leb : A → A → bool).
Hypothesis leb_total : ∀ a b, leb a b = true ∨ leb b a = true.
Hypothesis leb_trans : ∀ a b c, leb a b = true → leb b c = true → leb a c = true.

Lemma insert_Permutation (x : A) (l : list A) : JSArray.insert leb x l ≡ₚ x :: l.
Proof.
  induction l as [|y l IH]; [done|]. cbn. destruct (leb x y); [done|].
  rewrite IH. apply Permutation_swap.
Qed.

Lemma sort_Permutation (l : list A) : JSArray.sort leb l ≡ₚ l.
Proof.
  induction l as [|x l IH]; [done|]. cbn.
  rewrite insert_Permutation. by rewrite IH.
Qed.

Lemma insert_sorted (x : A) (l : list A) :
  StronglySorted (λ a b, leb a b = true) l →
  StronglySorted (λ a b, leb a b = true) (JSArray.insert leb x l).
Proof.
  induction 1 as [|y l Hl IH Hy]; cbn; [by repeat constructor|].
  destruct (leb x y) eqn:E.
  - constructor; [by constructor|]. constructor; [done|].
    eapply Forall_impl; [exact Hy|]. intros z Hz. by eapply leb_trans.
  - constructor; [done|].
    rewrite insert_Permutation. constructor; [|done].
    destruct (leb_total x y) as [H|H]; [congruence|done].
Qed.

Lemma sort_sorted (l : list A) :
  StronglySorted (λ a b, leb a b = true) (JSArray.sort leb l).
Proof. induction l; cbn; [constructor|by apply insert_sorted]. Qed.

Lemma StronglySorted_weaken (R R' : relation A) (l : list A) :
  (∀ a b, R a b → R' a b) → StronglySorted R l → StronglySorted R' l.
Proof.
  intros HR. induction 1 as [|x l Hl IH Hx]; constructor; [done|].
  eapply Forall_impl; [exact Hx|]. auto.
Qed.

(** Equal elements keep their order: the elements of a class that the
    comparator holds level come out in the order they went in. *)
Lemma insert_stable (P : A → Prop) `{!∀ x, Decision (P x)} (x : A) (l : list A) :
  (∀ a b, P a → P b → leb a b = true) →
  filter P (JSArray.insert leb x l) = filter P (x :: l).
Proof.
  intros HP. induction l as [|y l IH]; [done|]. cbn [JSArray.insert].
  destruct (leb x y) eqn:E; [done|].
  rewrite (filter_cons _ y), IH, !(filter_cons _ x), (filter_cons _ y).
  destruct (decide (P y)) as [Hy|Hy]; [|done].
  destruct (decide (P x)) as [Hx|Hx]; [|done].
  rewrite (HP x y Hx Hy) in E. done.
Qed.

Lemma sort_stable (P : A → Prop) `{!∀ x, Decision (P x)} (l : list A) :
  (∀ a b, P a → P b → leb a b = true) →
  filter P (JSArray.sort leb l) = filter P l.
Proof.
  intros HP. induction l as [|x l IH]; [done|]. cbn [JSArray.sort foldr].
  fold (JSArray.sort leb l). rewrite insert_stable by done.
  by rewrite !(filter_cons _ x), IH.
Qed.

End Sorting.

(** ** The library *)

Section LibraryFacts.
Import Types World storageService Library.

(** X1.  [getAllArticles] hands back the articles of the store, each once, in
    ascending order of their next review; articles with the same next review
    stay in the order of the store. *)
Theorem getAllArticles_sorted (results : list Article) :
  getAllArticles results ≡ₚ results
  ∧ StronglySorted (λ a b, nextReview a ≤ nextReview b) (getAllArticles results)
  ∧ ∀ t, filter (λ a, nextReview a = t) (getAllArticles results)
         = filter (λ a, nextReview a = t) results.
Proof.
  unfold getAllArticles.
  set (leb := λ a b : Article, nextReview a - nextReview b <=? 0).
  assert (Hle : ∀ a b, leb a b = true ↔ nextReview a ≤ nextReview b).
  { intros a b. unfold leb. rewrite Z.leb_le. lia. }
  assert (Htot : ∀ a b, leb a b = true ∨ leb b a = true).
  { intros a b. rewrite !Hle. lia. }
  assert (Htr : ∀ a b c, leb a b = true → leb b c = true → leb a c = true).
  { intros a b c. rewrite !Hle. lia. }
  split; [apply sort_Permutation|]. split.
  - eapply StronglySorted_weaken; [|by apply sort_sorted].
    intros a b. by rewrite Hle.
  - intros t. apply sort_stable. intros a b Ha Hb. apply Hle. lia.
Qed.

End LibraryFacts.

(** ** More on the scheduler and the progress update *)

Section SchedulerFacts.
Import Types World storageService Library.

(** X2.  [getVocabulary] hands back the saved words, each once, the latest
    saved first; words saved at the same instant stay in the order of the
    store. *)
Theorem getVocabulary_sorted (results : list VocabularyItem) :
  getVocabulary results ≡ₚ results
  ∧ StronglySorted (λ a b, v_savedAt b ≤ v_savedAt a) (getVocabulary results)
  ∧ ∀ t, filter (λ a, v_savedAt a = t) (getVocabulary results)
         = filter (λ a, v_savedAt a = t) results.
Proof.
  unfold getVocabulary.
  set (leb := λ a b : VocabularyItem, v_savedAt b - v_savedAt a <=? 0).
  assert (Hle : ∀ a b, leb a b = true ↔ v_savedAt b ≤ v_savedAt a).
  { intros a b. unfold leb. rewrite Z.leb_le. lia. }
  split; [apply sort_Permutation|]. split.
  - eapply StronglySorted_weaken; [|apply sort_sorted].
    + intros a b. by rewrite Hle.
    + intros a b. rewrite !Hle. lia.
    + intros a b c. rewrite !Hle. lia.
  - intros t. apply sort_stable. intros a b Ha Hb. apply Hle. lia.
Qed.

(** X3.  The date that [calculateNextReview] returns lies between one day and
    150 days after the instant of the call, whatever the stage: a review is
    never scheduled in the past or at once. *)
Theorem calculateNextReview_bounds (s : nat) (w : world) :
  clock w (reads w) + 24 * 60 * 60 * 1000
  ≤ nextDate (calculateNextReview s w).1
  ≤ clock w (reads w) + 150 * (24 * 60 * 60 * 1000).
Proof.
  change (nextDate (calculateNextReview s w).1)
    with (nextDate (calculateNextReviewAt (clock w (reads w)) s)).
  unfold calculateNextReviewAt. cbn [nextDate].
  rewrite SRS_INTERVALS_lookup. unfold oneDay.
  assert (H : 1 ≤ default 30 (SRS_INTERVALS !! s) ≤ 150).
  { do 10 (destruct s as [|s]; [by vm_compute|]). by vm_compute. }
  lia.
Qed.

(** X4.  For an article that is not older than a year, [updateArticleProgress]
    writes the article back with the stage one higher, the next review at the
    date the scheduler gives for the old stage, and [lastPracticed] at the
    reading of the clock that follows; nothing else of the article changes,
    and the scheduler is called once. *)
Theorem updateArticleProgress_scheduled (id : string) (a : Article) (w : world) :
  store w !! id = Some a →
  a_id a = id →
  clock w (reads w) - createdAt a ≤ 365 * 24 * 60 * 60 * 1000 →
  let w' := (updateArticleProgress id w).2 in
  let a' :=
    mkArticle (a_id a) (title a) (createdAt a)
      (Some (clock w (reads w + 2)))
      (clock w (reads w + 1)
       + default 30 ([1; 3; 5; 7; 14; 30; 60; 90; 120; 150] !! stage a)
         * (24 * 60 * 60 * 1000))
      (S (stage a)) (segments a) (miniStoryInteractions a)
      (currentSegmentIndex a) (audioBlob a) in
  store w' = <[id := a']> (store w)
  ∧ log w' = Put a' :: CalculateNextReview (stage a)
             :: UpdateArticleProgress id :: log w
  ∧ reads w' = (reads w + 3)%nat.
Proof.
  intros Ha Hid Hyoung w' a'. subst w'.
  rewrite updateArticleProgress_unfold, Ha. cbn zeta.
  assert (Hlt : (oneYear <? clock w (reads w) - createdAt a) = false).
  { apply Z.ltb_ge. unfold oneYear. lia. }
  rewrite Hlt.
  assert (Ea : set_stage (nextStage (calculateNextReviewAt (clock w (S (reads w))) (stage a)))
                 (set_nextReview
                    (nextDate (calculateNextReviewAt (clock w (S (reads w))) (stage a)))
                    (set_lastPracticed (Some (clock w (S (S (reads w))))) a)) = a').
  { subst a'. unfold set_stage, set_nextReview, set_lastPracticed,
      calculateNextReviewAt.
    cbn [a_id title createdAt lastPracticed nextReview stage segments
         miniStoryInteractions currentSegmentIndex audioBlob nextStage nextDate].
    rewrite SRS_INTERVALS_lookup, !Nat.add_1_r, (Nat.add_comm (reads w) 2).
    reflexivity. }
  rewrite Ea. unfold saveArticle. cbn [snd store log reads].
  assert (Hid' : a_id a' = id) by (subst a'; exact Hid).
  rewrite Hid'. repeat split. lia.
Qed.

Lemma updateArticleProgress_scheduled_witness :
  (store (Sample.world 1700000500000) !! "a1" = Some Sample.article
   ∧ a_id Sample.article = "a1"
   ∧ clock (Sample.world 1700000500000) 0%nat - createdAt Sample.article
     ≤ 365 * 24 * 60 * 60 * 1000)
  ∧ store (updateArticleProgress "a1" (Sample.world 1700000500000)).2 !! "a1"
    = Some (mkArticle "a1" "lesson" 1700000000000 (Some 1700000500002)
              (1700000500001 + 7 * 86400000) 4 Sample.segments None 1 None).
Proof.
  assert (H1 : store (Sample.world 1700000500000) !! "a1" = Some Sample.article)
    by apply lookup_singleton_eq.
  assert (H2 : a_id Sample.article = "a1") by reflexivity.
  assert (H3 : clock (Sample.world 1700000500000) 0%nat
               - createdAt Sample.article ≤ 365 * 24 * 60 * 60 * 1000)
    by (cbn; lia).
  split; [auto|].
  destruct (updateArticleProgress_scheduled "a1" Sample.article
              (Sample.world 1700000500000) H1 H2 H3) as [Hs _].
  rewrite Hs. apply lookup_insert_eq.
Defined.

Lemma insert_wellKeyed (a : Article) (m : gmap string Article) :
  wellKeyed m → wellKeyed (<[a_id a := a]> m).
Proof.
  intros Hm id b. rewrite lookup_insert. case_decide as E.
  - by intros [= <-].
  - apply Hm.
Qed.

Lemma updateArticleProgress_store (id : string) (w : world) :
  store (updateArticleProgress id w).2 = store w
  ∨ ∃ a a', store w !! id = Some a
      ∧ store (updateArticleProgress id w).2 = <[a_id a' := a']> (store w)
      ∧ a_id a' = a_id a ∧ title a' = title a ∧ createdAt a' = createdAt a
      ∧ segments a' = segments a
      ∧ currentSegmentIndex a' = currentSegmentIndex a
      ∧ audioBlob a' = audioBlob a
      ∧ (stage a ≤ stage a' ≤ stage a + 1)%nat.
Proof.
  rewrite updateArticleProgress_unfold. cbn zeta.
  destruct (store w !! id) as [a|] eqn:Ha; [|by left].
  right. exists a.
  destruct (oneYear <? clock w (reads w) - createdAt a); eexists;
    (split; [done|]); (split; [reflexivity|]); cbn; repeat split; lia.
Qed.

(** X5.  [updateArticleProgress] touches no article but the one it is called
    for, and of that one only the stage, which stays or goes up by one, the
    next review and [lastPracticed]; it adds and removes no article, and
    called for an id that the store does not hold it leaves the store as it
    is. *)
Theorem updateArticleProgress_frame (id : string) (w : world) :
  wellKeyed (store w) →
  let w' := (updateArticleProgress id w).2 in
  (∀ id', id' ≠ id → store w' !! id' = store w !! id')
  ∧ (store w !! id = None → store w' = store w)
  ∧ (∀ a, store w !! id = Some a →
       ∃ a', store w' !! id = Some a'
         ∧ a_id a' = a_id a ∧ title a' = title a ∧ createdAt a' = createdAt a
         ∧ segments a' = segments a
         ∧ currentSegmentIndex a' = currentSegmentIndex a
         ∧ audioBlob a' = audioBlob a
         ∧ (stage a ≤ stage a' ≤ stage a + 1)%nat)
  ∧ dom (store w') = dom (store w)
  ∧ wellKeyed (store w').
Proof.
  intros Hk w'. subst w'.
  destruct (updateArticleProgress_store id w)
    as [->|(a & a' & Ha & -> & Hid & Hrest)].
  - repeat split; try done.
    intros a Ha. exists a. repeat split; try done; lia.
  - pose proof (Hk id a Ha) as Hida. rewrite Hid, Hida.
    split; [|split; [|split; [|split]]].
    + intros id' Hne. by rewrite lookup_insert_ne.
    + intros Hnone. congruence.
    + intros b Hb. exists a'. rewrite lookup_insert_eq.
      assert (b = a) as -> by congruence. split; [done|]. split; [done|].
      exact Hrest.
    + rewrite dom_insert_L. apply elem_of_dom_2 in Ha.
      by apply subseteq_union_1_L, singleton_subseteq_l.
    + rewrite <- Hida, <- Hid. by apply insert_wellKeyed.
Qed.

Lemma sample_wellKeyed (start : Z) : wellKeyed (store (Sample.world start)).
Proof.
  intros id a H.
  change (({[ "a1" := Sample.article ]} : gmap string Article) !! id = Some a)
    in H.
  by apply lookup_singleton_Some in H as [<- <-].
Qed.

Lemma updateArticleProgress_frame_witness :
  wellKeyed (store (Sample.world 1700000500000))
  ∧ store (updateArticleProgress "a2" (Sample.world 1700000500000)).2
    = store (Sample.world 1700000500000).
Proof.
  split; [apply sample_wellKeyed|].
  destruct (updateArticleProgress_frame "a2" (Sample.world 1700000500000)
              (sample_wellKeyed 1700000500000)) as (_ & H & _).
  apply H. by apply lookup_singleton_ne.
Defined.

End SchedulerFacts.

(** ** The store stays keyed by id *)

Section Keys.
Import JS Types World storageService geminiService Library.

Lemma keepsKeys_bind {A B} (m : M A) (f : A → M B) :
  keepsKeys m → (∀ x, keepsKeys (f x)) → keepsKeys (m ≫= f).
Proof.
  intros Hm Hf w Hw. unfold mbind, M_bind, bind.
  specialize (Hm w Hw). destruct (m w) as [x w1]. by apply Hf.
Qed.

Lemma keepsKeys_same {A} (m : M A) :
  (∀ w, store (m w).2 = store w) → keepsKeys m.
Proof. intros H w Hw. by rewrite H. Qed.

Lemma keepsKeys_saveArticle (a : Article) : keepsKeys (saveArticle a).
Proof. intros w Hw. by apply insert_wellKeyed. Qed.

Lemma keepsKeys_update (f : AppState → AppState) : keepsKeys (App.update f).
Proof. by apply keepsKeys_same. Qed.

Lemma keepsKeys_updateArticleProgress (id : string) :
  keepsKeys (updateArticleProgress id).
Proof.
  intros w Hw.
  destruct (updateArticleProgress_store id w) as [->|(a & a' & _ & -> & _)];
    [done|by apply insert_wellKeyed].
Qed.

Lemma keepsKeys_saveProgress (p : StepPractice.Props) (n : nat) :
  keepsKeys (StepPractice.saveProgress p n).
Proof.
  intros w Hw. rewrite saveProgress_unfold.
  destruct (StepPractice.articleId p) as [id|]; [|done].
  destruct (store w !! id) as [a|]; [|done].
  by apply insert_wellKeyed.
Qed.

Lemma keepsKeys_handlePracticeComplete : keepsKeys App.handlePracticeComplete.
Proof.
  unfold App.handlePracticeComplete.
  apply keepsKeys_bind; [by apply keepsKeys_same|]. intros s.
  apply keepsKeys_bind; [|intros; apply keepsKeys_update].
  destruct (currentArticleId s);
    [apply keepsKeys_updateArticleProgress|by apply keepsKeys_same].
Qed.

(** The parser reads the clock and nothing else. *)
Lemma forEachLine_world (segments : list Segment) (lines : list (list ascii))
    (index : nat) (w : world) :
  let w' := (forEachLine segments lines index w).2 in
  store w' = store w ∧ app w' = app w ∧ log w' = log w ∧ clock w' = clock w.
Proof.
  revert segments index w. induction lines as [|line lines IH];
    intros segments index w; [done|].
  cbn [forEachLine]. unfold mbind, M_bind, bind.
  destruct (parseLine segments line index w) as [segs w1] eqn:E.
  assert (H1 : store w1 = store w ∧ app w1 = app w ∧ log w1 = log w
               ∧ clock w1 = clock w).
  { unfold parseLine in E. destruct (lineRegex (trim line)) as [m|].
    - destruct (trim (textGroup m)); by injection E as <- <-.
    - by injection E as <- <-. }
  destruct H1 as (Hs & Ha & Hl & Hc).
  destruct (IH segs (S index) w1) as (Hs' & Ha' & Hl' & Hc').
  cbn zeta. by rewrite Hs', Ha', Hl', Hc'.
Qed.

Lemma transcribeAudio_world (oracle : string + string) (w : world) :
  let w' := (transcribeAudio oracle w).2 in
  store w' = store w ∧ app w' = app w ∧ log w' = log w ∧ clock w' = clock w.
Proof.
  destruct oracle as [message|rawText]; [done|].
  rewrite transcribeAudio_unfold. cbn zeta.
  pose proof (forEachLine_world [] (splitChar (ascii_of_N 10) (chars rawText))
                0 w) as H.
  by destruct (forEachLine _ _ _ _).1.
Qed.

Lemma handleFileSelect_store (file : File) (url : string)
    (oracle : string + string) (w : world) :
  let w' := (App.handleFileSelect file url oracle w).2 in
  store w' = store w ∧ log w' = log w.
Proof.
  unfold App.handleFileSelect, mbind, M_bind, bind.
  unfold App.update, mbind, M_bind, bind, getApp, setApp. cbn [fst snd].
  match goal with
  | |- context [transcribeAudio oracle ?w1] =>
      pose proof (transcribeAudio_world oracle w1) as (Hs & _ & Hl & _);
      destruct (transcribeAudio oracle w1) as [[segs|message] w2]
  end; cbn [fst snd store log] in *.
  - by rewrite <- Hs, <- Hl.
  - destruct (_ || _); cbn [fst snd store log]; by rewrite <- Hs, <- Hl.
Qed.

Lemma keepsKeys_handleReviewConfirm (updatedSegments : list Segment)
    (uuid : string) :
  keepsKeys (App.handleReviewConfirm updatedSegments uuid).
Proof.
  unfold App.handleReviewConfirm.
  apply keepsKeys_bind; [by apply keepsKeys_same|]. intros s.
  apply keepsKeys_bind; [apply keepsKeys_update|]. intros _.
  apply keepsKeys_bind; [|intros; apply keepsKeys_update].
  destruct (audioFile s); [|by apply keepsKeys_same].
  apply keepsKeys_bind; [by apply keepsKeys_same|]. intros created.
  apply keepsKeys_bind; [by apply keepsKeys_same|]. intros due.
  apply keepsKeys_bind; [apply keepsKeys_saveArticle|]. intros _.
  apply keepsKeys_bind; [apply keepsKeys_update|]. intros _.
  apply keepsKeys_update.
Qed.

(** X6.  Every step of the program that writes to the store keeps each
    article under its own id: the progress update, the checkpoint of the
    practice session, the completion of a session, the advance to the next
    segment, the creation of an article at the confirmation of the review,
    and the upload, which does not write at all.  The empty store being so
    keyed, every store the program reaches is. *)
Theorem store_wellKeyed :
  wellKeyed ∅
  ∧ (∀ a, keepsKeys (saveArticle a))
  ∧ (∀ id, keepsKeys (updateArticleProgress id))
  ∧ (∀ p n, keepsKeys (StepPractice.saveProgress p n))
  ∧ keepsKeys App.handlePracticeComplete
  ∧ (∀ p st, keepsKeys (StepPractice.onComplete p) →
       keepsKeys (StepPractice.handleNext p st))
  ∧ (∀ s st, keepsKeys (StepPractice.handleNext (App.practiceProps s) st))
  ∧ (∀ updatedSegments uuid,
       keepsKeys (App.handleReviewConfirm updatedSegments uuid))
  ∧ (∀ file url oracle, keepsKeys (App.handleFileSelect file url oracle)).
Proof.
  assert (Hnext : ∀ p st, keepsKeys (StepPractice.onComplete p) →
                          keepsKeys (StepPractice.handleNext p st)).
  { intros p st Hc. unfold StepPractice.handleNext.
    destruct (_ <? _)%nat.
    - apply keepsKeys_bind; [apply keepsKeys_saveProgress|].
      intros _. by apply keepsKeys_same.
    - apply keepsKeys_bind; [apply keepsKeys_saveProgress|]. intros _.
      apply keepsKeys_bind; [by apply keepsKeys_same|]. intros _.
      apply keepsKeys_bind; [exact Hc|]. intros _. by apply keepsKeys_same. }
  split; [by intros id a|].
  split; [exact keepsKeys_saveArticle|].
  split; [exact keepsKeys_updateArticleProgress|].
  split; [exact keepsKeys_saveProgress|].
  split; [exact keepsKeys_handlePracticeComplete|].
  split; [exact Hnext|].
  split; [intros s st; apply Hnext, keepsKeys_handlePracticeComplete|].
  split; [exact keepsKeys_handleReviewConfirm|].
  intros file url oracle. apply keepsKeys_same. intros w.
  apply handleFileSelect_store.
Qed.

End Keys.

(** ** The upload flow and the creation of an article *)

Section Flow.
Import JS Types World storageService geminiService Library Session.

(** X7.  [removeExtension], which makes the title of an article from the name
    of its file, drops the last dot and what follows it when that is one or
    more characters without a slash, and keeps the rest of the name as it is;
    a name without a dot is kept whole, and the title is always a prefix of
    the name. *)
Theorem removeExtension_spec :
  (∀ base ext : list ascii,
     ext ≠ [] →
     Forall (λ c, Ascii.eqb c "." = false ∧ Ascii.eqb c "/" = false) ext →
     App.removeExtension (base ++ "."%char :: ext) = base)
  ∧ (∀ name : list ascii,
       Forall (λ c, Ascii.eqb c "." = false) name →
       App.removeExtension name = name)
  ∧ (∀ name : list ascii, ∃ r, name = App.removeExtension name ++ r).
Proof.
  split; [|split].
  - intros base ext Hne Hext.
    assert (Hok : forallb (λ d, negb (Ascii.eqb d "." || Ascii.eqb d "/")) ext = true).
    { apply forallb_forall. intros c Hc%list_elem_of_In.
      rewrite Forall_forall in Hext. destruct (Hext c Hc) as [-> ->]. done. }
    induction base as [|c base IH].
    + cbn. rewrite bool_decide_eq_false_2 by done. by rewrite Hok.
    + assert (Hbad : forallb (λ d, negb (Ascii.eqb d "." || Ascii.eqb d "/"))
                       (base ++ "."%char :: ext) = false).
      { rewrite forallb_app. cbn. by rewrite andb_false_r. }
      change (App.removeExtension ((c :: base) ++ "."%char :: ext))
        with (if Ascii.eqb c "."
                 && negb (bool_decide (base ++ "."%char :: ext = []))
                 && forallb (λ d, negb (Ascii.eqb d "." || Ascii.eqb d "/"))
                      (base ++ "."%char :: ext)
              then [] else c :: App.removeExtension (base ++ "."%char :: ext)).
      by rewrite Hbad, andb_false_r, IH.
  - induction 1 as [|c l Hc Hl IH]; [done|]. cbn. by rewrite Hc, IH.
  - induction name as [|c l [r IH]]; [by exists []|].
    change (App.removeExtension (c :: l))
      with (if Ascii.eqb c "." && negb (bool_decide (l = []))
               && forallb (λ d, negb (Ascii.eqb d "." || Ascii.eqb d "/")) l
            then [] else c :: App.removeExtension l).
    destruct (_ && _); [by eexists|]. exists r.
    exact (f_equal (cons c) IH).
Qed.

Lemma removeExtension_spec_witness :
  (chars "mp3" ≠ []
   ∧ Forall (λ c, Ascii.eqb c "." = false ∧ Ascii.eqb c "/" = false)
       (chars "mp3"))
  ∧ App.removeExtension (chars "unit 1.lesson.mp3") = chars "unit 1.lesson".
Proof.
  assert (H1 : chars "mp3" ≠ []) by done.
  assert (H2 : Forall (λ c, Ascii.eqb c "." = false ∧ Ascii.eqb c "/" = false)
                 (chars "mp3")) by (by repeat constructor).
  split; [auto|].
  destruct removeExtension_spec as [H _].
  exact (H (chars "unit 1.lesson") (chars "mp3") H1 H2).
Defined.

(** X8.  With an audio file in the session, [handleReviewConfirm] stores one
    new article under the fresh id: stage 0, cursor 0, never practised,
    created at the first reading of the clock and due at the second, with the
    confirmed segments, the file, and the name of the file without its
    extension as title.  It makes this article the article of the session, at
    index 0, and moves to the practice step, so that the practice session is
    given the id of an article that the store holds. *)
Theorem handleReviewConfirm_creates (file : File) (updatedSegments : list Segment)
    (uuid : string) (w : world) :
  audioFile (app w) = Some file →
  let w' := (App.handleReviewConfirm updatedSegments uuid w).2 in
  let article :=
    mkArticle uuid (str (App.removeExtension (chars (f_name file))))
      (clock w (reads w)) None (clock w (reads w + 1)) 0 updatedSegments None 0
      (Some file) in
  store w' = <[uuid := article]> (store w)
  ∧ log w' = Put article :: log w
  ∧ app w'
    = mkApp (activeTab (app w)) PRACTICE updatedSegments (Some file)
        (audioUrl (app w)) (Some uuid) 0 (isProcessing (app w))
        (errorMsg (app w)) (showSettings (app w))
  ∧ StepPractice.articleId (App.practiceProps (app w')) = Some uuid
  ∧ store w' !! uuid = Some article.
Proof.
  intros Hfile w' article. subst w'.
  unfold App.handleReviewConfirm, mbind, M_bind, bind, getApp.
  unfold App.update, mbind, M_bind, bind, getApp, setApp.
  cbn [fst snd app]. rewrite Hfile.
  unfold Date_now, saveArticle. subst article. cbn.
  unfold App.setCurrentStep, App.setResumeIndex, App.setCurrentArticleId,
    App.setSegments. cbn.
  rewrite ?Hfile, ?Nat.add_1_r.
  repeat split. apply lookup_insert_eq.
Qed.

Lemma handleReviewConfirm_creates_witness :
  audioFile (app Cases.uploaded) = Some Sample.audio
  ∧ store (App.handleReviewConfirm Sample.segments "a7" Cases.uploaded).2 !! "a7"
    = Some (mkArticle "a7" "lesson" 1700000000000 None 1700000000001 0
              Sample.segments None 0 (Some Sample.audio)).
Proof.
  assert (H : audioFile (app Cases.uploaded) = Some Sample.audio) by reflexivity.
  split; [exact H|].
  destruct (handleReviewConfirm_creates Sample.audio Sample.segments "a7"
              Cases.uploaded H) as (_ & _ & _ & _ & Hs).
  exact Hs.
Defined.

(** Without an audio file in the session, [handleReviewConfirm] writes
    nothing: the store and the article of the session stay as they were, and
    the practice step is entered all the same. *)
Theorem handleReviewConfirm_without_file (updatedSegments : list Segment)
    (uuid : string) (w : world) :
  audioFile (app w) = None →
  let w' := (App.handleReviewConfirm updatedSegments uuid w).2 in
  store w' = store w
  ∧ log w' = log w
  ∧ reads w' = reads w
  ∧ app w'
    = mkApp (activeTab (app w)) PRACTICE updatedSegments None
        (audioUrl (app w)) (currentArticleId (app w)) (resumeIndex (app w))
        (isProcessing (app w)) (errorMsg (app w)) (showSettings (app w)).
Proof.
  intros Hfile w'. subst w'.
  unfold App.handleReviewConfirm, mbind, M_bind, bind, getApp.
  unfold App.update, mbind, M_bind, bind, getApp, setApp.
  cbn [fst snd app]. rewrite Hfile. cbn.
  unfold App.setCurrentStep, App.setSegments. cbn. by rewrite Hfile.
Qed.

Lemma handleReviewConfirm_without_file_witness :
  audioFile (app (Sample.world 1700000000000)) = None
  ∧ store (App.handleReviewConfirm Sample.segments "a7"
             (Sample.world 1700000000000)).2
    = store (Sample.world 1700000000000).
Proof.
  assert (H : audioFile (app (Sample.world 1700000000000)) = None)
    by reflexivity.
  split; [exact H|].
  by destruct (handleReviewConfirm_without_file Sample.segments "a7"
                 (Sample.world 1700000000000) H) as [Hs _].
Defined.

End Flow.

(** ** The outcome of an upload *)

Section UploadOutcome.
Import JS Types World storageService geminiService Library Session Frame.

Lemma parseLine_withApp (segs : list Segment) (line : list ascii) (index : nat)
    (s : AppState) (w : world) :
  parseLine segs line index (withApp s w)
  = ((parseLine segs line index w).1,
     withApp s (parseLine segs line index w).2).
Proof.
  unfold parseLine. destruct (lineRegex (trim line)) as [m|]; [|done].
  by destruct (trim (textGroup m)).
Qed.

Lemma forEachLine_withApp (segs : list Segment) (lines : list (list ascii))
    (index : nat) (s : AppState) (w : world) :
  forEachLine segs lines index (withApp s w)
  = ((forEachLine segs lines index w).1,
     withApp s (forEachLine segs lines index w).2).
Proof.
  revert segs index w. induction lines as [|line lines IH];
    intros segs index w; [done|].
  cbn [forEachLine]. unfold mbind, M_bind, bind.
  rewrite parseLine_withApp.
  destruct (parseLine segs line index w) as [segs' w1]. cbn [fst snd].
  apply IH.
Qed.

(** The transcription does not look at the state of [App]. *)
Lemma transcribeAudio_withApp (oracle : string + string) (s : AppState)
    (w : world) :
  transcribeAudio oracle (withApp s w)
  = ((transcribeAudio oracle w).1, withApp s (transcribeAudio oracle w).2).
Proof.
  destruct oracle as [message|rawText]; [done|].
  rewrite !transcribeAudio_unfold. cbn zeta. rewrite forEachLine_withApp.
  cbn [fst snd]. by destruct (forEachLine _ _ _ _).1.
Qed.

Lemma handleApiError_nonempty (message context : string) :
  handleApiError message context ≠ "".
Proof. unfold handleApiError. by destruct (isQuotaMessage message). Qed.

Lemma transcribeAudio_result (oracle : string + string) (w : world) :
  match (transcribeAudio oracle w).1 with
  | Returns result => result ≠ []
  | Throws message => message ≠ ""
  end.
Proof.
  destruct oracle as [message|rawText].
  - apply handleApiError_nonempty.
  - rewrite transcribeAudio_unfold. cbn zeta.
    destruct (forEachLine _ _ _ _).1; [apply handleApiError_nonempty|done].
Qed.

Lemma handleFileSelect_app (file : File) (url : string)
    (oracle : string + string) (w : world) :
  app (App.handleFileSelect file url oracle w).2
  = match (transcribeAudio oracle w).1 with
    | Returns result =>
        mkApp (activeTab (app w)) REVIEW result (Some file) (Some url)
          (currentArticleId (app w)) (resumeIndex (app w)) false None
          (showSettings (app w))
    | Throws message =>
        let msg := if String.eqb message "" then "An unexpected error occurred."
                   else message in
        mkApp (activeTab (app w)) (currentStep (app w)) (app_segments (app w))
          None (Some url) (currentArticleId (app w)) (resumeIndex (app w))
          false (Some msg)
          (if includes (chars "API Key") (chars msg)
              || includes (chars "429") (chars msg)
              || includes (chars "Quota") (chars msg)
           then true else showSettings (app w))
    end.
Proof.
  unfold App.handleFileSelect, mbind, M_bind, bind.
  unfold App.update, mbind, M_bind, bind, getApp, setApp.
  cbn [fst snd store app clock reads log].
  match goal with
  | |- context [transcribeAudio oracle (mkWorld _ ?s _ _ _)] =>
      change (transcribeAudio oracle (mkWorld _ s _ _ _))
        with (transcribeAudio oracle (withApp s w))
  end.
  rewrite transcribeAudio_withApp.
  destruct (transcribeAudio oracle w) as [[result|message] w2].
  - reflexivity.
  - cbn [fst snd]. cbn zeta. destruct (_ || _); reflexivity.
Qed.

(** X9.  Whatever the oracle produces, [handleFileSelect] ends with the
    processing flag cleared and the object URL of the file recorded, and it
    leaves the store, the log, the tab, the article of the session and the
    resume index as they were.  When the transcription returns, its segments,
    of which there is at least one, become the segments of the session, the
    file is kept, no error is shown and the step is the review.  When it
    throws, the step and the segments stay, the file is dropped, and the
    message thrown, which is never empty, is the error shown: the fallback
    text for an error without a message is never used. *)
Theorem handleFileSelect_outcome (file : File) (url : string)
    (oracle : string + string) (w : world) :
  let w' := (App.handleFileSelect file url oracle w).2 in
  (isProcessing (app w') = false
   ∧ audioUrl (app w') = Some url
   ∧ store w' = store w
   ∧ log w' = log w
   ∧ activeTab (app w') = activeTab (app w)
   ∧ currentArticleId (app w') = currentArticleId (app w)
   ∧ resumeIndex (app w') = resumeIndex (app w))
  ∧ match (transcribeAudio oracle w).1 with
    | Returns result =>
        result ≠ []
        ∧ currentStep (app w') = REVIEW
        ∧ app_segments (app w') = result
        ∧ audioFile (app w') = Some file
        ∧ errorMsg (app w') = None
        ∧ showSettings (app w') = showSettings (app w)
    | Throws message =>
        message ≠ ""
        ∧ currentStep (app w') = currentStep (app w)
        ∧ app_segments (app w') = app_segments (app w)
        ∧ audioFile (app w') = None
        ∧ errorMsg (app w') = Some message
        ∧ (showSettings (app w) = true → showSettings (app w') = true)
    end.
Proof.
  intros w'. subst w'.
  pose proof (handleFileSelect_store file url oracle w) as [Hs Hl].
  pose proof (transcribeAudio_result oracle w) as Hr.
  rewrite handleFileSelect_app.
  destruct (transcribeAudio oracle w).1 as [result|message].
  - by repeat split.
  - cbn zeta. destruct (String.eqb_spec message "") as [->|_]; [done|].
    repeat split; try done. cbn. intros ->. by destruct (_ || _).
Qed.

(** X10.  The two failures that the settings answer open the settings
    dialog.  [getAiInstance] takes the stored key when it is not empty and
    the key of the environment otherwise, and throws when neither is there.
    An upload that fails so shows the message of the missing key and opens
    the settings; so does an upload whose request fails with a message that
    speaks of the quota (code 429, the word quota in any case, or
    RESOURCE_EXHAUSTED), with the message of the exceeded quota. *)
Theorem handleFileSelect_settings :
  (∀ key envKey, key ≠ "" → getAiInstance (Some key) envKey = Returns key)
  ∧ (∀ key, key ≠ "" →
       getAiInstance None (Some key) = Returns key
       ∧ getAiInstance (Some "") (Some key) = Returns key)
  ∧ (∀ localKey envKey,
       (localKey = None ∨ localKey = Some "") →
       (envKey = None ∨ envKey = Some "") →
       getAiInstance localKey envKey = Throws apiKeyMissing)
  ∧ (∀ localKey envKey request file url w,
       getAiInstance localKey envKey = Throws apiKeyMissing →
       let w' := (App.handleFileSelect file url
                    (oracleCall localKey envKey request) w).2 in
       errorMsg (app w')
       = Some ("Failed to transcribe audio: " +:+ apiKeyMissing)
       ∧ showSettings (app w') = true
       ∧ audioFile (app w') = None)
  ∧ (∀ message file url w,
       isQuotaMessage message = true →
       let w' := (App.handleFileSelect file url (inl message) w).2 in
       errorMsg (app w')
       = Some "API Quota Exceeded (429). The free plan limit has been reached. Please wait a moment or update your API Key in Settings."
       ∧ showSettings (app w') = true
       ∧ audioFile (app w') = None).
Proof.
  split; [|split; [|split; [|split]]].
  - intros key envKey Hkey%String.eqb_neq. unfold getAiInstance, orString.
    by rewrite !Hkey.
  - intros key Hkey%String.eqb_neq. unfold getAiInstance, orString. cbn.
    by rewrite !Hkey.
  - by intros localKey envKey [->| ->] [->| ->].
  - intros localKey envKey request file url w Hkey w'. subst w'.
    rewrite handleFileSelect_app. unfold oracleCall. rewrite Hkey.
    by vm_compute.
  - intros message file url w Hquota w'. subst w'.
    rewrite handleFileSelect_app.
    change ((transcribeAudio (inl message) w).1)
      with (Throws (A:=list Segment)
              (handleApiError message "transcribe audio")).
    unfold handleApiError. rewrite Hquota. by vm_compute.
Qed.

End UploadOutcome.

(** ** Resuming an article from the dashboard *)

Section Resume.
Import JS Types World storageService geminiService Library Session Frame.

Lemma handleSelectArticle_unfold (article : Article) (url : string) (w : world) :
  handleSelectArticle article url w
  = match audioBlob article with
    | Some _ =>
        (tt, withApp
               (mkApp PRACTICE_SESSION (currentStep (app w)) (segments article)
                  (audioFile (app w)) (Some url) (Some (a_id article))
                  (currentSegmentIndex article) (isProcessing (app w))
                  (errorMsg (app w)) (showSettings (app w))) w)
    | None => (tt, w)
    end.
Proof. unfold handleSelectArticle. by destruct (audioBlob article). Qed.

(** X11.  Leaving a practice session and opening the article again resumes
    where the session stopped.  For the article of the session, stored with
    its audio: after [handleNext] the store holds the article with the cursor
    that [handleNext] moved to, the next index or 0 after the last segment,
    and [handleSelectArticle] on that article gives the practice session the
    id of the article, its segments and that cursor as initial index, on the
    practice tab, with the new object URL, and writes nothing to the store. *)
Theorem handleSelectArticle_resumes (id : string) (a : Article) (file : File)
    (st : StepPractice.State) (url : string) (w : world) :
  currentArticleId (app w) = Some id →
  store w !! id = Some a →
  a_id a = id →
  audioBlob a = Some file →
  let p := App.practiceProps (app w) in
  let next := (StepPractice.currentIndex st + 1)%nat in
  let w1 := (StepPractice.handleNext p st w).2 in
  ∃ a1,
    store w1 !! id = Some a1
    ∧ let w2 := (handleSelectArticle a1 url w1).2 in
      App.practiceProps (app w2)
      = StepPractice.mkProps (Some id) (segments a)
          (if (next <? length (StepPractice.segments p))%nat then next else 0%nat)
          App.handlePracticeComplete
      ∧ activeTab (app w2) = PRACTICE_SESSION
      ∧ audioUrl (app w2) = Some url
      ∧ store w2 = store w1
      ∧ log w2 = log w1.
Proof.
  intros Hcur Ha Hid Hblob p next w1.
  destruct (next <? length (StepPractice.segments p))%nat eqn:E.
  - apply Nat.ltb_lt in E. subst w1.
    rewrite (handleNext_earlier p id a st w Hcur Ha Hid E). cbn [snd store].
    eexists. split; [apply lookup_insert_eq|].
    rewrite handleSelectArticle_unfold. cbn. rewrite Hblob, Hid. by cbn.
  - apply Nat.ltb_ge in E. subst w1 next p.
    rewrite (handleNext_last id a st w Hcur Ha Hid E). cbn [snd].
    destruct (oneYear <? _); cbn [store]; (eexists; split;
      [apply lookup_insert_eq|]);
      rewrite handleSelectArticle_unfold; cbn; rewrite Hblob, Hid; by cbn.
Qed.

Lemma handleSelectArticle_resumes_witness :
  (currentArticleId (app Cases.library) = Some "a1"
   ∧ store Cases.library !! "a1" = Some Cases.stored
   ∧ a_id Cases.stored = "a1"
   ∧ audioBlob Cases.stored = Some Sample.audio)
  ∧ ∃ a1,
      store (StepPractice.handleNext (App.practiceProps (app Cases.library))
               Sample.checked Cases.library).2 !! "a1" = Some a1
      ∧ resumeIndex
          (app (handleSelectArticle a1 "blob:3"
                  (StepPractice.handleNext
                     (App.practiceProps (app Cases.library))
                     Sample.checked Cases.library).2).2) = 1%nat.
Proof.
  assert (H1 : currentArticleId (app Cases.library) = Some "a1") by reflexivity.
  assert (H2 : store Cases.library !! "a1" = Some Cases.stored)
    by apply lookup_insert_eq.
  assert (H3 : a_id Cases.stored = "a1") by reflexivity.
  assert (H4 : audioBlob Cases.stored = Some Sample.audio) by reflexivity.
  split; [auto|].
  destruct (handleSelectArticle_resumes "a1" Cases.stored Sample.audio
              Sample.checked "blob:3" Cases.library H1 H2 H3 H4)
    as (a1 & Hs & Hp & _).
  exists a1. split; [exact Hs|].
  exact (f_equal StepPractice.initialIndex Hp).
Defined.

(** An article stored without its audio cannot be opened:
    [handleSelectArticle] changes nothing, whatever the session was. *)
Theorem handleSelectArticle_without_audio (article : Article) (url : string)
    (w : world) :
  audioBlob article = None →
  handleSelectArticle article url w = (tt, w).
Proof. intros H. by rewrite handleSelectArticle_unfold, H. Qed.

Lemma handleSelectArticle_without_audio_witness :
  audioBlob Sample.article = None
  ∧ handleSelectArticle Sample.article "blob:3" (Sample.world 1700000000000)
    = (tt, Sample.world 1700000000000).
Proof.
  assert (H : audioBlob Sample.article = None) by reflexivity.
  split; [exact H|].
  exact (handleSelectArticle_without_audio Sample.article "blob:3"
           (Sample.world 1700000000000) H).
Defined.

End Resume.

(** ** The lists of the dashboard *)

Section Dashboard.
Import JS Types World storageService Library Session Frame.

(** A filter whose test reads the clock once per element. *)
Lemma filterM_clock (f : Article → Z → bool) (test : Article → M bool)
    (articles : list Article) (w : world) :
  (∀ a w0, test a w0
           = (f a (clock w0 (reads w0)),
              mkWorld (store w0) (app w0) (clock w0) (S (reads w0)) (log w0))) →
  let r := filterM test articles w in
  r.2 = mkWorld (store w) (app w) (clock w) (reads w + length articles) (log w)
  ∧ (∀ a, a ∈ r.1 →
       ∃ k, (k < length articles)%nat ∧ f a (clock w (reads w + k)) = true)
  ∧ r.1 `sublist_of` articles
  ∧ (∀ now, (∀ k, clock w k = now) →
       r.1 = List.filter (λ a, f a now) articles).
Proof.
  intros Htest. revert w. induction articles as [|a articles IH]; intros w.
  - cbn. rewrite Nat.add_0_r. split; [by destruct w|].
    split; [by intros a Ha%elem_of_nil|]. by split.
  - cbn [filterM]. unfold mbind, M_bind, bind. rewrite Htest.
    specialize (IH (mkWorld (store w) (app w) (clock w) (S (reads w)) (log w))).
    destruct (filterM test articles _) as [rest w1].
    cbn [fst snd store app clock reads log] in IH.
    destruct IH as (-> & Hin & Hsub & Hconst).
    cbn [fst snd length]. unfold mret, M_ret, ret. cbn [fst snd].
    split; [f_equal; lia|]. split; [|split].
    + intros b Hb.
      assert (Hrest : b ∈ rest →
                ∃ k, (k < S (length articles))%nat
                     ∧ f b (clock w (reads w + k)) = true).
      { intros (k & Hk & Hf)%Hin. exists (S k). split; [lia|].
        by rewrite Nat.add_succ_r. }
      destruct (f a (clock w (reads w))) eqn:E; [|by apply Hrest].
      apply elem_of_cons in Hb as [->|Hb]; [|by apply Hrest].
      exists 0%nat. split; [lia|]. by rewrite Nat.add_0_r.
    + destruct (f a (clock w (reads w)));
        [by apply sublist_skip|by apply sublist_cons].
    + intros now Hnow. cbn [List.filter]. rewrite <- (Hconst now Hnow).
      by rewrite Hnow.
Qed.

(** X12.  The dashboard sorts every stored article into the list of the due
    ones or the list of the upcoming ones by reading the clock once per
    article and list.  Both lists keep the order of the articles.  As the
    clock never goes back, no article is in both lists; and if the clock does
    not move during the render, the two lists are the articles whose next
    review is not after the instant and those whose next review is after it,
    so their lengths add up to the number of articles. *)
Theorem lists_spec (articles : list Article) (w : world) :
  monotone (clock w) →
  let due := (lists articles w).1.1 in
  let upcoming := (lists articles w).1.2 in
  due `sublist_of` articles
  ∧ upcoming `sublist_of` articles
  ∧ (∀ a, a ∈ due → a ∉ upcoming)
  ∧ reads (lists articles w).2 = (reads w + 2 * length articles)%nat
  ∧ (∀ now, (∀ k, clock w k = now) →
       due = List.filter (λ a, nextReview a <=? now) articles
       ∧ upcoming = List.filter (λ a, negb (nextReview a <=? now)) articles
       ∧ (length due + length upcoming = length articles)%nat).
Proof.
  intros Hmono due upcoming. subst due upcoming.
  unfold lists, dueArticles, upcomingArticles, mbind, M_bind, bind.
  pose proof (filterM_clock (λ a now, nextReview a <=? now)
                (λ a, isDue (nextReview a)) articles w (λ _ _, eq_refl))
    as (Hw1 & Hin1 & Hsub1 & Hconst1).
  destruct (filterM (λ a, isDue (nextReview a)) articles w) as [due w1].
  cbn [fst snd] in *. subst w1.
  match goal with
  | |- context [filterM ?t articles ?w1] =>
      pose proof (filterM_clock (λ a now, negb (nextReview a <=? now))
                    t articles w1 (λ _ _, eq_refl))
        as (Hw2 & Hin2 & Hsub2 & Hconst2);
      destruct (filterM t articles w1) as [upcoming w2]
  end.
  cbn [fst snd store app clock reads log] in *. subst w2.
  unfold mret, M_ret, ret. cbn [fst snd reads].
  split; [done|]. split; [done|]. split; [|split; [lia|]].
  - intros a (k1 & Hk1 & H1)%Hin1 (k2 & Hk2 & H2)%Hin2.
    apply Z.leb_le in H1. apply negb_true_iff, Z.leb_gt in H2.
    pose proof (Hmono (reads w + k1)%nat (reads w + length articles + k2)%nat
                  ltac:(lia)).
    lia.
  - intros now Hnow. rewrite (Hconst1 now Hnow), (Hconst2 now Hnow).
    split; [done|]. split; [done|].
    clear. induction articles as [|a l IH]; [done|]. cbn.
    destruct (nextReview a <=? now); cbn; lia.
Qed.

Lemma lists_spec_witness :
  monotone (clock Cases.library)
  ∧ (lists [Cases.stored; set_nextReview 1800000000000 Cases.stored]
       Cases.library).1
    = ([Cases.stored], [set_nextReview 1800000000000 Cases.stored])
  ∧ reads (lists [Cases.stored; set_nextReview 1800000000000 Cases.stored]
             Cases.library).2 = 4%nat.
Proof.
  assert (H : monotone (clock Cases.library)).
  { intros i j Hij. cbn. lia. }
  split; [exact H|]. split; [reflexivity|].
  destruct (lists_spec [Cases.stored; set_nextReview 1800000000000 Cases.stored]
              Cases.library H) as (_ & _ & _ & Hr & _).
  exact Hr.
Defined.

End Dashboard.

(** ** Soundness of the line pattern *)

Section Matcher.
Import JS Types World geminiService Grammar Transcript.

Lemma orElse_Some {A} (x y : option A) (r : A) :
  orElse x y = Some r → x = Some r ∨ y = Some r.
Proof. destruct x; cbn; auto. Qed.

Lemma literal_sound {R} (p l : list ascii) (k : list ascii → option R) (r : R) :
  literal p l k = Some r → ∃ l', l = p ++ l' ∧ k l' = Some r.
Proof.
  revert l. induction p as [|a p IH]; intros l; cbn; [by eauto|].
  destruct l as [|b l]; [done|].
  destruct (Ascii.eqb_spec a b) as [->|]; [|done].
  intros (l' & -> & Hk)%IH. eauto.
Qed.

Lemma digitsExactly_sound {R} (n : nat) (l : list ascii)
    (k : list ascii → list ascii → option R) (r : R) :
  digitsExactly n l k = Some r →
  ∃ ds rest, l = ds ++ rest ∧ allDigits ds ∧ length ds = n
             ∧ k ds rest = Some r.
Proof.
  revert l k. induction n as [|n IH]; intros l k; cbn.
  - intros H. exists [], l.
    split; [done|]. split; [constructor|]. split; [cbn; lia|done].
  - destruct l as [|c l]; [done|]. destruct (isDigit c) eqn:E; [|done].
    intros (ds & rest & -> & Hds & Hl & Hk)%IH.
    exists (c :: ds), rest.
    split; [done|]. split; [by constructor|]. split; [cbn; lia|done].
Qed.

Lemma digitsAtMost_sound {R} (n : nat) (l : list ascii)
    (k : list ascii → list ascii → option R) (r : R) :
  digitsAtMost n l k = Some r →
  ∃ ds rest, l = ds ++ rest ∧ allDigits ds ∧ (length ds ≤ n)%nat
             ∧ k ds rest = Some r.
Proof.
  revert l k. induction n as [|n IH]; intros l k; cbn.
  - intros H. exists [], l.
    split; [done|]. split; [constructor|]. split; [cbn; lia|done].
  - intros [H|H]%orElse_Some.
    + destruct l as [|c l]; [done|]. destruct (isDigit c) eqn:E; [|done].
      apply IH in H as (ds & rest & -> & Hds & Hl & Hk).
      exists (c :: ds), rest.
      split; [done|]. split; [by constructor|]. split; [cbn; lia|done].
    + exists [], l.
      split; [done|]. split; [constructor|]. split; [cbn; lia|done].
Qed.

Lemma digitsBetween_sound {R} (lo more : nat) (l : list ascii)
    (k : list ascii → list ascii → option R) (r : R) :
  digitsBetween lo more l k = Some r →
  ∃ ds rest, l = ds ++ rest ∧ allDigits ds
             ∧ (lo ≤ length ds ≤ lo + more)%nat ∧ k ds rest = Some r.
Proof.
  unfold digitsBetween.
  intros (ds & rest & -> & Hds & Hl & H)%digitsExactly_sound.
  apply digitsAtMost_sound in H as (ds' & rest' & -> & Hds' & Hl' & Hk).
  exists (ds ++ ds'), rest'. rewrite <- app_assoc, length_app.
  split; [done|]. split; [by apply Forall_app|]. split; [lia|done].
Qed.

Lemma timePattern_sound {R} (l : list ascii)
    (k : list ascii → list ascii → option R) (r : R) :
  timePattern l k = Some r →
  ∃ s rest, l = s ++ rest ∧ Time s ∧ k s rest = Some r.
Proof.
  unfold timePattern.
  intros (mm & r1 & -> & Hmm & Lmm & H)%digitsBetween_sound.
  apply literal_sound in H as (r2 & -> & H).
  apply digitsExactly_sound in H as (ss & r3 & -> & Hss & Lss & H).
  apply orElse_Some in H as [H|H].
  - apply literal_sound in H as (r4 & -> & H).
    apply digitsBetween_sound in H as (ms & r5 & -> & Hms & Lms & H).
    exists (mm ++ chars ":" ++ ss ++ chars "." ++ ms), r5.
    split; [by rewrite <- !app_assoc|]. split; [|done].
    by apply Time_millis.
  - exists (mm ++ chars ":" ++ ss), r3.
    split; [by rewrite <- !app_assoc|]. split; [|done].
    by apply Time_plain.
Qed.

Lemma translationPattern_sound (l : list ascii) (tr : option (list ascii)) :
  translationPattern l = Some tr →
  l = tail tr ∧ Forall (λ c, isLineTerminator c = false) l.
Proof.
  unfold translationPattern. intros [H|H]%orElse_Some.
  - apply literal_sound in H as (t & -> & H).
    destruct (forallb _ t) eqn:E; [|done]. injection H as <-.
    split; [done|]. apply Forall_app. split; [by repeat constructor|].
    apply Forall_forall. intros c Hc%list_elem_of_In.
    rewrite forallb_forall in E. by apply negb_true_iff, E.
  - destruct l; [|done]. by injection H as <-.
Qed.

Lemma bodyPattern_sound (l text : list ascii) (tr : option (list ascii)) :
  bodyPattern l = Some (text, tr) →
  l = text ++ tail tr
  ∧ Forall (λ c, isLineTerminator c = false) l.
Proof.
  revert text. induction l as [|c l IH]; intros text;
    rewrite bodyPattern_eq; intros [H|H]%orElse_Some; try done.
  - destruct (translationPattern []) as [tr'|] eqn:E; [|done].
    injection H as <- <-. by apply translationPattern_sound.
  - destruct (translationPattern (c :: l)) as [tr'|] eqn:E; [|done].
    injection H as <- <-. by apply translationPattern_sound.
  - destruct (isLineTerminator c) eqn:Ec; [done|].
    destruct (bodyPattern l) as [[text' tr']|] eqn:E; [|done].
    injection H as <- <-. destruct (IH text' eq_refl) as [-> Hall].
    split; [done|]. by constructor.
Qed.

Lemma matchAt_sound (l : list ascii) (m : Match) :
  matchAt l = Some m →
  l = chars "[" ++ startStr m ++ chars " -> " ++ endStr m ++ chars "] "
      ++ textGroup m ++ tail (translationGroup m)
  ∧ Time (startStr m) ∧ Time (endStr m)
  ∧ Forall (λ c, isLineTerminator c = false)
      (textGroup m ++ tail (translationGroup m)).
Proof.
  unfold matchAt. intros (r1 & -> & H)%literal_sound.
  apply timePattern_sound in H as (s & r2 & -> & Hs & H).
  apply literal_sound in H as (r3 & -> & H).
  apply timePattern_sound in H as (e & r4 & -> & He & H).
  apply literal_sound in H as (r5 & -> & H).
  destruct (bodyPattern r5) as [[text tr]|] eqn:E; [|done].
  injection H as <-. cbn [startStr endStr textGroup translationGroup].
  by apply bodyPattern_sound in E as [-> Hall].
Qed.

Lemma lineRegex_sound (l : list ascii) (m : Match) :
  lineRegex l = Some m →
  ∃ before,
    l = before ++ chars "[" ++ startStr m ++ chars " -> " ++ endStr m
        ++ chars "] " ++ textGroup m ++ tail (translationGroup m)
    ∧ Time (startStr m) ∧ Time (endStr m)
    ∧ Forall (λ c, isLineTerminator c = false)
        (textGroup m ++ tail (translationGroup m)).
Proof.
  induction l as [|c l IH]; cbn [lineRegex]; intros [H|H]%orElse_Some;
    try done.
  - exists []. rewrite app_nil_l. exact (matchAt_sound _ _ H).
  - destruct (IH H) as (before & -> & Hrest). by exists (c :: before).
Qed.

(** X13.  The line pattern accepts only lines of the expected shape: when
    [lineRegex] matches a line, the line is, after some characters that the
    match skips, an opening bracket, the first group, the arrow, the second
    group, a closing bracket and a space, the third group, and then either
    the end of the line or the delimiter and the fourth group up to the end
    of the line; the first two groups are times, and neither the text nor
    the translation holds a line terminator. *)
Theorem lineRegex_shape (l : list ascii) (m : Match) :
  lineRegex l = Some m →
  ∃ before,
    l = before ++ chars "[" ++ startStr m ++ chars " -> " ++ endStr m
        ++ chars "] " ++ textGroup m ++ tail (translationGroup m)
    ∧ Time (startStr m) ∧ Time (endStr m)
    ∧ Forall (λ c, isLineTerminator c = false)
        (textGroup m ++ tail (translationGroup m)).
Proof. apply lineRegex_sound. Qed.

Lemma lineRegex_shape_witness :
  lineRegex (chars "1. [00:00.000 -> 00:02.500] Hello everyone. | Xin chao.")
  = Some (mkMatch (chars "00:00.000") (chars "00:02.500")
            (chars "Hello everyone.") (Some (chars "Xin chao.")))
  ∧ Time (chars "00:02.500").
Proof.
  assert (H : lineRegex
                (chars "1. [00:00.000 -> 00:02.500] Hello everyone. | Xin chao.")
              = Some (mkMatch (chars "00:00.000") (chars "00:02.500")
                        (chars "Hello everyone.") (Some (chars "Xin chao."))))
    by reflexivity.
  split; [exact H|].
  destruct (lineRegex_shape _ _ H) as (_ & _ & _ & He & _). exact He.
Defined.

End Matcher.

(** ** What a transcript holds, whatever the oracle wrote *)

Section TranscriptFacts.
Import JS Types World geminiService Grammar Transcript.

Lemma digitValue_bound (c : ascii) :
  isDigit c = true → (digitValue c ≤ 9)%N.
Proof. by_cases c. Qed.

Lemma digitsValue_bound (ds : list ascii) :
  allDigits ds → (length ds ≤ 3)%nat →
  (digitsValue ds < 10 ^ N.of_nat (length ds))%N.
Proof.
  intros Hds Hl. unfold allDigits in Hds.
  destruct ds as [|a [|b [|c [|d ds]]]]; cbn in Hl; try lia;
    repeat match goal with
           | H : Forall _ (_ :: _) |- _ =>
               apply Forall_cons in H as [?%digitValue_bound H]
           end;
    unfold digitsValue; cbn [fold_left length];
    match goal with
    | |- (_ < ?p)%N => let v := eval vm_compute in p in change p with v
    end; lia.
Qed.

Lemma natural_bound (ds : list ascii) :
  allDigits ds → (length ds ≤ 2)%nat →
  (0 <= natural ds)%Q ∧ (natural ds <= 99)%Q.
Proof.
  intros Hds Hl. pose proof (digitsValue_bound ds Hds ltac:(lia)) as H.
  assert (H' : (digitsValue ds < 100)%N).
  { eapply N.lt_le_trans; [exact H|].
    destruct ds as [|a [|b [|c ds]]]; cbn in Hl |- *; lia. }
  unfold natural. split.
  - change 0%Q with (inject_Z 0). rewrite <- Zle_Qle. lia.
  - change 99%Q with (inject_Z 99). rewrite <- Zle_Qle. lia.
Qed.

Lemma fraction_bound (ds : list ascii) :
  allDigits ds → (length ds ≤ 3)%nat →
  (0 <= fraction ds)%Q ∧ (fraction ds * 1000 <= 999)%Q.
Proof.
  intros Hds Hl. pose proof (digitsValue_bound ds Hds Hl) as H.
  unfold fraction, natural.
  assert (Hp : 0 < 10 ^ Z.of_nat (length ds)) by (apply Z.pow_pos_nonneg; lia).
  assert (Hq : (0 < inject_Z (10 ^ Z.of_nat (length ds)))%Q).
  { change 0%Q with (inject_Z 0). by rewrite <- Zlt_Qlt. }
  assert (Hv : Z.of_N (digitsValue ds) < 10 ^ Z.of_nat (length ds)).
  { apply N2Z.inj_lt in H. rewrite N2Z.inj_pow, nat_N_Z in H. exact H. }
  assert (Hk : Z.of_N (digitsValue ds) * 1000
               ≤ 999 * 10 ^ Z.of_nat (length ds)).
  { destruct (length ds) as [|[|[|[|n]]]]; cbn in Hl; [| | | |lia];
      match type of Hv with
      | _ < ?p => let v := eval vm_compute in p in change p with v in Hv |- *
      end; lia. }
  split.
  - apply Qle_shift_div_l; [done|]. rewrite Qmult_0_l.
    change 0%Q with (inject_Z 0). rewrite <- Zle_Qle. lia.
  - set (n := Z.of_N (digitsValue ds)) in *.
    set (P := 10 ^ Z.of_nat (length ds)) in *.
    assert (Hne : ¬ (inject_Z P == 0)%Q).
    { change 0%Q with (inject_Z 0). rewrite inject_Z_injective. lia. }
    assert (Heq : (inject_Z n / inject_Z P * 1000
                   == inject_Z (n * 1000) / inject_Z P)%Q)
      by (rewrite inject_Z_mult; change (inject_Z 1000) with 1000%Q; field;
          exact Hne).
    rewrite Heq. apply Qle_shift_div_r; [done|].
    change 999%Q with (inject_Z 999).
    rewrite <- inject_Z_mult, <- Zle_Qle. lia.
Qed.

(** Minutes of at most two digits and seconds of two, with at most three
    digits of fraction, stay below 6040 seconds as doubles too. *)
Lemma seconds_inRange (mm ss : list ascii) (millis : option (list ascii)) :
  allDigits mm → (length mm ≤ 2)%nat →
  allDigits ss → (length ss ≤ 2)%nat →
  match millis with
  | Some ms => allDigits ms ∧ (length ms ≤ 3)%nat
  | None => True
  end →
  inRange (seconds mm ss millis).
Proof.
  intros Hmm Lmm Hss Lss Hms.
  destruct (natural_bound mm Hmm Lmm) as [Hm0 Hm1].
  destruct (natural_bound ss Hss Lss) as [Hs0 Hs1].
  assert (Hf : (0 <= millisValue millis)%Q
               ∧ (millisValue millis * 1000 <= 999)%Q).
  { destruct millis as [ms|]; [|split; cbn; lra].
    destruct Hms as [Hms Lms]. by apply fraction_bound. }
  destruct Hf as [Hf0 Hf1].
  assert (H53 : ∀ K, 0 ≤ K < 2 ^ 32 → 0 ≤ K < 2 ^ 53).
  { intros K [H1 H2]. split; [done|].
    eapply Z.lt_trans; [exact H2|]. by vm_compute. }
  destruct (double_bound (natural mm) 99 0) as (v1 & E1 & L1 & U1);
    [lia|apply H53; split; [lia|by vm_compute]|done| |].
  { change (inject_Z (2 ^ 0)) with 1%Q. change (inject_Z 99) with 99%Q. lra. }
  change (inject_Z (2 ^ 0)) with 1%Q in U1. change (inject_Z 99) with 99%Q in U1.
  destruct (double_bound (v1 * 60) 5940 0) as (v2 & E2 & L2 & U2);
    [lia|apply H53; split; [lia|by vm_compute]|lra| |].
  { change (inject_Z (2 ^ 0)) with 1%Q. change (inject_Z 5940) with 5940%Q. lra. }
  change (inject_Z (2 ^ 0)) with 1%Q in U2.
  change (inject_Z 5940) with 5940%Q in U2.
  destruct (double_bound (natural ss + millisValue millis) 102399 10)
    as (v3 & E3 & L3 & U3);
    [lia|apply H53; split; [lia|by vm_compute]|lra| |].
  { change (inject_Z (2 ^ 10)) with 1024%Q.
    change (inject_Z 102399) with 102399%Q. lra. }
  change (inject_Z (2 ^ 10)) with 1024%Q in U3.
  change (inject_Z 102399) with 102399%Q in U3.
  destruct (double_bound (v2 + v3) 6184959 10) as (v4 & E4 & L4 & U4);
    [lia|apply H53; split; [lia|by vm_compute]|lra| |].
  { change (inject_Z (2 ^ 10)) with 1024%Q.
    change (inject_Z 6184959) with 6184959%Q. lra. }
  change (inject_Z (2 ^ 10)) with 1024%Q in U4.
  change (inject_Z 6184959) with 6184959%Q in U4.
  exists v4. unfold seconds. rewrite E1. cbn [num_mul]. rewrite E2, E3.
  cbn [num_add]. rewrite E4. split; [apply num_eq_refl|]. split; lra.
Qed.

Lemma time_inRange (s : list ascii) :
  Time s → inRange (parseTimestamp (str s)).
Proof.
  intros Hs%parseTimestamp_time.
  destruct Hs as [mm ss Hmm Lmm Hss Lss|mm ss ms Hmm Lmm Hss Lss Hms Lms];
    apply seconds_inRange; try done; try lia. split; [done|lia].
Qed.

Lemma trim_isTrimmed (l : list ascii) : isTrimmed (str (trim l)).
Proof.
  unfold isTrimmed. rewrite chars_str. apply trimmed_trim, trim_trimmed.
Qed.

(** What the callback of the loop does with one line. *)
Lemma parseLine_cases (segs : list Segment) (line : list ascii) (index : nat)
    (w : world) :
  parseLine segs line index w = (segs, w)
  ∨ ∃ seg,
      parseLine segs line index w
      = (segs ++ [seg],
         mkWorld (store w) (app w) (clock w) (S (reads w)) (log w))
      ∧ plausible seg
      ∧ s_id seg = segmentId index (clock w (reads w)).
Proof.
  unfold parseLine.
  destruct (lineRegex (trim line)) as [m|] eqn:E; [|by left].
  destruct (trim (textGroup m)) as [|c t] eqn:Et; [by left|].
  right. eexists. split; [reflexivity|]. split; [|done].
  apply lineRegex_sound in E as (_ & _ & Hs & He & _).
  split; [done|]. split.
  { rewrite <- Et. apply trim_isTrimmed. }
  split.
  { eexists. split; [done|]. destruct (translationGroup m).
    - apply trim_isTrimmed.
    - done. }
  split; by apply time_inRange.
Qed.

Lemma forEachLine_cases (lines : list (list ascii)) (segs : list Segment)
    (index : nat) (w : world) :
  ∃ new,
    forEachLine segs lines index w
    = (segs ++ new,
       mkWorld (store w) (app w) (clock w) (reads w + length new) (log w))
    ∧ (length new ≤ length lines)%nat
    ∧ Forall plausible new
    ∧ Forall (λ seg, ∃ i t, (index ≤ i)%nat ∧ s_id seg = segmentId i t) new
    ∧ NoDup (s_id <$> new).
Proof.
  revert segs index w. induction lines as [|line lines IH];
    intros segs index w.
  - exists []. cbn. rewrite app_nil_r, Nat.add_0_r.
    split; [by destruct w|]. repeat split; try done; constructor.
  - cbn [forEachLine]. unfold mbind, M_bind, bind.
    destruct (parseLine_cases segs line index w)
      as [->|(seg & -> & Hseg & Hid)].
    + destruct (IH segs (S index) w) as (new & -> & Hl & Hp & Hi & Hn).
      exists new. split; [done|]. split; [cbn; lia|]. split; [done|].
      split; [|done]. eapply Forall_impl; [exact Hi|].
      intros s (i & t & Hle & Hs). exists i, t. split; [lia|done].
    + destruct (IH (segs ++ [seg]) (S index)
                  (mkWorld (store w) (app w) (clock w) (S (reads w)) (log w)))
        as (new & -> & Hl & Hp & Hi & Hn).
      exists (seg :: new). cbn [store app clock reads log length].
      split; [rewrite <- app_assoc; do 2 f_equal; lia|].
      split; [lia|]. split; [by constructor|]. split.
      * constructor; [by exists index, (clock w (reads w))|].
        eapply Forall_impl; [exact Hi|].
        intros s (i & t & Hle & Hs). exists i, t. split; [lia|done].
      * cbn. constructor; [|done].
        intros (s & Hs & Hin)%list_elem_of_fmap.
        rewrite Forall_forall in Hi.
        destruct (Hi s Hin) as (i & t & Hle & Hsi).
        rewrite Hid, Hsi in Hs. apply segmentId_index in Hs. lia.
Qed.

(** X14.  Whatever the oracle wrote, a transcript that [transcribeAudio]
    returns holds at least one segment and at most one per line of the
    response; every segment has a text that is not empty and has no white
    space at its ends, a translation that is present (the empty string when
    the line has none) and trimmed as well, and a start and an end that are
    finite numbers of seconds from 0 to below 6040; the ids of the segments
    are pairwise distinct; and the clock was read once per segment and
    nothing else of the world changed.  When it throws, the world is as it
    was. *)
Theorem transcribeAudio_segments (rawText : string) (w : world) :
  match transcribeAudio (inr rawText) w with
  | (Returns segs, w') =>
      segs ≠ []
      ∧ (length segs
         ≤ length (splitChar (ascii_of_N 10) (chars rawText)))%nat
      ∧ Forall plausible segs
      ∧ NoDup (s_id <$> segs)
      ∧ w' = mkWorld (store w) (app w) (clock w) (reads w + length segs) (log w)
  | (Throws _, w') => w' = w
  end.
Proof.
  rewrite transcribeAudio_unfold. cbn zeta.
  destruct (forEachLine_cases (splitChar (ascii_of_N 10) (chars rawText)) []
              0 w) as (new & -> & Hl & Hp & _ & Hn).
  cbn [fst snd app]. destruct new as [|seg new].
  - cbn. rewrite Nat.add_0_r. by destruct w.
  - done.
Qed.

End TranscriptFacts.

(** ** The clean form of a text *)

Section CleanForm.
Import JS Text Types StepPractice.

Lemma toLowerCase_id (l : list ascii) :
  Forall (λ c, isUpper c = false) l → toLowerCase l = l.
Proof.
  induction 1 as [|c l Hc Hl IH]; [done|].
  change (toLowerCase (c :: l)) with (toLowerCaseChar c :: toLowerCase l).
  unfold toLowerCaseChar. by rewrite Hc, IH.
Qed.

Lemma toLowerCase_idemp (l : list ascii) :
  toLowerCase (toLowerCase l) = toLowerCase l.
Proof.
  apply toLowerCase_id, Forall_forall.
  intros c (c' & -> & _)%list_elem_of_fmap. apply toLowerCaseChar_lower.
Qed.







End CleanForm.

(** ** The Enter key and the play button of the practice session *)

Section Practice.
Import JS Text Types World StepPractice.

(** X16.  The Enter key of the practice session needs two presses to move
    on, and the first one writes nothing.  After an edit of the text box the
    feedback is neutral, so Enter only checks the answer: the world and the
    index stay as they are, and the feedback becomes correct exactly when the
    clean forms of the input and of the target agree.  A further Enter then
    is [handleNext] when the feedback is correct, and checks again, with the
    same outcome, when it is not. *)
Theorem handleKeyDown_protocol (p : Props) (currentSegment : Segment)
    (value : string) (st : State) (w : world) :
  let st1 := onChange value st in
  let st2 := (handleKeyDown p currentSegment st1 w).1 in
  handleKeyDown p currentSegment st1 w = (checkAnswer currentSegment st1, w)
  ∧ currentIndex st2 = currentIndex st
  ∧ userInput st2 = value
  ∧ (feedback st2 = correct
     ↔ cleanText (s_text currentSegment) = cleanText value)
  ∧ (feedback st2 = correct →
     handleKeyDown p currentSegment st2 w = handleNext p st2 w)
  ∧ (feedback st2 ≠ correct →
     feedback st2 = incorrect
     ∧ handleKeyDown p currentSegment st2 w = (st2, w)).
Proof.
  intros st1 st2.
  assert (Hk : handleKeyDown p currentSegment st1 w
               = (checkAnswer currentSegment st1, w)) by reflexivity.
  assert (E2 : st2 = checkAnswer currentSegment st1)
    by (subst st2; by rewrite Hk).
  clearbody st2. subst st2. split; [exact Hk|].
  unfold checkAnswer, st1. cbn [userInput onChange].
  destruct (String.eqb (cleanText (s_text currentSegment)) (cleanText value))
    eqn:E.
  - apply String.eqb_eq in E.
    split; [done|]. split; [done|]. split; [done|]. split; [done|].
    intros H. by destruct H.
  - split; [done|]. split; [done|]. split.
    { split; [done|]. intros H. apply String.eqb_eq in H. congruence. }
    split; [done|]. intros _. split; [done|].
    unfold handleKeyDown, checkAnswer.
    cbn [feedback setFeedback userInput onChange]. by rewrite E.
Qed.

(** X17.  In the practice session the playback of a segment is bounded.
    Once the stop-watch effect has run for the current segment, starting the
    playback puts the element at the start of the segment and plays; a
    [timeupdate] at a position before the end of the segment changes nothing
    but the position, and a [timeupdate] at or after the end pauses the
    element and clears the playing flag.  The play button is a toggle: on a
    session that is not playing it starts the playback like this, and on one
    that is playing it pauses. *)
Theorem playSegment_bounded (p : Props) (seg : Segment)
    (a : Audio.element (option Segment)) (st : State) :
  audio st = Some a →
  oneWatch st →
  currentSegment p st = Some seg →
  let st1 := forcePlay p (stopWatchEffect (Some seg) st) in
  (isPlaying st1 = true
   ∧ (Audio.paused <$> audio st1) = Some false
   ∧ (Audio.currentTime <$> audio st1) = Some (s_start seg)
   ∧ armed st1 = 1%nat)
  ∧ (isPlaying st = false → playSegment p (stopWatchEffect (Some seg) st) = st1)
  ∧ (isPlaying (playSegment p st1) = false
     ∧ (Audio.paused <$> audio (playSegment p st1)) = Some true)
  ∧ ∀ t,
      let st2 := timeupdate t st1 in
      (Audio.currentTime <$> audio st2) = Some t
      ∧ armed st2 = 1%nat
      ∧ if num_geb t (s_end seg)
        then isPlaying st2 = false ∧ (Audio.paused <$> audio st2) = Some true
        else isPlaying st2 = true ∧ (Audio.paused <$> audio st2) = Some false.
Proof.
  intros Ha Hone Hseg st1.
  assert (Hl : ∃ a0, Audio.listeners a0 = []
                 ∧ stopWatchEffect (Some seg) st
                   = mkState (currentIndex st) (userInput st) (feedback st)
                       (isPlaying st) (selectedWord st) (lookupData st)
                       (isLookingUp st) (savedWords st)
                       (Some (Audio.addEventListener (Some seg) a0).2)
                       (Some (Audio.fresh a0))).
  { unfold stopWatchEffect, oneWatch in *. rewrite Ha in *.
    destruct (cleanup st) as [id|].
    - exists (Audio.removeEventListener id a).
      split; [by apply removeEventListener_only|done].
    - exists a. split; [by apply fmap_nil_inv in Hone|done]. }
  destruct Hl as (a0 & Hl0 & Hst).
  assert (Hcur : currentSegment p (stopWatchEffect (Some seg) st) = Some seg).
  { rewrite Hst. exact Hseg. }
  subst st1. unfold forcePlay, playSegment. rewrite Hcur. rewrite Hst.
  cbn [audio isPlaying]. unfold Audio.addEventListener. rewrite Hl0.
  cbn. split; [done|]. split; [by intros ->|].
  unfold currentSegment in *. cbn [currentIndex segments]. rewrite Hseg.
  cbn. split; [done|]. intros t. unfold timeupdate. cbn.
  unfold handleTimeUpdate. cbn. by destruct (num_geb t (s_end seg)).
Qed.

Lemma playSegment_bounded_witness :
  (audio Cases.ready = Some Cases.player
   ∧ oneWatch Cases.ready
   ∧ currentSegment Cases.props Cases.ready = Some Cases.first)
  ∧ isPlaying
      (timeupdate (Fin 6)
         (forcePlay Cases.props
            (stopWatchEffect (Some Cases.first) Cases.ready)))
    = false.
Proof.
  assert (H1 : audio Cases.ready = Some Cases.player) by reflexivity.
  assert (H2 : oneWatch Cases.ready) by reflexivity.
  assert (H3 : currentSegment Cases.props Cases.ready = Some Cases.first)
    by reflexivity.
  split; [auto|].
  destruct (playSegment_bounded Cases.props Cases.first Cases.player
              Cases.ready H1 H2 H3) as (_ & _ & _ & Ht).
  destruct (Ht (Fin 6)) as (_ & _ & Hend). exact (proj1 Hend).
Defined.

End Practice.

(** ** One window of the mini-story at a time *)

Section MiniStory.
Import JS Types StepMiniStory.

Lemma playAudio_single (start end_ : number) (onEnd : option Callback)
    (st : State) (a : Audio.element Watch) :
  audio st = Some a →
  Audio.listeners a = [] →
  playAudio start end_ onEnd st
  = setAudio
      (Audio.mkElement start false [(Audio.fresh a, mkWatch end_ onEnd)]
         (S (Audio.fresh a))) st.
Proof.
  intros Ha Hl. unfold playAudio. rewrite Ha.
  destruct a as [ct pa ls fr]. cbn in Hl. by subst ls.
Qed.

(** A position report on an element with one stop-watch. *)
Lemma timeupdate_single (t : number) (st : State) (a : Audio.element Watch)
    (id : nat) (w : Watch) :
  audio st = Some a →
  Audio.listeners a = [(id, w)] →
  timeupdate t st
  = if num_geb t (w_end w) then
      let st' := setAudio (Audio.mkElement t true [] (Audio.fresh a)) st in
      match w_onEnd w with
      | Some c => runCallback c st'
      | None => st'
      end
    else setAudio (Audio.setCurrentTime t a) st.
Proof.
  intros Ha Hl. unfold timeupdate. rewrite Ha, Hl. cbn [foldl fst snd].
  unfold handleTimeUpdate.
  cbn [audio setAudio Audio.currentTime Audio.setCurrentTime].
  destruct (num_geb t (w_end w)); [|done].
  unfold Audio.removeEventListener.
  cbn [Audio.listeners Audio.pause Audio.setCurrentTime Audio.currentTime
       Audio.paused Audio.fresh].
  rewrite Hl, filter_cons_False by (cbn; auto). by rewrite filter_nil.
Qed.

Lemma startListening_same (st : State) :
  state (startListening st) = state st
  ∧ audio (startListening st) = audio st
  ∧ currentIndex (startListening st) = currentIndex st.
Proof. unfold startListening. by destruct (_ && _). Qed.

Lemma stopListening_same (st : State) :
  state (stopListening st) = state st
  ∧ audio (stopListening st) = audio st
  ∧ currentIndex (stopListening st) = currentIndex st.
Proof. unfold stopListening. by destruct (_ && _). Qed.

(** X18.  A window of the mini-story that is played while no other is armed
    stops at its end and disarms itself.  From a session whose audio element
    has no listener: [startSession] shows the question as playing, with one
    stop-watch armed; a position report before the end of the question
    changes nothing else, and the first report at or after it pauses the
    element, leaves no stop-watch armed and makes the session wait for the
    user.  [playAnswer] then shows the answer as playing, and the first
    report at or after the end of the answer pauses the element, leaves no
    stop-watch armed and moves the session to the review, on the same
    item. *)
Theorem miniStory_lifecycle (currentItem : MiniStoryInteraction) (st : State)
    (a : Audio.element Watch) (t0 t1 t2 : number) :
  audio st = Some a →
  Audio.listeners a = [] →
  num_geb t0 (questionEnd currentItem) = false →
  num_geb t1 (questionEnd currentItem) = true →
  num_geb t2 (answerEnd currentItem) = true →
  let s0 := startSession currentItem st in
  let s1 := timeupdate t1 (timeupdate t0 s0) in
  let s2 := playAnswer currentItem s1 in
  let s3 := timeupdate t2 s2 in
  (state s0 = PLAYING_QUESTION ∧ armed s0 = 1%nat ∧ isPaused s0 = false)
  ∧ (state (timeupdate t0 s0) = PLAYING_QUESTION
     ∧ armed (timeupdate t0 s0) = 1%nat
     ∧ isPaused (timeupdate t0 s0) = false)
  ∧ (state s1 = WAITING_FOR_USER ∧ armed s1 = 0%nat ∧ isPaused s1 = true)
  ∧ (state s2 = PLAYING_ANSWER ∧ armed s2 = 1%nat ∧ isPaused s2 = false)
  ∧ (state s3 = REVIEW ∧ armed s3 = 0%nat ∧ isPaused s3 = true)
  ∧ currentIndex s3 = currentIndex st.
Proof.
  intros Ha Hl H0 H1 H2 s0 s1 s2 s3.
  assert (E0 : s0 = setAudio
                      (Audio.mkElement (questionStart currentItem) false
                         [(Audio.fresh a,
                           mkWatch (questionEnd currentItem)
                             (Some toWaitingForUser))]
                         (S (Audio.fresh a)))
                      (setState PLAYING_QUESTION st)).
  { subst s0. unfold startSession. by apply playAudio_single. }
  assert (E0' : timeupdate t0 s0
                = setAudio
                    (Audio.mkElement t0 false
                       [(Audio.fresh a,
                         mkWatch (questionEnd currentItem)
                           (Some toWaitingForUser))]
                       (S (Audio.fresh a)))
                    (setState PLAYING_QUESTION st)).
  { rewrite E0. erewrite timeupdate_single; [|reflexivity|reflexivity].
    cbn [w_end]. by rewrite H0. }
  assert (E1 : s1 = startListening
                      (setState WAITING_FOR_USER
                         (setAudio
                            (Audio.mkElement t1 true [] (S (Audio.fresh a)))
                            (setState PLAYING_QUESTION st)))).
  { subst s1. rewrite E0'.
    erewrite timeupdate_single; [|reflexivity|reflexivity].
    cbn [w_end w_onEnd]. by rewrite H1. }
  destruct (startListening_same
              (setState WAITING_FOR_USER
                 (setAudio (Audio.mkElement t1 true [] (S (Audio.fresh a)))
                    (setState PLAYING_QUESTION st)))) as (L1 & L2 & L3).
  rewrite <- E1 in L1, L2, L3. cbn in L1, L2, L3.
  destruct (stopListening_same s1) as (M1 & M2 & M3).
  assert (E2 : s2 = setAudio
                      (Audio.mkElement (answerStart currentItem) false
                         [(S (Audio.fresh a),
                           mkWatch (answerEnd currentItem) (Some toReview))]
                         (S (S (Audio.fresh a))))
                      (setState PLAYING_ANSWER (stopListening s1))).
  { subst s2. unfold playAnswer.
    rewrite (playAudio_single _ _ _ _
               (Audio.mkElement t1 true [] (S (Audio.fresh a))));
      [reflexivity| |reflexivity].
    cbn [audio setState]. by rewrite M2, L2. }
  assert (E3 : s3 = setState REVIEW
                      (setAudio
                         (Audio.mkElement t2 true [] (S (S (Audio.fresh a))))
                         (setState PLAYING_ANSWER (stopListening s1)))).
  { subst s3. rewrite E2.
    erewrite timeupdate_single; [|reflexivity|reflexivity].
    cbn [w_end w_onEnd]. by rewrite H2. }
  split; [by rewrite E0|]. split; [by rewrite E0'|].
  split.
  { split; [exact L1|]. unfold armed, isPaused. by rewrite L2. }
  split; [by rewrite E2|]. split; [by rewrite E3|].
  rewrite E3. cbn. by rewrite M3, L3.
Qed.

Lemma miniStory_lifecycle_witness :
  (audio Sample.review = Some (Audio.mkElement (Fin 5) true [] 0)
   ∧ Audio.listeners (Audio.mkElement (H:=Watch) (Fin 5) true [] 0) = []
   ∧ num_geb (Fin 1) (questionEnd Sample.item) = false
   ∧ num_geb (Fin 2) (questionEnd Sample.item) = true
   ∧ num_geb (Fin 5) (answerEnd Sample.item) = true)
  ∧ state
      (timeupdate (Fin 5)
         (playAnswer Sample.item
            (timeupdate (Fin 2)
               (timeupdate (Fin 1) (startSession Sample.item Sample.review)))))
    = REVIEW.
Proof.
  assert (H1 : audio Sample.review = Some (Audio.mkElement (Fin 5) true [] 0))
    by reflexivity.
  assert (H2 : Audio.listeners (Audio.mkElement (H:=Watch) (Fin 5) true [] 0)
               = []) by reflexivity.
  assert (H3 : num_geb (Fin 1) (questionEnd Sample.item) = false)
    by reflexivity.
  assert (H4 : num_geb (Fin 2) (questionEnd Sample.item) = true)
    by reflexivity.
  assert (H5 : num_geb (Fin 5) (answerEnd Sample.item) = true) by reflexivity.
  split; [auto|].
  destruct (miniStory_lifecycle Sample.item Sample.review _ (Fin 1) (Fin 2)
              (Fin 5) H1 H2 H3 H4 H5) as (_ & _ & _ & _ & (Hs & _) & _).
  exact Hs.
Defined.

End MiniStory.

(** ** Sorting a list whose elements the comparator orders *)

Section SortingOn.
Context {A : Type} (leb : A → A → bool) (P : A → Prop).
Hypothesis leb_total : ∀ a b, P a → P b → leb a b = true ∨ leb b a = true.
Hypothesis leb_trans :
  ∀ a b c, P a → P b → P c → leb a b = true → leb b c = true → leb a c = true.

Lemma insert_sorted_on (x : A) (l : list A) :
  P x → Forall P l →
  StronglySorted (λ a b, leb a b = true) l →
  StronglySorted (λ a b, leb a b = true) (JSArray.insert leb x l).
Proof.
  intros Hx HP. induction 1 as [|y l Hl IH Hy]; cbn; [by repeat constructor|].
  apply Forall_cons in HP as [Py HP].
  destruct (leb x y) eqn:E.
  - constructor; [by constructor|]. constructor; [done|].
    rewrite Forall_forall in Hy, HP. apply Forall_forall. intros z Hz.
    apply (leb_trans x y z); auto.
  - constructor; [by apply IH|].
    rewrite insert_Permutation. constructor; [|done].
    destruct (leb_total x y Hx Py) as [H|H]; [congruence|done].
Qed.

Lemma sort_sorted_on (l : list A) :
  Forall P l → StronglySorted (λ a b, leb a b = true) (JSArray.sort leb l).
Proof.
  induction 1 as [|x l Hx Hl IH]; cbn; [constructor|].
  apply insert_sorted_on; [done| |done].
  fold (JSArray.sort leb l). by rewrite sort_Permutation.
Qed.

End SortingOn.

(** ** The review step *)

Section ReviewFacts.
Import JS Types StepReview Review Transcript.

Lemma notPositive_le (a b : number) :
  a ≠ NaN → b ≠ NaN →
  notPositive (num_sub a b) = true ↔ num_le a b.
Proof.
  unfold num_le.
  destruct a as [|s|p], b as [|s'|q]; try done; intros _ _; cbn.
  - by destruct s, s'.
  - rewrite !Qle_bool_iff. split; intros H; lra.
Qed.

Lemma num_le_total (a b : number) :
  a ≠ NaN → b ≠ NaN → num_le a b ∨ num_le b a.
Proof.
  unfold num_le.
  destruct a as [|s|p], b as [|s'|q]; try done; intros _ _; cbn.
  - destruct s, s'; auto.
  - destruct s; auto.
  - destruct s'; auto.
  - rewrite !Qle_bool_iff. destruct (Qlt_le_dec p q); [left; lra|right; lra].
Qed.

Lemma num_le_trans (a b c : number) :
  a ≠ NaN → b ≠ NaN → c ≠ NaN → num_le a b → num_le b c → num_le a c.
Proof.
  unfold num_le.
  destruct a as [|s|p], b as [|s'|q], c as [|s''|r]; try done; intros _ _ _;
    cbn; try (by destruct s); try (by destruct s'); try (by destruct s'');
    try (by destruct s, s'); try (by destruct s', s'');
    try (by destruct s, s', s'').
  rewrite !Qle_bool_iff. intros; lra.
Qed.

Lemma setText_timed (field : TextField) (v : string) (s : Segment) :
  timed s → timed (setText field v s).
Proof. by destruct field. Qed.

Lemma edit_timed (l : list Segment) (e : Edit) :
  Forall timed l → Forall timed (edit l e).
Proof.
  intros Hl. destruct e as [id field v|id field v|id]; cbn [edit].
  - unfold handleTextChange. apply Forall_fmap.
    eapply Forall_impl; [exact Hl|]. intros s Hs. cbn.
    destruct (String.eqb (s_id s) id); [by apply setText_timed|done].
  - unfold handleTimeChange.
    destruct (parseFloat (chars v)) as [|n|q] eqn:E; [done| |];
      cbn [isNaN]; apply Forall_fmap;
      (eapply Forall_impl; [exact Hl|]); intros s [Hs He]; cbn;
      destruct (String.eqb (s_id s) id); try done; by destruct field.
  - unfold handleDelete. rewrite Forall_forall in Hl. apply Forall_forall.
    intros s [_ Hin]%list_elem_of_filter. by apply Hl.
Qed.

Lemma edits_timed (edits : list Edit) (l : list Segment) :
  Forall timed l → Forall timed (foldl edit l edits).
Proof.
  revert l. induction edits as [|e edits IH]; intros l Hl; [done|].
  cbn [foldl]. by apply IH, edit_timed.
Qed.

Lemma plausible_timed (s : Segment) : plausible s → timed s.
Proof.
  intros (_ & _ & _ & (q & Hq & _) & (q' & Hq' & _)).
  split; intros E; [rewrite E in Hq|rewrite E in Hq']; done.
Qed.

Lemma handleConfirm_sorted (l : list Segment) :
  Forall timed l →
  handleConfirm l ≡ₚ l
  ∧ StronglySorted (λ a b, num_le (s_start a) (s_start b)) (handleConfirm l).
Proof.
  intros Hl. unfold handleConfirm. split; [apply sort_Permutation|].
  set (leb := λ a b : Segment, notPositive (num_sub (s_start a) (s_start b))).
  assert (Hsorted : StronglySorted (λ a b, leb a b = true) (JSArray.sort leb l)).
  { apply (sort_sorted_on leb timed); [| |exact Hl].
    - intros a b [Ha _] [Hb _]. unfold leb. rewrite !notPositive_le by done.
      by apply num_le_total.
    - intros a b c [Ha _] [Hb _] [Hc _]. unfold leb.
      rewrite !notPositive_le by done. by apply num_le_trans. }
  assert (Hall : Forall timed (JSArray.sort leb l))
    by (by rewrite sort_Permutation).
  clear Hl. induction Hsorted as [|x r Hr IH Hx]; [constructor|].
  apply Forall_cons in Hall as [[Hs _] Hall].
  constructor; [by apply IH|].
  rewrite Forall_forall in Hx, Hall. apply Forall_forall. intros y Hy.
  destruct (Hall y Hy) as [Hys _].
  apply notPositive_le; [done|done|]. by apply Hx.
Qed.

(** X19.  The review hands on a sorted list whatever the user did.  An edit
    of a time is kept only if the new value reads as a number, so segments
    whose times are numbers, as those of a transcript are, keep times that
    are numbers through every change of a text, change of a time and
    deletion; the subtraction that compares two starts then orders the
    segments consistently, and [handleConfirm] hands on the edited segments,
    each once, in ascending order of start. *)
Theorem confirmed_sorted (segments : list Segment) (edits : list Edit) :
  Forall timed segments →
  Forall timed (foldl edit segments edits)
  ∧ confirmed segments edits ≡ₚ foldl edit segments edits
  ∧ StronglySorted (λ a b, num_le (s_start a) (s_start b))
      (confirmed segments edits).
Proof.
  intros H. pose proof (edits_timed edits segments H) as Ht.
  split; [exact Ht|]. by apply handleConfirm_sorted.
Qed.

Lemma confirmed_sorted_witness :
  Forall timed Sample.segments
  ∧ confirmed Sample.segments
      [TimeChange "seg-0-1700000000000" start "7.5";
       TimeChange "seg-1-1700000000001" start "abc";
       TextChange "seg-0-1700000000000" text "The quick brown fox."]
    ≡ₚ [mkSegment "seg-0-1700000000000" "The quick brown fox." (Some "")
          (parseFloat (chars "7.5")) (Fin (5 # 2));
        mkSegment "seg-1-1700000000001" "jumps over the lazy dog." (Some "")
          (Fin (5 # 2)) (Fin 6)].
Proof.
  assert (H : Forall timed Sample.segments) by (by repeat constructor).
  split; [exact H|].
  destruct (confirmed_sorted Sample.segments
              [TimeChange "seg-0-1700000000000" start "7.5";
               TimeChange "seg-1-1700000000001" start "abc";
               TextChange "seg-0-1700000000000" text "The quick brown fox."]
              H) as (_ & Hp & _).
  exact Hp.
Defined.

Lemma change_proj {B} (g : Segment → B) (f : Segment → Segment) (id : string)
    (l : list Segment) :
  (∀ s, g (f s) = g s) →
  g <$> ((λ s, if String.eqb (s_id s) id then f s else s) <$> l) = g <$> l.
Proof.
  intros Hg. rewrite <- list_fmap_compose. apply list_fmap_ext.
  intros _ s _. cbn. by destruct (String.eqb (s_id s) id).
Qed.

Lemma change_others (f : Segment → Segment) (id : string) (l : list Segment) :
  (∀ s, s_id (f s) = s_id s) →
  filter (λ s, s_id s ≠ id)
    ((λ s, if String.eqb (s_id s) id then f s else s) <$> l)
  = filter (λ s, s_id s ≠ id) l.
Proof.
  intros Hf. induction l as [|s l IH]; [done|]. rewrite fmap_cons.
  destruct (String.eqb_spec (s_id s) id) as [E|E].
  - rewrite !filter_cons_False; [done|by rewrite E; auto|].
    rewrite Hf, E. auto.
  - by rewrite !filter_cons_True, IH by done.
Qed.

(** X20.  The single edits of the review touch what they name and nothing
    else.  A change of a text or of a time keeps the number, the order and
    the ids of the segments, and the segments with another id as they are; a
    change of a text keeps all times and a change of a time all texts; a time
    that does not read as a number changes nothing; and a deletion removes
    the segments with the id and keeps the others in their order.  The
    segments of a transcript have times that are numbers. *)
Theorem edit_spec :
  (∀ id field newValue l,
     (s_id <$> handleTextChange id field newValue l) = (s_id <$> l)
     ∧ (s_start <$> handleTextChange id field newValue l) = (s_start <$> l)
     ∧ (s_end <$> handleTextChange id field newValue l) = (s_end <$> l)
     ∧ filter (λ s, s_id s ≠ id) (handleTextChange id field newValue l)
       = filter (λ s, s_id s ≠ id) l)
  ∧ (∀ id field newValue l,
       (s_id <$> handleTimeChange id field newValue l) = (s_id <$> l)
       ∧ (s_text <$> handleTimeChange id field newValue l) = (s_text <$> l)
       ∧ filter (λ s, s_id s ≠ id) (handleTimeChange id field newValue l)
         = filter (λ s, s_id s ≠ id) l
       ∧ (parseFloat (chars newValue) = NaN →
          handleTimeChange id field newValue l = l))
  ∧ (∀ id l,
       handleDelete id l `sublist_of` l
       ∧ ¬ (id ∈ (s_id <$> handleDelete id l))
       ∧ ∀ s, s ∈ l → s_id s ≠ id → s ∈ handleDelete id l)
  ∧ (∀ l, Forall plausible l → Forall timed l).
Proof.
  split; [|split; [|split]].
  - intros id field v l. unfold handleTextChange.
    split; [apply change_proj; by destruct field|].
    split; [apply change_proj; by destruct field|].
    split; [apply change_proj; by destruct field|].
    apply change_others. by destruct field.
  - intros id field v l. unfold handleTimeChange.
    destruct (parseFloat (chars v)) as [|n|q] eqn:Ev; cbn [isNaN]; [done| |];
      (split; [apply change_proj; by destruct field|]);
      (split; [apply change_proj; by destruct field|]);
      (split; [apply change_others; by destruct field|done]).
  - intros id l. unfold handleDelete. split; [apply sublist_filter|]. split.
    + intros (s & Hs & [Hin Hne]%list_elem_of_filter)%list_elem_of_fmap.
      by apply Hin.
    + intros s Hs Hne. by apply list_elem_of_filter.
  - intros l Hl. eapply Forall_impl; [exact Hl|]. apply plausible_timed.
Qed.

End ReviewFacts.

(** ** The vocabulary list *)

Section Vocabulary.
Import JS Types Library VocabularyList.

Lemma getVocabulary_newest (results : list VocabularyItem) :
  StronglySorted (λ a b, v_savedAt b ≤ v_savedAt a) (getVocabulary results).
Proof.
  unfold getVocabulary.
  eapply StronglySorted_weaken; [|apply sort_sorted].
  - intros a b H. cbv beta in H. apply Z.leb_le in H. lia.
  - intros a b. rewrite !Z.leb_le. lia.
  - intros a b c. rewrite !Z.leb_le. lia.
Qed.

Lemma filter_StronglySorted {A} (R : relation A) (f : A → bool) (l : list A) :
  StronglySorted R l → StronglySorted R (List.filter f l).
Proof.
  induction 1 as [|x l Hl IH Hx]; cbn; [constructor|].
  destruct (f x); [|done]. constructor; [done|].
  rewrite Forall_forall in Hx. apply Forall_forall.
  intros y Hy%list_elem_of_In%filter_In. apply Hx, list_elem_of_In, Hy.
Qed.

Lemma filter_sublist {A} (f : A → bool) (l : list A) :
  List.filter f l `sublist_of` l.
Proof.
  induction l as [|x l IH]; cbn; [done|].
  destruct (f x); [by apply sublist_skip|by apply sublist_cons].
Qed.

(** X21.  The list that the vocabulary page shows holds, in the order of
    [getVocabulary], newest first, the items whose word, sentence or topic
    contains the search term, letter case apart.  With an empty search term
    it is the whole list; the case of the letters of the term plays no part;
    and an item with an empty or absent topic is found by its word or its
    sentence only. *)
Theorem filteredList_spec :
  (∀ vocabList, filteredList "" vocabList = vocabList)
  ∧ (∀ searchTerm vocabList,
       filteredList (str (toLowerCase (chars searchTerm))) vocabList
       = filteredList searchTerm vocabList)
  ∧ (∀ searchTerm vocabList,
       filteredList searchTerm vocabList `sublist_of` vocabList)
  ∧ (∀ searchTerm vocabList item,
       item ∈ filteredList searchTerm vocabList
       ↔ item ∈ vocabList ∧ matches searchTerm item = true)
  ∧ (∀ searchTerm results,
       StronglySorted (λ a b, v_savedAt b ≤ v_savedAt a)
         (filteredList searchTerm (getVocabulary results)))
  ∧ (∀ searchTerm item,
       v_topic item = None ∨ v_topic item = Some "" →
       matches searchTerm item
       = includes (toLowerCase (chars searchTerm))
           (toLowerCase (chars (v_word item)))
         || includes (toLowerCase (chars searchTerm))
              (toLowerCase (chars (v_originalSentence item)))).
Proof.
  split; [|split; [|split; [|split; [|split]]]].
  - intros l. unfold filteredList. induction l as [|x l IH]; [done|].
    cbn [List.filter].
    assert (E : matches "" x = true).
    { unfold matches. cbn [chars list_ascii_of_string toLowerCase map].
      by destruct (toLowerCase (chars (v_word x))). }
    by rewrite E, IH.
  - intros term l. unfold filteredList. apply filter_ext. intros item.
    unfold matches. by rewrite chars_str, toLowerCase_idemp.
  - intros term l. apply filter_sublist.
  - intros term l item. unfold filteredList.
    by rewrite !list_elem_of_In, filter_In.
  - intros term results. apply filter_StronglySorted, getVocabulary_newest.
  - intros term item [H|H]; unfold matches; rewrite H; cbn;
      by rewrite orb_false_r.
Qed.

(** X22.  The flashcards go round.  With a list of [length] cards and the
    index of a card of the list, [handleNextCard] gives the next index, and
    the first after the last; [handlePrevCard] gives the index before, and
    the last before the first; both stay within the list, and each undoes
    the other. *)
Theorem flashcards_cycle (length prev : Z) :
  0 ≤ prev < length →
  handleNextCard length prev = (if prev + 1 =? length then 0 else prev + 1)
  ∧ handlePrevCard length prev = (if prev =? 0 then length - 1 else prev - 1)
  ∧ 0 ≤ handleNextCard length prev < length
  ∧ 0 ≤ handlePrevCard length prev < length
  ∧ handlePrevCard length (handleNextCard length prev) = prev
  ∧ handleNextCard length (handlePrevCard length prev) = prev.
Proof.
  intros Hi.
  assert (Hn : ∀ i, 0 ≤ i < length →
            handleNextCard length i = if i + 1 =? length then 0 else i + 1).
  { intros i H. unfold handleNextCard. rewrite Z.rem_mod_nonneg by lia.
    destruct (Z.eqb_spec (i + 1) length) as [->|E];
      [apply Z.mod_same; lia|apply Z.mod_small; lia]. }
  assert (Hp : ∀ i, 0 ≤ i < length →
            handlePrevCard length i = if i =? 0 then length - 1 else i - 1).
  { intros i H. unfold handlePrevCard. rewrite Z.rem_mod_nonneg by lia.
    destruct (Z.eqb_spec i 0) as [->|E].
    { replace (0 - 1 + length) with (length - 1) by lia.
      apply Z.mod_small; lia. }
    replace (i - 1 + length) with (i - 1 + 1 * length) by lia.
    rewrite Z.mod_add by lia. apply Z.mod_small; lia. }
  rewrite (Hn prev Hi), (Hp prev Hi).
  split; [done|]. split; [done|].
  destruct (Z.eqb_spec (prev + 1) length) as [E1|E1],
           (Z.eqb_spec prev 0) as [E2|E2];
    (split; [lia|]); (split; [lia|]);
    rewrite Hp, Hn by lia;
    repeat match goal with
           | |- context [?a =? ?b] => destruct (Z.eqb_spec a b)
           end; lia.
Qed.

Lemma flashcards_cycle_witness :
  0 ≤ 2 < 3
  ∧ handleNextCard 3 2 = 0
  ∧ handlePrevCard 3 (handleNextCard 3 2) = 2.
Proof.
  assert (H : 0 ≤ 2 < 3) by lia.
  split; [exact H|].
  destruct (flashcards_cycle 3 2 H) as (Hn & _ & _ & _ & Hr & _).
  split; [exact Hn|exact Hr].
Defined.

Lemma int16_range (lo hi : Z) :
  0 ≤ lo < 256 → 0 ≤ hi < 256 → -32768 ≤ int16 lo hi < 32768.
Proof. intros Hlo Hhi. unfold int16. destruct (_ <? _) eqn:E; lia. Qed.

Lemma dataInt16_spec (bytes : list Z) :
  Forall (λ b, 0 ≤ b < 256) bytes →
  match dataInt16 bytes with
  | Some samples =>
      length bytes = (2 * length samples)%nat
      ∧ Forall (λ v, -32768 ≤ v < 32768) samples
  | None => Nat.odd (length bytes) = true
  end.
Proof.
  assert (H : ∀ n bytes, (length bytes ≤ n)%nat →
            Forall (λ b, 0 ≤ b < 256) bytes →
            match dataInt16 bytes with
            | Some samples =>
                length bytes = (2 * length samples)%nat
                ∧ Forall (λ v, -32768 ≤ v < 32768) samples
            | None => Nat.odd (length bytes) = true
            end).
  { clear bytes. induction n as [|n IH]; intros [|lo [|hi rest]] Hn Hall;
      cbn in Hn; try lia; try done.
    apply Forall_cons in Hall as [Hlo Hall].
    apply Forall_cons in Hall as [Hhi Hall].
    specialize (IH rest ltac:(lia) Hall).
    cbn [dataInt16]. destruct (dataInt16 rest) as [samples|]; cbn.
    - destruct IH as [Hl Hs]. split; [lia|].
      constructor; [by apply int16_range|done].
    - exact IH. }
  intros Hall. by apply (H (length bytes)).
Qed.

(** X23.  The speech is decoded two bytes to a sample: a binary string of
    even length gives half as many samples as it has characters, each at
    least -1 and below 1, and a binary string of odd length gives none, the
    constructor of the sample array failing on it. *)
Theorem channelData_spec (binaryString : list ascii) :
  match channelData binaryString with
  | Some samples =>
      length binaryString = (2 * length samples)%nat
      ∧ Forall (λ x : Q, (-1 <= x)%Q ∧ (x < 1)%Q) samples
  | None => Nat.odd (length binaryString) = true
  end.
Proof.
  unfold channelData.
  pose proof (dataInt16_spec (map (λ c, Z.of_N (code c)) binaryString)) as H.
  rewrite length_map in H.
  destruct (dataInt16 _) as [samples|]; cbn.
  - destruct H as [Hl Hs].
    { apply Forall_forall. intros b (c & -> & _)%list_elem_of_fmap.
      pose proof (N_ascii_bounded c). unfold code. lia. }
    rewrite length_map. split; [done|]. apply Forall_fmap.
    eapply Forall_impl; [exact Hs|]. intros v Hv. cbv beta in Hv |- *.
    assert (H1 : (inject_Z (-32768) <= inject_Z v)%Q) by (rewrite <- Zle_Qle; lia).
    assert (H2 : (inject_Z v < inject_Z 32768)%Q) by (rewrite <- Zlt_Qlt; lia).
    split.
    + apply Qle_shift_div_l; [done|].
      change (-1 * 32768)%Q with (inject_Z (-32768)). exact H1.
    + apply Qlt_shift_div_r; [done|].
      change (1 * 32768)%Q with (inject_Z 32768). exact H2.
  - apply H. apply Forall_forall. intros b (c & -> & _)%list_elem_of_fmap.
    pose proof (N_ascii_bounded c). unfold code. lia.
Qed.

End Vocabulary.

(** ** Code fences *)

Section Fences.
Import JS Responses.

Lemma dropFences_skip (before l : list ascii) :
  dropFences (length before) (before ++ l) = dropFences 0 l.
Proof.
  induction before as [|c before IH]; [done|]. cbn [length app dropFences].
  exact IH.
Qed.

Lemma dropFences_plain (l rest : list ascii) :
  Forall (λ c, Ascii.eqb c "`" = false) l →
  dropFences 0 (l ++ rest) = l ++ dropFences 0 rest.
Proof.
  induction 1 as [|c l Hc Hl IH]; [done|].
  change ((c :: l) ++ rest) with (c :: (l ++ rest)).
  cbn [dropFences]. unfold jsonFence, fence.
  cbn [chars list_ascii_of_string startsWith].
  rewrite Ascii.eqb_sym, Hc. cbn [andb]. by rewrite IH.
Qed.

Lemma startsWith_app_false (p l r : list ascii) :
  startsWith p l = false →
  Forall (λ c, Forall (λ d, Ascii.eqb c d = false) r) p →
  startsWith p (l ++ r) = false.
Proof.
  revert l. induction p as [|a p IH]; intros l Hl Hp; [done|].
  apply Forall_cons in Hp as [Ha Hp].
  destruct l as [|b l].
  - destruct r as [|d r]; [done|]. apply Forall_cons in Ha as [Ha _].
    cbn [app startsWith]. by rewrite Ha.
  - cbn [app startsWith] in Hl |- *.
    destruct (Ascii.eqb a b); [|done]. cbn [andb] in Hl |- *. by apply IH.
Qed.

(** X24.  [cleanJsonString] takes the fence off a fenced response: for a
    body without a backquote, the body alone, the body between the opening
    fence of a JSON block with its line break and the closing fence, and the
    body between two bare fences all give the trimmed body; the empty text
    gives the empty text. *)
Theorem cleanJsonString_spec (body : list ascii) :
  Forall (λ c, Ascii.eqb c "`" = false) body →
  cleanJsonString "" = ""
  ∧ cleanJsonString (str body) = str (trim body)
  ∧ cleanJsonString
      (str (jsonFence ++ [ascii_of_N 10] ++ body ++ fence))
    = str (trim body)
  ∧ (startsWith (chars "json") body = false →
     cleanJsonString (str (fence ++ body ++ fence)) = str (trim body)).
Proof.
  intros Hb.
  assert (Hplain : dropFences 0 (body ++ fence) = body).
  { rewrite dropFences_plain by done. by rewrite app_nil_r. }
  split; [done|]. split; [|split].
  - unfold cleanJsonString. destruct (String.eqb_spec (str body) "") as [E|E].
    + apply (f_equal chars) in E. rewrite chars_str in E. by rewrite E.
    + rewrite chars_str. rewrite <- (app_nil_r body) at 1.
      by rewrite dropFences_plain, app_nil_r.
  - unfold cleanJsonString. rewrite chars_str.
    change (str (jsonFence ++ [ascii_of_N 10] ++ body ++ fence) =? "")%string
      with false.
    change (dropFences 0 (jsonFence ++ [ascii_of_N 10] ++ body ++ fence))
      with (dropFences 0 (body ++ fence)).
    by rewrite Hplain.
  - intros Hj. unfold cleanJsonString. rewrite chars_str.
    change (str (fence ++ body ++ fence) =? "")%string with false.
    assert (Hj' : startsWith (chars "json") (body ++ fence) = false).
    { apply startsWith_app_false; [done|]. by repeat constructor. }
    assert (E : dropFences 0 (fence ++ body ++ fence)
                = dropFences 0 (body ++ fence)).
    { change (fence ++ body ++ fence)
        with ("`"%char :: "`"%char :: "`"%char :: (body ++ fence)).
      cbn [dropFences].
      change (startsWith jsonFence
                ("`"%char :: "`"%char :: "`"%char :: (body ++ fence)))
        with (startsWith (chars "json") (body ++ fence)).
      rewrite Hj'. reflexivity. }
    by rewrite E, Hplain.
Qed.

Lemma cleanJsonString_spec_witness :
  Forall (λ c, Ascii.eqb c "`" = false) (chars "{} ")
  ∧ cleanJsonString
      (str (jsonFence ++ [ascii_of_N 10] ++ chars "{} " ++ fence))
    = "{}".
Proof.
  assert (H : Forall (λ c, Ascii.eqb c "`" = false) (chars "{} "))
    by (by repeat constructor).
  split; [exact H|].
  destruct (cleanJsonString_spec (chars "{} ") H) as (_ & _ & Hf & _).
  exact Hf.
Defined.

End Fences.

(** ** The order of the dashboard *)

Section DashboardOrder.
Import JS Types World storageService Library Session Frame.

Lemma sublist_StronglySorted {A} (R : relation A) (k l : list A) :
  k `sublist_of` l → StronglySorted R l → StronglySorted R k.
Proof.
  intros Hk Hl. revert k Hk.
  induction Hl as [|x l Hl IH Hx]; intros k Hk.
  - apply sublist_nil_r in Hk as ->. constructor.
  - apply sublist_cons_r in Hk as [Hk|(k' & -> & Hk)]; [by apply IH|].
    constructor; [by apply IH|].
    rewrite Forall_forall in Hx. apply Forall_forall. intros y Hy.
    apply Hx. by eapply elem_of_sublist.
Qed.

Lemma getAllArticles_ascending (results : list Article) :
  StronglySorted (λ a b, nextReview a ≤ nextReview b) (getAllArticles results).
Proof.
  unfold getAllArticles.
  eapply StronglySorted_weaken; [|apply sort_sorted].
  - intros a b H. cbv beta in H. apply Z.leb_le in H. lia.
  - intros a b. rewrite !Z.leb_le. lia.
  - intros a b c. rewrite !Z.leb_le. lia.
Qed.

Lemma lists_cases (articles : list Article) (w : world) :
  (lists articles w).1.1 `sublist_of` articles
  ∧ (lists articles w).1.2 `sublist_of` articles
  ∧ ∀ now, (∀ k, clock w k = now) →
      (lists articles w).1.1
      = List.filter (λ a, nextReview a <=? now) articles
      ∧ (lists articles w).1.2
        = List.filter (λ a, negb (nextReview a <=? now)) articles.
Proof.
  unfold lists, dueArticles, upcomingArticles, mbind, M_bind, bind.
  pose proof (filterM_clock (λ a now, nextReview a <=? now)
                (λ a, isDue (nextReview a)) articles w (λ _ _, eq_refl))
    as (Hw1 & _ & Hsub1 & Hconst1).
  destruct (filterM (λ a, isDue (nextReview a)) articles w) as [due w1].
  cbn [fst snd] in *. subst w1.
  match goal with
  | |- context [filterM ?t articles ?w1] =>
      pose proof (filterM_clock (λ a now, negb (nextReview a <=? now))
                    t articles w1 (λ _ _, eq_refl))
        as (_ & _ & Hsub2 & Hconst2);
      destruct (filterM t articles w1) as [upcoming w2]
  end.
  cbn [fst snd store app clock reads log] in *.
  unfold mret, M_ret, ret. cbn [fst snd].
  split; [done|]. split; [done|]. intros now Hnow.
  by rewrite (Hconst1 now Hnow), (Hconst2 now Hnow).
Qed.

Lemma sorted_split (now : Z) (l : list Article) :
  StronglySorted (λ a b, nextReview a ≤ nextReview b) l →
  List.filter (λ a, nextReview a <=? now) l
  ++ List.filter (λ a, negb (nextReview a <=? now)) l = l.
Proof.
  induction 1 as [|x l Hl IH Hx]; [done|]. cbn [List.filter].
  destruct (Z.leb_spec (nextReview x) now) as [E|E]; cbn [negb].
  - simpl. f_equal. exact IH.
  - assert (Hnone : ∀ f, (∀ a, a ∈ l → f a = false) → List.filter f l = []).
    { intros f Hf. clear -Hf. induction l as [|a l IH]; [done|]. cbn.
      rewrite (Hf a) by left. apply IH. intros b Hb. apply Hf. by right. }
    assert (Hall : ∀ f, (∀ a, a ∈ l → f a = true) → List.filter f l = l).
    { intros f Hf. clear -Hf. induction l as [|a l IH]; [done|]. cbn.
      rewrite (Hf a) by left. f_equal. apply IH. intros b Hb. apply Hf.
      by right. }
    rewrite Forall_forall in Hx.
    rewrite Hnone, Hall; [done| |].
    + intros a Ha. apply negb_true_iff, Z.leb_gt. specialize (Hx a Ha). lia.
    + intros a Ha. apply Z.leb_gt. specialize (Hx a Ha). lia.
Qed.

(** X25.  The dashboard shows the library in the order of the next review.
    Its articles being those of [getAllArticles], the list of the due ones and
    the list of the upcoming ones are each in ascending order of next review,
    the most overdue first; and if the clock does not move during the render,
    the due ones followed by the upcoming ones are the whole library in that
    order.  The mastery shown for an article is at most 100, and it is 100
    exactly when the stage of the article is past the table of intervals. *)
Theorem dashboard_order (results : list Article) (w : world) :
  let articles := getAllArticles results in
  let due := (lists articles w).1.1 in
  let upcoming := (lists articles w).1.2 in
  StronglySorted (λ a b, nextReview a ≤ nextReview b) due
  ∧ StronglySorted (λ a b, nextReview a ≤ nextReview b) upcoming
  ∧ (∀ now, (∀ k, clock w k = now) →
       due ++ upcoming = articles
       ∧ Forall (λ a, nextReview a ≤ now) due
       ∧ Forall (λ a, now < nextReview a) upcoming)
  ∧ ∀ article,
      (mastery article ≤ 100)%nat
      ∧ (mastery article = 100%nat ↔ SRS_INTERVALS !! stage article = None).
Proof.
  intros articles due upcoming.
  pose proof (getAllArticles_ascending results) as Hs. fold articles in Hs.
  destruct (lists_cases articles w) as (H1 & H2 & Hc).
  fold due in H1, Hc. fold upcoming in H2, Hc.
  split; [by eapply sublist_StronglySorted|].
  split; [by eapply sublist_StronglySorted|]. split.
  - intros now Hnow. destruct (Hc now Hnow) as [-> ->].
    split; [by apply sorted_split|]. split.
    + apply Forall_forall. intros a [_ Ha]%list_elem_of_In%filter_In.
      by apply Z.leb_le.
    + apply Forall_forall. intros a [_ Ha]%list_elem_of_In%filter_In.
      by apply negb_true_iff, Z.leb_gt in Ha.
  - intros article. unfold mastery. split; [lia|].
    rewrite lookup_ge_None. change (length SRS_INTERVALS) with 10%nat. lia.
Qed.

End DashboardOrder.

(** ** The transcript of a response *)

Section Transcription.
Import JS Types World geminiService Grammar.

Lemma patternFree_None (l : list ascii) : PatternFree l → lineRegex l = None.
Proof.
  intros Hfree. destruct (lineRegex l) as [m|] eqn:E; [exfalso|done].
  apply lineRegex_sound in E as (before & E & Hs & He & _).
  by apply (Hfree before (startStr m) (endStr m)
              (textGroup m ++ tail (translationGroup m)) Hs He).
Qed.

(** A line without an opening bracket is free of the pattern. *)
Lemma noBracket_patternFree (l : list ascii) :
  Forall (λ c, Ascii.eqb c "[" = false) l → PatternFree l.
Proof.
  intros Hl before s e rest _ _ E. rewrite E in Hl.
  apply Forall_app in Hl as [_ Hl].
  by apply Forall_cons in Hl as [Hl _].
Qed.

Lemma wellFormed_not_patternFree (line : list ascii) :
  WellFormed line → ¬ PatternFree (trim line).
Proof.
  intros (s & e & t & tr & [Hshape Hs He _ _ _]) Hfree.
  by apply (Hfree [] s e (t ++ tail tr) Hs He).
Qed.

Lemma forEachLine_parsed (lines : list (list ascii)) :
  Forall (λ line, WellFormed line ∨ PatternFree (trim line)) lines →
  ∀ (segments : list Segment) (index : nat) (w : world),
  ∃ new : list Segment,
    forEachLine segments lines index w
    = (segments ++ new,
       mkWorld (store w) (app w) (clock w) (reads w + length new) (log w))
    ∧ Parsed (clock w) index (reads w) lines new.
Proof.
  induction 1 as [|line lines Hline Hall IH]; intros segments index w.
  - exists []. rewrite app_nil_r, Nat.add_0_r. split; [by destruct w|].
    constructor.
  - cbn [forEachLine]. unfold mbind, M_bind, bind.
    destruct Hline as [(s & e & t & tr & HL)|Hfree].
    + rewrite (parseLine_line _ _ _ _ _ _ _ _ HL).
      edestruct IH as (new & Heq & Hnew). rewrite Heq. clear Heq.
      eexists (_ :: new). split.
      * rewrite <- app_assoc. cbn [store app clock reads log app length].
        do 2 f_equal. lia.
      * cbn [clock reads] in Hnew.
        apply (Parsed_line _ _ _ _ _ _ s e t tr); [done| | |done];
          apply parseTimestamp_time, HL.
    + rewrite (parseLine_skip _ _ _ _ (patternFree_None _ Hfree)).
      destruct (IH segments (S index) w) as (new & Heq & Hnew).
      exists new. split; [done|]. by constructor.
Qed.

Lemma Parsed_length (clock : nat → Z) (index reads : nat)
    (lines : list (list ascii)) (segments : list Segment) :
  Forall WellFormed lines →
  Parsed clock index reads lines segments →
  length segments = length lines.
Proof.
  intros Hall HP. induction HP as [| |i r line lines segs Hfree HP IH].
  - done.
  - apply Forall_cons in Hall as [_ Hall]. cbn. f_equal. by apply IHHP.
  - apply Forall_cons in Hall as [Hline _].
    by destruct (wellFormed_not_patternFree line Hline).
Qed.

(** C7, as the code has it.  For a response each of whose lines is a line of
    the grammar or holds the pattern nowhere, the parser makes one segment
    for each line of the grammar and none for the others, in the order of the
    lines: the segment of a line has the id made of the index of the line
    among all lines and of the instant of its creation, the text and the
    translation of the line, trimmed, and as start and end the seconds that
    the two times stand for, sixty times the minutes plus the seconds as
    doubles.  The index can be read back from the id, so the ids go up with
    the lines.  When every line is a line of the grammar there are as many
    segments as lines.  No line makes the loop fail: each adds one segment or
    none; only a response that gives no segment at all is refused. *)
Theorem transcribeAudio_wellFormed (rawText : string) (w : world) :
  let lines := splitChar (ascii_of_N 10) (chars rawText) in
  Forall (λ line, WellFormed line ∨ PatternFree (trim line)) lines →
  ∃ segments : list Segment,
    Parsed (clock w) 0 (reads w) lines segments
    ∧ transcribeAudio (inr rawText) w
      = (match segments with
         | [] => Throws (handleApiError emptyTranscript "transcribe audio")
         | _ => Returns segments
         end,
         mkWorld (store w) (app w) (clock w) (reads w + length segments)
           (log w))
    ∧ (Forall WellFormed lines →
       length segments = length lines
       ∧ (transcribeAudio (inr rawText) w).1 = Returns segments)
    ∧ (∀ i j t t', segmentId i t = segmentId j t' → i = j)
    ∧ (∀ segs line index w0,
         (parseLine segs line index w0).1 = segs
         ∨ ∃ seg, (parseLine segs line index w0).1 = segs ++ [seg]).
Proof.
  intros lines Hall.
  destruct (forEachLine_parsed lines Hall [] 0%nat w) as (new & Heq & Hnew).
  assert (Hrun : transcribeAudio (inr rawText) w
                 = (match new with
                    | [] => Throws (handleApiError emptyTranscript
                                      "transcribe audio")
                    | _ => Returns new
                    end,
                    mkWorld (store w) (app w) (clock w) (reads w + length new)
                      (log w))).
  { rewrite transcribeAudio_unfold. fold lines. rewrite Heq.
    cbn [fst snd app]. by destruct new. }
  exists new. split; [exact Hnew|]. split; [exact Hrun|]. split; [|split].
  - intros Hwf. pose proof (Parsed_length _ _ _ _ _ Hwf Hnew) as Hlen.
    split; [done|]. rewrite Hrun. destruct new as [|seg new]; [|done].
    pose proof (splitChar_nonempty (ascii_of_N 10) (chars rawText)) as Hpos.
    fold lines in Hpos. cbn in Hlen. lia.
  - exact segmentId_index.
  - intros segs line index w0. unfold parseLine.
    destruct (lineRegex (trim line)) as [m|]; [|by left].
    destruct (trim (textGroup m)); [by left|right].
    eexists. reflexivity.
Qed.

Lemma transcribeAudio_wellFormed_witness :
  Forall (λ line, WellFormed line ∨ PatternFree (trim line))
    (splitChar (ascii_of_N 10) (chars Cases.mixed))
  ∧ ∃ segments : list Segment,
      Parsed (clock (Sample.world 1700000000000)) 0 0
        (splitChar (ascii_of_N 10) (chars Cases.mixed)) segments
      ∧ (transcribeAudio (inr Cases.mixed) (Sample.world 1700000000000)).1
        = match segments with
          | [] => Throws (handleApiError emptyTranscript "transcribe audio")
          | _ => Returns segments
          end.
Proof.
  assert (H : Forall (λ line, WellFormed line ∨ PatternFree (trim line))
                (splitChar (ascii_of_N 10) (chars Cases.mixed))).
  { unfold Cases.mixed. rewrite chars_str.
    repeat apply Forall_cons_2; [| | | |constructor].
    - right. apply noBracket_patternFree. by repeat constructor.
    - left. exists (chars "00:00.000"), (chars "00:02.500"),
        (chars "Hello everyone."), (Some (chars "Xin chao.")).
      split; [reflexivity| | |discriminate|reflexivity|by repeat constructor].
      + apply (Time_millis (chars "00") (chars "00") (chars "000"));
          by repeat constructor.
      + apply (Time_millis (chars "00") (chars "02") (chars "500"));
          by repeat constructor.
    - left. exists (chars "00:02.500"), (chars "00:05.100"),
        (chars "Welcome to the lesson."), None.
      split; [reflexivity| | |discriminate|reflexivity|by repeat constructor].
      + apply (Time_millis (chars "00") (chars "02") (chars "500"));
          by repeat constructor.
      + apply (Time_millis (chars "00") (chars "05") (chars "100"));
          by repeat constructor.
    - right. apply noBracket_patternFree. constructor. }
  split; [exact H|].
  destruct (transcribeAudio_wellFormed Cases.mixed
              (Sample.world 1700000000000) H) as (segments & Hp & Heq & _).
  exists segments. split; [exact Hp|]. by rewrite Heq.
Defined.

(** The claim as the specification states it fails: a line that is not a
    line of the grammar is not always skipped.  The pattern is looked for
    anywhere in the line, so a line with a number before the bracket gives a
    segment. *)
Lemma transcribeAudio_prefixed :
  ¬ WellFormed (chars "1. [00:00.000 -> 00:02.500] Hello everyone.")
  ∧ (transcribeAudio (inr "1. [00:00.000 -> 00:02.500] Hello everyone.")
       (Sample.world 1700000000000)).1
    = Returns [mkSegment "seg-0-1700000000000" "Hello everyone." (Some "")
                 (Fin 0) (Fin (5 # 2))].
Proof.
  split; [|by vm_compute].
  intros (s & e & t & tr & [Hshape _ _ _ _ _]).
  vm_compute in Hshape. discriminate.
Qed.

End Transcription.
